(** * Survivor Science podcast archive: the feed-to-page pipeline of build.js

    A shallow embedding of the string functions of [build.js] (tag
    extraction, episode normalisation, text utilities, the comparator of
    the episode sort and the dynamic parts of the page templates), and the
    properties of them that the specification states.

    JavaScript strings are sequences of UTF-16 code units; they are
    modelled as lists of code units, each a number in [N].  Regular
    expressions of the source are embedded as the scanning functions they
    denote: a matcher tries one start position and the search tries the
    start positions from left to right, as the backtracking semantics of
    ECMAScript does.  Numbers are double-precision values: the integers
    that the program parses and computes are rounded as the language
    rounds them, and printed as it prints them. *)

From Stdlib Require Import Ascii String DecimalString.
From Stdlib Require Import List NArith ZArith Bool Lia Permutation Sorted.
Import ListNotations.

Set Implicit Arguments.

(** ** JavaScript strings and the primitives of the language *)

Module JS.

Definition jsstring : Type := list N.

(** A literal of the source, written as a Rocq string of 8-bit characters. *)
Definition str (s : string) : jsstring :=
  map N_of_ascii (list_ascii_of_string s).

(** The double quote, the apostrophe and the line feed, which the literals
    of the source contain. *)
Definition dq : jsstring := [34%N].
Definition apos : jsstring := [39%N].
Definition nl : jsstring := [10%N].

Definition c_lt : N := 60.
Definition c_gt : N := 62.
Definition c_amp : N := 38.
Definition c_dq : N := 34.
Definition c_apos : N := 39.

Definition in_range (lo hi c : N) : bool := (lo <=? c)%N && (c <=? hi)%N.

(** [\s] of a regular expression, and the characters [trim] and [parseInt]
    strip: WhiteSpace and LineTerminator of ECMAScript. *)
Definition is_space (c : N) : bool :=
  in_range 9 13 c || (c =? 32)%N || (c =? 160)%N || (c =? 5760)%N
  || in_range 8192 8202 c || (c =? 8232)%N || (c =? 8233)%N
  || (c =? 8239)%N || (c =? 8287)%N || (c =? 12288)%N || (c =? 65279)%N.

(** [\d]. *)
Definition is_digit (c : N) : bool := in_range 48 57 c.

(** Canonicalisation of the [i] flag (without the [u] flag): a code unit
    is compared through its upper case, and a code unit outside ASCII is
    never identified with an ASCII one; on the ASCII patterns of the
    source this is the folding of the letters a-z. *)
Definition upper (c : N) : N := if in_range 97 122 c then (c - 32)%N else c.
Definition eq_ci (a b : N) : bool := (upper a =? upper b)%N.

Fixpoint dropWhile (p : N -> bool) (s : jsstring) : jsstring :=
  match s with
  | [] => []
  | c :: t => if p c then dropWhile p t else s
  end.

Fixpoint takeWhile (p : N -> bool) (s : jsstring) : jsstring :=
  match s with
  | [] => []
  | c :: t => if p c then c :: takeWhile p t else []
  end.

(** [String.prototype.trim]. *)
Definition trim (s : jsstring) : jsstring :=
  rev (dropWhile is_space (rev (dropWhile is_space s))).

(** [a || b] on strings: the empty string is the only falsy one. *)
Definition or_else (a b : jsstring) : jsstring :=
  match a with [] => b | _ => a end.

Definition truthy (a : jsstring) : bool :=
  match a with [] => false | _ => true end.

Fixpoint eqs (a b : jsstring) : bool :=
  match a, b with
  | [], [] => true
  | x :: a', y :: b' => (x =? y)%N && eqs a' b'
  | _, _ => false
  end.

(** [strip_prefix eqc p s] is the rest of [s] after the literal [p], when
    [s] starts with [p] (characters compared with [eqc]). *)
Fixpoint strip_prefix (eqc : N -> N -> bool) (p s : jsstring)
  : option jsstring :=
  match p with
  | [] => Some s
  | a :: p' =>
      match s with
      | [] => None
      | c :: s' => if eqc a c then strip_prefix eqc p' s' else None
      end
  end.

(** The lazy group [([\s\S]*?)] followed by the literal [close]: the
    shortest capture after which [close] matches; the result is the capture
    and what follows [close]. *)
Fixpoint lazy_until (eqc : N -> N -> bool) (close s : jsstring)
  : option (jsstring * jsstring) :=
  match strip_prefix eqc close s with
  | Some rest => Some ([], rest)
  | None =>
      match s with
      | [] => None
      | c :: t =>
          match lazy_until eqc close t with
          | Some (cap, rest) => Some (c :: cap, rest)
          | None => None
          end
      end
  end.

(** The search of an unanchored regular expression: the first start
    position, from the left, at which the matcher succeeds. *)
Fixpoint search (A : Type) (m : jsstring -> option A) (s : jsstring)
  : option A :=
  match m s with
  | Some a => Some a
  | None => match s with [] => None | _ :: t => search m t end
  end.

(** [s.replace(/re/g, rep)] for a regular expression that matches no empty
    string: [m] gives the length of the match at the start of its
    argument.  The counter [skip] is the number of characters of the
    current match still to be passed over. *)
Fixpoint replaceG (m : jsstring -> option nat) (rep : jsstring)
  (skip : nat) (s : jsstring) : jsstring :=
  match s with
  | [] => []
  | c :: t =>
      match skip with
      | S k => replaceG m rep k t
      | O =>
          match m s with
          | Some (S k) => rep ++ replaceG m rep k t
          | _ => c :: replaceG m rep 0 t
          end
      end
  end.

(** The matcher of a literal pattern. *)
Definition lit_at (p s : jsstring) : option nat :=
  match strip_prefix N.eqb p s with
  | Some _ => Some (length p)
  | None => None
  end.

Definition replaceAll (p rep s : jsstring) : jsstring :=
  replaceG (lit_at p) rep 0 s.

(** [/<[^>]+>/]: a [<], at least one character other than [>], and the
    first [>] after them. *)
Definition markup_at (s : jsstring) : option nat :=
  match s with
  | c :: r =>
      if (c =? c_lt)%N then
        let run := takeWhile (fun x => negb (x =? c_gt)%N) r in
        match run, dropWhile (fun x => negb (x =? c_gt)%N) r with
        | _ :: _, _ :: _ => Some (S (S (length run)))
        | _, _ => None
        end
      else None
  | [] => None
  end.

(** The value of a non-empty run of decimal digits. *)
Definition digit_val (c : N) : Z := Z.of_N c - 48.

Definition digits_val (ds : jsstring) : Z :=
  fold_left (fun acc d => 10 * acc + digit_val d)%Z ds 0%Z.

Definition is_hex (c : N) : bool :=
  is_digit c || in_range 97 102 c || in_range 65 70 c.

Definition hex_val (c : N) : Z :=
  if is_digit c then Z.of_N c - 48
  else if in_range 97 102 c then Z.of_N c - 87 else Z.of_N c - 55.

Definition hex_digits_val (ds : jsstring) : Z :=
  fold_left (fun acc d => 16 * acc + hex_val d)%Z ds 0%Z.

(** The sign prefix of [parseInt]: the sign and the rest. *)
Definition split_sign (s : jsstring) : Z * jsstring :=
  match s with
  | c :: t =>
      if (c =? 45)%N then ((-1)%Z, t)
      else if (c =? 43)%N then (1%Z, t) else (1%Z, s)
  | [] => (1%Z, [])
  end.

(** *** Numbers

    A Number is a double-precision value.  The Numbers that this program
    computes are integers (the results of [parseInt], the floors of
    quotients, remainders, time values), the two infinities and NaN:
    [Fin z] is the finite Number whose value is the integer [z].  The two
    zeros are not told apart: what the program does with its Numbers (a
    division or a remainder under a floor, a subtraction, a comparison,
    printing) gives the same for both. *)
Inductive number : Type :=
  | NaN
  | Fin (z : Z)
  | Inf (negative : bool).

(** The decimal digits of an integer, with a minus sign for a negative
    one. *)
Definition showZ (z : Z) : jsstring :=
  str (NilZero.string_of_int (Z.to_int z)).

(** The power [2^k] when [k] is positive, and 1 otherwise: a power of 2
    as a factor of a numerator or, with [- k], of the denominator. *)
Definition pow2 (k : Z) : Z := (2 ^ Z.max 0 k)%Z.

(** The Number nearest to the quotient [a / d] of two positive integers,
    as a mantissa [m] and an exponent [e] (the Number is [m * 2^e]): the
    exponent is chosen so that the quotient has 53 significant bits before
    the binary point, and the quotient is rounded to the nearest integer
    there, a tie to the even one. *)
Definition nearest (a d : Z) : Z * Z :=
  let x := (Z.log2 a - Z.log2 d)%Z in
  let t := if (d * pow2 x <=? a * pow2 (- x))%Z then x else (x - 1)%Z in
  let e := (t - 52)%Z in
  let num := (a * pow2 (- e))%Z in
  let den := (d * pow2 e)%Z in
  let q := (num / den)%Z in
  let r := (num mod den)%Z in
  let m := if (2 * r <? den)%Z then q
           else if (den <? 2 * r)%Z then (q + 1)%Z
           else if Z.even q then q else (q + 1)%Z in
  (m, e).

(** [Math.floor] of the Number [sign * m * 2^e]. *)
Definition floorOf (sign : Z) (me : Z * Z) : Z :=
  let (m, e) := me in ((sign * m * pow2 e) / pow2 (- e))%Z.

(** What rounds to 2^1024 or beyond is an infinity. *)
Definition overflow : Z := (2 ^ 1024)%Z.

(** The Number of a mathematical integer. *)
Definition toNumber (z : Z) : number :=
  if (z =? 0)%Z then Fin 0
  else
    let v := floorOf 1 (nearest (Z.abs z) 1) in
    if (overflow <=? v)%Z then Inf (z <? 0)%Z else Fin (Z.sgn z * v).

Definition isNaN (x : number) : bool :=
  match x with NaN => true | _ => false end.

(** [x > 0]. *)
Definition gtZero (x : number) : bool :=
  match x with
  | Fin v => (0 <? v)%Z
  | Inf negative => negb negative
  | NaN => false
  end.

(** [x === y] on Numbers: NaN is equal to nothing. *)
Definition strictEq (x y : number) : bool :=
  match x, y with
  | Fin a, Fin b => (a =? b)%Z
  | Inf m, Inf n => Bool.eqb m n
  | _, _ => false
  end.

(** [x - y]: the difference of two finite Numbers is rounded. *)
Definition sub (x y : number) : number :=
  match x, y with
  | Fin a, Fin b => toNumber (a - b)
  | Inf m, Fin _ => Inf m
  | Fin _, Inf n => Inf (negb n)
  | Inf m, Inf n => if Bool.eqb m n then NaN else Inf m
  | _, _ => NaN
  end.

(** [Math.floor(x / d)] for a positive integer [d]; the quotient is
    rounded to a Number before the floor is taken.  (The divisors of the
    program are 3600 and 60: a quotient other than 0 is far from the
    least Numbers, where the mantissa would be shorter.) *)
Definition floorDiv (x : number) (d : Z) : number :=
  match x with
  | Fin z =>
      if (z =? 0)%Z then Fin 0
      else Fin (floorOf (Z.sgn z) (nearest (Z.abs z) d))
  | _ => x
  end.

(** [x % d] for a positive integer [d]: the remainder is exact and has
    the sign of the dividend; that of an infinity is NaN. *)
Definition remainder (x : number) (d : Z) : number :=
  match x with Fin z => Fin (Z.rem z d) | _ => NaN end.

(** The decimal integer with the fewest significant digits that rounds to
    the Number [v], the nearest to [v] when there are several and the one
    with the even last digit when two are equally near; [j] is the number
    of final digits that are tried as zeros. *)
Fixpoint shortest_from (v : Z) (j : nat) : Z :=
  let p := (10 ^ Z.of_nat j)%Z in
  let lo := (v / p * p)%Z in
  let hi := (lo + p)%Z in
  let fits c := match toNumber c with Fin w => (w =? v)%Z | _ => false end in
  match fits lo, fits hi with
  | true, true =>
      if (v - lo <? hi - v)%Z then lo
      else if (hi - v <? v - lo)%Z then hi
      else if Z.even (v / p) then lo else hi
  | true, false => lo
  | false, true => hi
  | false, false =>
      match j with O => v | S j' => shortest_from v j' end
  end.

Definition shortest (v : Z) : Z :=
  shortest_from v (length (showZ v) - 1).

Definition dropZeros (ds : jsstring) : jsstring :=
  rev (dropWhile (fun c => (c =? 48)%N) (rev ds)).

(** The digits of a Number that is a positive integer: those of its
    shortest decimal, with zeros up to the units below 10^21 and with an
    exponent from there on. *)
Definition showPositive (v : Z) : jsstring :=
  let w := shortest v in
  if (w <? 10 ^ 21)%Z then showZ w
  else
    let ds := showZ w in
    let n := Z.of_nat (length ds) in
    match dropZeros ds with
    | [] => ds
    | [d] => d :: str "e+" ++ showZ (n - 1)
    | d :: more => d :: str "." ++ more ++ str "e+" ++ showZ (n - 1)
    end.

(** A Number in a template literal. *)
Definition numberToString (x : number) : jsstring :=
  match x with
  | NaN => str "NaN"
  | Inf negative => if negative then str "-Infinity" else str "Infinity"
  | Fin z =>
      if (z <? 0)%Z then str "-" ++ showPositive (- z) else showPositive z
  end.

(** [parseInt(s, 10)]: leading white space is skipped, a sign is read,
    and the longest prefix of decimal digits is the value, as the nearest
    Number (so V8 reads it; the language lets an implementation read no
    more than 20 significant digits); without a digit the result is NaN. *)
Definition parseInt10 (s : jsstring) : number :=
  let (sign, t) := split_sign (dropWhile is_space s) in
  match takeWhile is_digit t with
  | [] => NaN
  | ds => toNumber (sign * digits_val ds)
  end.

(** [parseInt(s)] with no radix: as [parseInt10], but a prefix [0x] or
    [0X] after the sign selects radix 16. *)
Definition parseInt (s : jsstring) : number :=
  let (sign, t) := split_sign (dropWhile is_space s) in
  match t with
  | z :: x :: h =>
      if (z =? 48)%N && ((x =? 120)%N || (x =? 88)%N) then
        match takeWhile is_hex h with
        | [] => NaN
        | ds => toNumber (sign * hex_digits_val ds)
        end
      else
        match takeWhile is_digit t with
        | [] => NaN
        | ds => toNumber (sign * digits_val ds)
        end
  | _ =>
      match takeWhile is_digit t with
      | [] => NaN
      | ds => toNumber (sign * digits_val ds)
      end
  end.

(** [arr[i]] for an index that may be negative or past the end. *)
Definition index (A : Type) (l : list A) (i : Z) : option A :=
  if (i <? 0)%Z then None else nth_error l (Z.to_nat i).

(** [arr.findIndex(p)]: the first index at which [p] holds, or -1. *)
Fixpoint findIndex_from (A : Type) (p : A -> bool) (l : list A) (i : Z) : Z :=
  match l with
  | [] => (-1)%Z
  | x :: t => if p x then i else findIndex_from p t (i + 1)%Z
  end.

Definition findIndex (A : Type) (p : A -> bool) (l : list A) : Z :=
  findIndex_from p l 0%Z.

(** [arr.slice(0, n)]. *)
Definition slice0 (A : Type) (n : nat) (l : list A) : list A := firstn n l.

(** [arr.sort(cmp)]: the sort of the language is stable, and for a
    consistent comparator its result is the stable sorted arrangement,
    which the insertion below computes.  The sort reads of a result of the
    comparator whether it is positive; NaN is taken for 0.  A comparator
    that is not consistent leaves the order to the implementation, and
    the insertion is then one such order. *)
Definition after (r : number) : bool := gtZero r.

Fixpoint insert (A : Type) (cmp : A -> A -> number) (x : A) (l : list A)
  : list A :=
  match l with
  | [] => [x]
  | y :: t => if after (cmp x y) then y :: insert cmp x t else x :: l
  end.

Definition sort (A : Type) (cmp : A -> A -> number) (l : list A) : list A :=
  fold_right (insert cmp) [] l.

End JS.

Import JS.

(** ** XML extraction (build.js, lines 41-66)

    The tag and attribute names that the source splices into its regular
    expressions are words without characters that are special in a
    pattern, so they stand for themselves. *)

Definition not_gt (c : N) : bool := negb (c =? c_gt)%N.

(** The matcher of [<TAG[^>]*>([\s\S]*?)<\/TAG>] under the [i] flag: the
    greedy [[^>]*] stops at the first [>], and the capture is the shortest
    text before a closing tag. *)
Definition tag_at (tag s : jsstring) : option jsstring :=
  match strip_prefix eq_ci (c_lt :: tag) s with
  | Some r =>
      match dropWhile not_gt r with
      | _ :: body =>
          option_map fst (lazy_until eq_ci (str "</" ++ tag ++ str ">") body)
      | [] => None
      end
  | None => None
  end.

Definition getTagContent (xml tag : jsstring) : jsstring :=
  match search (tag_at tag) xml with
  | Some c => trim c
  | None => []
  end.

(** The matcher of [<!\[CDATA\[([\s\S]*?)\]\]>]. *)
Definition cdata_at (s : jsstring) : option jsstring :=
  match strip_prefix N.eqb (str "<![CDATA[") s with
  | Some r => option_map fst (lazy_until N.eqb (str "]]>") r)
  | None => None
  end.

Definition getCDATA (text : jsstring) : jsstring :=
  match search cdata_at text with
  | Some c => trim c
  | None => trim (replaceG markup_at [] 0 text)
  end.

Definition is_quote (c : N) : bool := (c =? c_dq)%N || (c =? c_apos)%N.
Definition not_quote (c : N) : bool := negb (is_quote c).

(** The attribute name, [=], a quote of either kind, the captured value
    and a quote of either kind: the value is the run of characters that
    are no quotes, and a quote has to end it. *)
Definition attr_value (attr r : jsstring) : option jsstring :=
  match strip_prefix eq_ci (attr ++ str "=") r with
  | Some (q :: v) =>
      if is_quote q then
        match dropWhile not_quote v with
        | _ :: _ => Some (takeWhile not_quote v)
        | [] => None
        end
      else None
  | _ => None
  end.

(** [[^>]*\s] before the attribute: the greedy [[^>]*] gives back from its
    longest run, so the last white space before the first [>] after which
    the attribute matches is taken. *)
Fixpoint attr_scan (attr r : jsstring) : option jsstring :=
  match r with
  | [] => None
  | c :: t =>
      if (c =? c_gt)%N then None
      else
        match attr_scan attr t with
        | Some v => Some v
        | None => if is_space c then attr_value attr t else None
        end
  end.

Definition attr_at (tag attr s : jsstring) : option jsstring :=
  match strip_prefix eq_ci (c_lt :: tag) s with
  | Some r => attr_scan attr r
  | None => None
  end.

Definition getAttr (xml tag attr : jsstring) : jsstring :=
  match search (attr_at tag attr) xml with
  | Some v => v
  | None => []
  end.

Definition item_open : jsstring := str "<item>".
Definition item_close : jsstring := str "</item>".

(** The matcher of [<item>([\s\S]*?)<\/item>] under the [i] flag: the
    capture and the length of the whole match. *)
Definition item_at (s : jsstring) : option (jsstring * nat) :=
  match strip_prefix eq_ci item_open s with
  | Some r =>
      match lazy_until eq_ci item_close r with
      | Some (cap, _) =>
          Some (cap, length item_open + length cap + length item_close)
      | None => None
      end
  | None => None
  end.

(** The [exec] loop of [getAllItems]: after a match the search goes on
    behind it ([skip] counts the characters of the match still to pass). *)
Fixpoint items_from (skip : nat) (s : jsstring) : list jsstring :=
  match s with
  | [] => []
  | _ :: t =>
      match skip with
      | S k => items_from k t
      | O =>
          match item_at s with
          | Some (cap, S k) => cap :: items_from k t
          | _ => items_from 0 t
          end
      end
  end.

Definition getAllItems (xml : jsstring) : list jsstring := items_from 0 xml.

(** ** Text utilities (build.js, lines 116-155) *)

(** Lines 116-124; the seconds [s % 60] are computed and not used. *)
Definition formatDuration (seconds : jsstring) : jsstring :=
  let s := parseInt10 seconds in
  if isNaN s then seconds
  else
    let h := floorDiv s 3600 in
    let m := floorDiv (remainder s 3600) 60 in
    if gtZero h then
      numberToString h ++ str "h " ++ numberToString m ++ str "m"
    else numberToString m ++ str " min".

Definition escapeHtml (text : jsstring) : jsstring :=
  replaceAll [c_dq] (str "&quot;")
    (replaceAll [c_gt] (str "&gt;")
       (replaceAll [c_lt] (str "&lt;")
          (replaceAll [c_amp] (str "&amp;") text))).

Definition stripHtml (text : jsstring) : jsstring :=
  replaceAll (str "&quot;") dq
    (replaceAll (str "&#39;") apos
       (replaceAll (str "&gt;") [c_gt]
          (replaceAll (str "&lt;") [c_lt]
             (replaceAll (str "&amp;") [c_amp]
                (replaceAll (str "&nbsp;") (str " ")
                   (replaceG markup_at [] 0 text)))))).

Definition fan_mail : jsstring := str "Send us a text".

(** [text.replace(/^Send us a text\s*/i, '')]. *)
Definition cleanDescription (text : jsstring) : jsstring :=
  match strip_prefix eq_ci fan_mail text with
  | Some r => dropWhile is_space r
  | None => text
  end.

(** The matcher of [\s+\S*$]: white space, then no white space up to the
    end of the string. *)
Definition last_word_at (s : jsstring) : bool :=
  match s with
  | c :: t =>
      is_space c && forallb (fun x => negb (is_space x)) (dropWhile is_space t)
  | [] => false
  end.

(** [s.replace(/\s+\S*$/, '')]: the match, at its first start position,
    reaches the end of the string. *)
Fixpoint dropLastWord (s : jsstring) : jsstring :=
  match s with
  | [] => []
  | c :: t => if last_word_at s then [] else c :: dropLastWord t
  end.

Definition ellipsis : jsstring := str "...".

Definition truncate (text : jsstring) (maxLen : nat) : jsstring :=
  let plain := cleanDescription (stripHtml text) in
  if length plain <=? maxLen then plain
  else dropLastWord (firstn maxLen plain) ++ ellipsis.

(** ** Episode normalisation (build.js, lines 68-114) *)

Record Episode : Type := mkEpisode {
  title : jsstring;
  fullTitle : jsstring;
  description : jsstring;
  summary : jsstring;
  pubDate : jsstring;
  date : option Z;
  duration : jsstring;
  durationRaw : jsstring;
  episode : jsstring;
  season : jsstring;
  explicit : bool;
  audioUrl : jsstring;
  episodeImage : jsstring;
  buzzsproutId : jsstring;
  guid : jsstring
}.

(** The matcher of [episodes\/(\d+)]. *)
Definition id_at (s : jsstring) : option jsstring :=
  match strip_prefix N.eqb (str "episodes/") s with
  | Some r =>
      match takeWhile is_digit r with
      | [] => None
      | ds => Some ds
      end
  | None => None
  end.

(** [^(\d+)\.] at the start of a title: the digits and what follows the
    full stop. *)
Definition leading_number (t : jsstring) : option (jsstring * jsstring) :=
  match takeWhile is_digit t, dropWhile is_digit t with
  | d :: ds, c :: rest => if (c =? 46)%N then Some (d :: ds, rest) else None
  | _, _ => None
  end.

(** [title.replace(/^\d+\.\s*/, '')]. *)
Definition dropLeadingNumber (t : jsstring) : jsstring :=
  match leading_number t with
  | Some (_, rest) => dropWhile is_space rest
  | None => t
  end.

Record PodcastMeta : Type := mkPodcastMeta {
  metaTitle : jsstring;
  metaDescription : jsstring;
  metaAuthor : jsstring;
  metaImage : jsstring;
  metaLink : jsstring
}.

(** The templates of the source, by the function that holds them. *)
Inductive template : Type :=
  | T_favicon | T_nav | T_footer | T_sidebar | T_listenOn
  | T_home | T_card | T_episodes | T_player | T_audio | T_detail.

Section Site.

(** [new Date(s)] as its time value in milliseconds, [None] for an invalid
    date: the formats that the parser accepts beyond ISO 8601 are left to
    the implementation by the language.  A time value is an integer of at
    most 8.64e15 in magnitude, which a Number holds exactly. *)
Variable parseDate : jsstring -> option Z.

(** [formatDate]: it reads the date in the time zone of the host. *)
Variable formatDate : option Z -> jsstring.

(** [literal t k] is run number [k] (from 0) of the literal text of
    template [t], the runs being the non-empty texts that the
    interpolations separate.  The templates nested in an interpolation
    are written out. *)
Variable literal : template -> nat -> jsstring.

Definition parseEpisode (itemXml : jsstring) : Episode :=
  let title := getCDATA (getTagContent itemXml (str "title")) in
  let description := getCDATA (getTagContent itemXml (str "description")) in
  let pubDate := getTagContent itemXml (str "pubDate") in
  let duration := getTagContent itemXml (str "itunes:duration") in
  let episode := getTagContent itemXml (str "itunes:episode") in
  let season := getTagContent itemXml (str "itunes:season") in
  let explicit := getTagContent itemXml (str "itunes:explicit") in
  let summary :=
    getCDATA (or_else (getTagContent itemXml (str "itunes:summary"))
                      (getTagContent itemXml (str "description"))) in
  let audioUrl := getAttr itemXml (str "enclosure") (str "url") in
  let episodeImage := getAttr itemXml (str "itunes:image") (str "href") in
  let guid := getTagContent itemXml (str "guid") in
  let buzzsproutId :=
    match search id_at audioUrl with Some i => i | None => [] end in
  let episodeNum :=
    if truthy episode then episode
    else match leading_number title with
         | Some (n, _) => n
         | None => episode
         end in
  {| title := dropLeadingNumber title;
     fullTitle := title;
     description := description;
     summary := summary;
     pubDate := pubDate;
     date := parseDate pubDate;
     duration := formatDuration duration;
     durationRaw := duration;
     episode := episodeNum;
     season := or_else season (str "1");
     explicit := eqs explicit (str "true") || eqs explicit (str "yes");
     audioUrl := audioUrl;
     episodeImage := episodeImage;
     buzzsproutId := buzzsproutId;
     guid := guid |}.

(** *** The episode sort of [build] (lines 543-549) *)

(** [n || 0] for a Number: NaN and 0 are the falsy ones. *)
Definition or_zero (x : number) : number :=
  match x with NaN => Fin 0 | _ => x end.

Definition epNum (e : Episode) : number := or_zero (parseInt (episode e)).

(** The Number of a date is its time value, NaN for an invalid date. *)
Definition timeValue (d : option Z) : number :=
  match d with Some t => Fin t | None => NaN end.

(** The comparator; the difference of two dates is NaN when one of them is
    invalid. *)
Definition compareEpisodes (a b : Episode) : number :=
  let numA := epNum a in
  let numB := epNum b in
  if negb (strictEq numA numB) then sub numB numA
  else sub (timeValue (date b)) (timeValue (date a)).

Definition sortEpisodes (eps : list Episode) : list Episode :=
  sort compareEpisodes eps.

Definition feedEpisodes (rssContent : jsstring) : list Episode :=
  sortEpisodes (map parseEpisode (getAllItems rssContent)).

(** *** Page templates (lines 157-455) *)

(** [ep.episode ? ep.episode + '. ' : ''] *)
Definition numberPrefix (ep : Episode) : jsstring :=
  if truthy (episode ep) then episode ep ++ str ". " else [].

Definition faviconHTML (prefix : jsstring) : jsstring :=
  literal T_favicon 0 ++ prefix ++ literal T_favicon 1 ++ prefix
  ++ literal T_favicon 2.

Definition activeClass (activePage page : jsstring) : jsstring :=
  if eqs activePage page then str "active" else [].

Definition navHTML (activePage : jsstring) : jsstring :=
  literal T_nav 0 ++ activeClass activePage (str "home")
  ++ literal T_nav 1 ++ activeClass activePage (str "about")
  ++ literal T_nav 2 ++ activeClass activePage (str "episodes")
  ++ literal T_nav 3.

Definition footerHTML : jsstring := literal T_footer 0.

Definition listenOnHTML : jsstring := literal T_listenOn 0.

Definition indent10 : jsstring := nl ++ str "          ".

(** The list item of the recent episodes (lines 246-248). *)
Definition sidebarItem (ep : Episode) : jsstring :=
  indent10 ++ str "<li><a href=" ++ dq ++ str "episodes/" ++ episode ep
  ++ str ".html" ++ dq ++ str ">" ++ numberPrefix ep ++ title ep
  ++ str "</a></li>" ++ indent10.

Definition sidebarHTML (episodes : list Episode) : jsstring :=
  let recentEps := slice0 10 episodes in
  literal T_sidebar 0 ++ concat (map sidebarItem recentEps)
  ++ literal T_sidebar 1.

Definition default_artwork : jsstring := str "images/podcast-artwork.jpg".

Definition episodeCardHTML (ep : Episode) : jsstring :=
  literal T_card 0 ++ episode ep
  ++ literal T_card 1 ++ or_else (episodeImage ep) default_artwork
  ++ literal T_card 2 ++ escapeHtml (fullTitle ep)
  ++ literal T_card 3 ++ formatDate (date ep)
  ++ literal T_card 4 ++ episode ep
  ++ literal T_card 5 ++ numberPrefix ep ++ escapeHtml (title ep)
  ++ literal T_card 6 ++ escapeHtml (truncate (description ep) 180)
  ++ literal T_card 7 ++ episode ep
  ++ literal T_card 8.

(** The hero of the home page (line 264) and its grid (line 265). *)
Definition homeLatest (episodes : list Episode) : option Episode :=
  index episodes 0.

Definition homeRecent (episodes : list Episode) : list Episode :=
  slice0 6 episodes.

(** [None] is the TypeError of reading a field of [episodes[0]] when the
    collection is empty. *)
Definition generateHomePage (episodes : list Episode)
  (podcastMeta : PodcastMeta) : option jsstring :=
  let recent := homeRecent episodes in
  let metaText :=
    escapeHtml (cleanDescription (stripHtml (metaDescription podcastMeta))) in
  match homeLatest episodes with
  | None => None
  | Some latest =>
      Some (literal T_home 0 ++ metaText
            ++ literal T_home 1 ++ metaText
            ++ literal T_home 2 ++ faviconHTML []
            ++ literal T_home 3 ++ navHTML (str "home")
            ++ literal T_home 4 ++ numberPrefix latest
            ++ escapeHtml (title latest)
            ++ literal T_home 5
            ++ escapeHtml (truncate (description latest) 250)
            ++ literal T_home 6 ++ episode latest
            ++ literal T_home 7 ++ concat (map episodeCardHTML recent)
            ++ literal T_home 8 ++ sidebarHTML episodes
            ++ literal T_home 9 ++ footerHTML
            ++ literal T_home 10)
  end.

Definition generateEpisodesPage (episodes : list Episode) : jsstring :=
  literal T_episodes 0 ++ faviconHTML []
  ++ literal T_episodes 1 ++ navHTML (str "episodes")
  ++ literal T_episodes 2 ++ concat (map episodeCardHTML episodes)
  ++ literal T_episodes 3 ++ footerHTML
  ++ literal T_episodes 4.

(** The matcher of an attribute start (the name, [=] and a double quote)
    that none of [http], [#] and [mailto] follows: the negative lookahead
    of the replacements of lines 412 and 451. *)
Definition starts_with (p s : jsstring) : bool :=
  match strip_prefix N.eqb p s with Some _ => true | None => false end.

Definition relative_at (name s : jsstring) : option nat :=
  match strip_prefix N.eqb (name ++ str "=" ++ dq) s with
  | Some r =>
      if starts_with (str "http") r || starts_with (str "#") r
         || starts_with (str "mailto") r
      then None
      else Some (length name + 2)
  | None => None
  end.

(** The two replacements that move the links of a shared fragment one
    directory up (lines 412 and 451). *)
Definition oneLevelUp (html : jsstring) : jsstring :=
  replaceG (relative_at (str "src")) (str "src=" ++ dq ++ str "../") 0
    (replaceG (relative_at (str "href")) (str "href=" ++ dq ++ str "../") 0
       html).

(** Lines 385-387. *)
Definition epIndex (ep : Episode) (allEpisodes : list Episode) : Z :=
  findIndex (fun e => eqs (episode e) (episode ep)) allEpisodes.

Definition prevEp (ep : Episode) (allEpisodes : list Episode)
  : option Episode := index allEpisodes (epIndex ep allEpisodes + 1).

Definition nextEp (ep : Episode) (allEpisodes : list Episode)
  : option Episode := index allEpisodes (epIndex ep allEpisodes - 1).

Definition playerEmbed (ep : Episode) : jsstring :=
  if truthy (buzzsproutId ep) then
    literal T_player 0 ++ buzzsproutId ep
    ++ literal T_player 1 ++ escapeHtml (fullTitle ep)
    ++ literal T_player 2
  else literal T_audio 0 ++ audioUrl ep ++ literal T_audio 1.

Definition spanOf (class label text : jsstring) : jsstring :=
  if truthy text then
    str "<span class=" ++ dq ++ class ++ dq ++ str ">" ++ label ++ text
    ++ str "</span>"
  else [].

Definition noLink : jsstring := str "<span></span>".

(** Line 441. *)
Definition prevLink (p : option Episode) : jsstring :=
  match p with
  | Some e =>
      str "<a href=" ++ dq ++ episode e ++ str ".html" ++ dq
      ++ str " class=" ++ dq ++ str "episode-nav-link episode-nav-prev" ++ dq
      ++ str ">&larr; Episode " ++ episode e ++ str "</a>"
  | None => noLink
  end.

(** Line 443. *)
Definition nextLink (p : option Episode) : jsstring :=
  match p with
  | Some e =>
      str "<a href=" ++ dq ++ episode e ++ str ".html" ++ dq
      ++ str " class=" ++ dq ++ str "episode-nav-link episode-nav-next" ++ dq
      ++ str ">Episode " ++ episode e ++ str " &rarr;</a>"
  | None => noLink
  end.

(** [ep.description.replace(/^Send us a text/i, '')] (line 436). *)
Definition showNotes (ep : Episode) : jsstring :=
  match strip_prefix eq_ci fan_mail (description ep) with
  | Some r => r
  | None => description ep
  end.

(** The links between the detail pages (lines 440-444), from the show
    notes to the side bar. *)
Definition episodeNav (ep : Episode) (allEpisodes : list Episode)
  : jsstring :=
  literal T_detail 16 ++ prevLink (prevEp ep allEpisodes)
  ++ literal T_detail 17 ++ nextLink (nextEp ep allEpisodes)
  ++ literal T_detail 18.

(** The second parameter of the source, [episodes], is not read. *)
Definition generateEpisodePage (ep : Episode) (allEpisodes : list Episode)
  : jsstring :=
  literal T_detail 0 ++ escapeHtml (fullTitle ep)
  ++ literal T_detail 1 ++ escapeHtml (truncate (description ep) 160)
  ++ literal T_detail 2
  ++ escapeHtml (cleanDescription (stripHtml (fullTitle ep)))
  ++ literal T_detail 3 ++ escapeHtml (truncate (description ep) 160)
  ++ literal T_detail 4 ++ or_else (episodeImage ep) default_artwork
  ++ literal T_detail 5 ++ faviconHTML (str "../")
  ++ literal T_detail 6 ++ oneLevelUp (navHTML (str "episodes"))
  ++ literal T_detail 7 ++ formatDate (date ep)
  ++ literal T_detail 8 ++ numberPrefix ep ++ escapeHtml (title ep)
  ++ literal T_detail 9
  ++ spanOf (str "episode-duration") [] (duration ep)
  ++ literal T_detail 10
  ++ spanOf (str "episode-season") (str "Season ") (season ep)
  ++ literal T_detail 11
  ++ or_else (episodeImage ep) (str "../" ++ default_artwork)
  ++ literal T_detail 12 ++ escapeHtml (fullTitle ep)
  ++ literal T_detail 13 ++ playerEmbed ep
  ++ literal T_detail 14 ++ listenOnHTML
  ++ literal T_detail 15 ++ showNotes ep
  ++ episodeNav ep allEpisodes
  ++ replaceAll (str "href=" ++ dq ++ str "episodes/") (str "href=" ++ dq)
       (sidebarHTML allEpisodes)
  ++ literal T_detail 19 ++ oneLevelUp footerHTML
  ++ literal T_detail 20.

End Site.

(** ** The rest of the build (build.js, lines 21-37, 131-134, 502-531,
    588-593 and 601-617) *)

(** *** File names *)

(** [toLowerCase] as far as the pattern of [slugify] can tell: the only
    code units whose lower case holds a character of [a-z0-9] are the
    ASCII capitals, the Kelvin sign (lower case [k]) and the capital I
    with a dot above (lower case [i] and a combining dot); every other
    code unit outside [a-z0-9] has a lower case outside [a-z0-9], which
    the pattern replaces whatever it is. *)
Definition lowerVisible (c : N) : jsstring :=
  if in_range 65 90 c then [(c + 32)%N]
  else if (c =? 8490)%N then [107%N]
  else if (c =? 304)%N then [105%N; 775%N]
  else [c].

Definition is_slug_char (c : N) : bool := in_range 97 122 c || is_digit c.
Definition not_slug_char (c : N) : bool := negb (is_slug_char c).

Definition hyphen : N := 45.

(** The matcher of [[^a-z0-9]+]. *)
Definition nonslug_at (s : jsstring) : option nat :=
  match takeWhile not_slug_char s with
  | [] => None
  | run => Some (length run)
  end.

(** [.replace(/(^-|-$)/g, '')]: a hyphen at the start and a hyphen at the
    end are removed. *)
Definition dropFirstHyphen (s : jsstring) : jsstring :=
  match s with
  | c :: t => if (c =? hyphen)%N then t else s
  | [] => []
  end.

Definition trimHyphens (s : jsstring) : jsstring :=
  rev (dropFirstHyphen (rev (dropFirstHyphen s))).

(** [slugify(title, episode)]; the build calls it without the second
    argument ([None]). *)
Definition slugify (title : jsstring) (episode : option jsstring)
  : jsstring :=
  match episode with
  | Some (c :: e) => c :: e
  | _ =>
      trimHyphens
        (replaceG nonslug_at [hyphen] 0 (flat_map lowerVisible title))
  end.

(** The name of the page of an episode in the directory of the episode
    pages (line 589). *)
Definition pageFilename (ep : Episode) : jsstring :=
  or_else (episode ep) (slugify (title ep) None) ++ str ".html".

(** *** The feed source and the metadata of the podcast *)

Definition RSS_URL : jsstring := str "https://www.buzzsprout.com/2117363.rss".

Inductive feedSource : Type :=
  | FromFile (filePath : jsstring)
  | FromNetwork (url : jsstring).

(** [arr.indexOf(x)] on strings. *)
Fixpoint indexOf_from (x : jsstring) (l : list jsstring) (i : Z) : Z :=
  match l with
  | [] => (-1)%Z
  | y :: t => if eqs y x then i else indexOf_from x t (i + 1)%Z
  end.

Definition indexOf (x : jsstring) (l : list jsstring) : Z :=
  indexOf_from x l 0%Z.

(** Lines 508-517: the file that follows [--file] when there is one. *)
Definition chooseSource (argv : list jsstring) : feedSource :=
  let fileArg := indexOf (str "--file") argv in
  if negb (fileArg =? -1)%Z then
    match index argv (fileArg + 1)%Z with
    | Some (c :: p) => FromFile (c :: p)
    | _ => FromNetwork RSS_URL
    end
  else FromNetwork RSS_URL.

(** The matcher of [<channel>([\s\S]*?)<item>] (no flag). *)
Definition channel_at (s : jsstring) : option jsstring :=
  match strip_prefix N.eqb (str "<channel>") s with
  | Some r => option_map fst (lazy_until N.eqb (str "<item>") r)
  | None => None
  end.

Definition channelXml (rssContent : jsstring) : jsstring :=
  match search channel_at rssContent with
  | Some c => c
  | None => []
  end.

Definition defaultDescription : jsstring :=
  str "Stroke recovery is brutal. It takes discipline, obsession, and endless hours of work.".

(** Lines 525-531. *)
Definition podcastMetaOf (rssContent : jsstring) : PodcastMeta :=
  let ch := channelXml rssContent in
  {| metaTitle :=
       or_else (getCDATA (getTagContent ch (str "title")))
               (str "Survivor Science");
     metaDescription :=
       or_else (getCDATA (getTagContent ch (str "description")))
               defaultDescription;
     metaAuthor :=
       or_else (getTagContent ch (str "itunes:author")) (str "Will Schmierer");
     metaImage := or_else (getAttr ch (str "itunes:image") (str "href")) [];
     metaLink :=
       or_else (getTagContent ch (str "link"))
               (str "https://podcast.survivorscience.com") |}.

(** *** Fetching (lines 21-37 and 601-617)

    What the server at an address sends back: nothing (the connection
    fails), or a status, the Location header, and the chunks of the body
    ([complete] is false when the stream ends in an error).  The status
    is the integer of three digits that the parser of the reply reads
    from the status line, printed in a message with its digits. *)
Inductive reply : Type :=
  | NoConnection
  | Reply (statusCode : Z) (location : option jsstring)
          (chunks : list jsstring) (complete : bool).

(** How the promise of a fetch settles; [Pending] is a promise that has
    not settled after the number of requests that the model allows. *)
Inductive outcome : Type :=
  | Resolved (data : jsstring)
  | RejectedHttp (message : jsstring)
  | RejectedError
  | Pending.

Section Fetch.

(** The network: the reply to a GET of an address through the module
    [https] (flag [true]) or [http] (flag [false]). *)
Variable web : bool -> jsstring -> reply.

(** The message of the error of a status other than 200. *)
Variable message : Z -> jsstring -> jsstring.

(** [res.statusCode >= 300 && res.statusCode < 400 && res.headers.location]:
    the address to follow. *)
Definition redirectTarget (statusCode : Z) (location : option jsstring)
  : option jsstring :=
  if (300 <=? statusCode)%Z && (statusCode <? 400)%Z then
    match location with
    | Some (c :: l) => Some (c :: l)
    | _ => None
    end
  else None.

Fixpoint fetchWith (requests : nat) (url : jsstring) : outcome :=
  match requests with
  | O => Pending
  | S n =>
      match web (starts_with (str "https") url) url with
      | NoConnection => RejectedError
      | Reply statusCode location chunks complete =>
          match redirectTarget statusCode location with
          | Some target => fetchWith n target
          | None =>
              if negb (statusCode =? 200)%Z
              then RejectedHttp (message statusCode url)
              else if complete then Resolved (concat chunks)
                   else RejectedError
          end
      end
  end.

End Fetch.

Definition fetchURL (web : bool -> jsstring -> reply) (requests : nat)
  (url : jsstring) : outcome :=
  fetchWith web
    (fun statusCode u => str "HTTP " ++ showZ statusCode ++ str " from " ++ u)
    requests url.

Definition fetchBinary (web : bool -> jsstring -> reply) (requests : nat)
  (url : jsstring) : outcome :=
  fetchWith web (fun statusCode _ => str "HTTP " ++ showZ statusCode)
    requests url.

(** ** Notions of the statements *)

(** What [escapeHtml] makes of one character. *)
Definition escapeChar (c : N) : jsstring :=
  if (c =? c_amp)%N then str "&amp;"
  else if (c =? c_lt)%N then str "&lt;"
  else if (c =? c_gt)%N then str "&gt;"
  else if (c =? c_dq)%N then str "&quot;"
  else [c].

(** A cut of [plain] after its first [k] characters is inside a word when
    the characters on both sides of it are no white space. *)
Definition mid_word_cut (plain : jsstring) (k : nat) : bool :=
  match k with
  | O => false
  | S j =>
      match nth_error plain j, nth_error plain k with
      | Some a, Some b => negb (is_space a) && negb (is_space b)
      | _, _ => false
      end
  end.

(** The order of the Numbers other than NaN. *)
Definition numLt (x y : number) : Prop :=
  match x, y with
  | Fin a, Fin b => (a < b)%Z
  | Fin _, Inf n => n = false
  | Inf m, Fin _ => m = true
  | Inf m, Inf n => m = true /\ n = false
  | _, _ => False
  end.

(** The order of the numbers alone: the second is not the greater. *)
Definition byNumber (a b : Episode) : Prop := ~ numLt (epNum a) (epNum b).

(** The order of the numbers, and of the dates among equal numbers. *)
Definition byNumberThenDate (a b : Episode) : Prop :=
  numLt (epNum b) (epNum a)
  \/ (epNum a = epNum b
      /\ forall ta tb, date a = Some ta -> date b = Some tb -> (tb <= ta)%Z).

(** The order of the numbers, and of the dates among the episodes with
    the number [n]. *)
Definition byNumberThenDateAt (n : number) (a b : Episode) : Prop :=
  numLt (epNum b) (epNum a)
  \/ (epNum a = epNum b
      /\ (epNum a = n ->
          forall ta tb, date a = Some ta -> date b = Some tb -> (tb <= ta)%Z)).

Definition validDate (e : Episode) : Prop := date e <> None.

(** The publish date of an episode is valid if its number is [n]. *)
Definition validAt (n : number) (e : Episode) : Prop :=
  epNum e = n -> validDate e.

(** The episode before index [i], when there is one. *)
Definition newer (all : list Episode) (i : nat) : option Episode :=
  match i with
  | O => None
  | S j => nth_error all j
  end.



(** [o] is the literal [p] up to the case of its letters. *)
Definition same_ci (p o : jsstring) : Prop :=
  Forall2 (fun a c => eq_ci a c = true) p o.

(** No match of the item pattern starts inside [a] when [rest] follows. *)
Definition no_item_in (a rest : jsstring) : Prop :=
  forall i, i < length a -> item_at (skipn i (a ++ rest)) = None.

(** No opening tag [<item>] starts inside [a] when [rest] follows. *)
Definition no_open_in (a rest : jsstring) : Prop :=
  forall i, i < length a ->
            strip_prefix eq_ci item_open (skipn i (a ++ rest)) = None.

(** No closing tag [</item>] starts inside [a] when [rest] follows. *)
Definition no_close_in (a rest : jsstring) : Prop :=
  forall i, i < length a ->
            strip_prefix eq_ci item_close (skipn i (a ++ rest)) = None.

(** *** Sample data of the examples *)

(** An episode that has only a number and a valid publish date. *)
Definition episodeOf (number : string) (time : Z) : Episode :=
  {| title := []; fullTitle := []; description := []; summary := [];
     pubDate := []; date := Some time; duration := []; durationRaw := [];
     episode := str number; season := str "1"; explicit := false;
     audioUrl := []; episodeImage := []; buzzsproutId := []; guid := [] |}.

(** An episode that has a number and a publish date that does not parse. *)
Definition undatedEpisode (number : string) : Episode :=
  {| title := []; fullTitle := []; description := []; summary := [];
     pubDate := []; date := None; duration := []; durationRaw := [];
     episode := str number; season := str "1"; explicit := false;
     audioUrl := []; episodeImage := []; buzzsproutId := []; guid := [] |}.

Definition datedEpisodes : list Episode :=
  [episodeOf "2" 50; episodeOf "10" 10; episodeOf "2" 70].

Definition tiedEpisodes : list Episode :=
  [episodeOf "5" 1; undatedEpisode "5"; episodeOf "5" 2].

(** Two episodes with the number 2 and valid dates, and one with another
    number whose date does not parse. *)
Definition partlyDatedEpisodes : list Episode :=
  [episodeOf "2" 50; undatedEpisode "10"; episodeOf "2" 70].

(** Two number fields that differ beyond the precision of a Number. *)
Definition roundedEpisodes : list Episode :=
  [episodeOf "9007199254740993" 1; episodeOf "9007199254740992" 2].

Definition threeEpisodes : list Episode :=
  [episodeOf "3" 30; episodeOf "2" 20; episodeOf "1" 10].

Definition sevenEpisodes : list Episode :=
  [episodeOf "7" 7; episodeOf "6" 6; episodeOf "5" 5; episodeOf "4" 4;
   episodeOf "3" 3; episodeOf "2" 2; episodeOf "1" 1].

(** The item of the specification: a number in the title only. *)
Definition recoveryTalkItem : jsstring :=
  str "<title>42. Recovery Talk</title><guid>g</guid>".

(** An item with a number of its own and none in the title. *)
Definition numberedItem : jsstring :=
  str "<title>Intro</title><itunes:episode>9</itunes:episode>".

(** An item with the tags in the order of the sample feed of Apple's
    guide for podcasts: the type of the episode before its number. *)
Definition episodeTypeItem : jsstring :=
  str "<title>Mt. Hood</title>"
  ++ str "<itunes:episodeType>full</itunes:episodeType>"
  ++ str "<itunes:episode>4</itunes:episode>".

(** An item with the type of the episode and without a number. *)
Definition typeOnlyItem : jsstring :=
  str "<title>12. Bonus</title>"
  ++ str "<itunes:episodeType>bonus</itunes:episodeType>".

(** The episode of an item without a number: a trailer. *)
Definition trailerEpisode : Episode :=
  {| title := str "Trailer"; fullTitle := str "Trailer"; description := [];
     summary := []; pubDate := []; date := Some 5%Z; duration := [];
     durationRaw := []; episode := []; season := str "1"; explicit := false;
     audioUrl := []; episodeImage := []; buzzsproutId := []; guid := [] |}.

(** Two numbered episodes and the trailer, as the sort leaves them. *)
Definition withTrailer : list Episode :=
  [episodeOf "2" 20; episodeOf "1" 10; trailerEpisode].

(** An item whose title carries markup in a CDATA section. *)
Definition markupTitleItem : jsstring :=
  str "<title><![CDATA[<b>Hi</b>]]></title><itunes:episode>7</itunes:episode>".

(** *** Notions of the further properties *)

(** The removal of the markup tags, the first step of [stripHtml] and the
    second branch of [getCDATA]. *)
Definition stripTags (text : jsstring) : jsstring :=
  replaceG markup_at [] 0 text.

(** No markup tag starts anywhere in [o]. *)
Definition tagfree (o : jsstring) : Prop :=
  forall i, markup_at (skipn i o) = None.

(** No match of the literal [p] (compared with [eqc]) starts inside [a]
    when [rest] follows. *)
Definition none_in (eqc : N -> N -> bool) (p a rest : jsstring) : Prop :=
  forall i, i < length a -> strip_prefix eqc p (skipn i (a ++ rest)) = None.

(** No match of the literal [p] starts anywhere in [s]. *)
Definition nowhere (eqc : N -> N -> bool) (p s : jsstring) : Prop :=
  forall i, strip_prefix eqc p (skipn i s) = None.

(** The first character of a string is no white space, and neither is
    the last. *)
Definition trimmed (s : jsstring) : Prop :=
  (forall c t, s = c :: t -> is_space c = false)
  /\ (forall c t, s = t ++ [c] -> is_space c = false).


(** A network of three addresses: the first two redirect, the third
    answers. *)
Definition sampleWeb (secure : bool) (url : jsstring) : reply :=
  if eqs url (str "https://a/feed") then
    Reply 301 (Some (str "https://b/feed")) [] true
  else if eqs url (str "https://b/feed") then
    Reply 302 (Some (str "http://c/feed")) [] true
  else if eqs url (str "http://c/feed") then
    Reply 200 None [str "<rss>"; str "</rss>"] true
  else if eqs url (str "https://a/loop") then
    Reply 307 (Some (str "https://a/loop")) [] true
  else Reply 404 None [] true.

(** What the steps of [stripHtml] have made of an escaped character: the
    flags tell which of the three entities are still to be decoded. *)
Definition entityToken (l g q : bool) (c : N) : jsstring :=
  if (c =? c_lt)%N then (if l then str "&lt;" else [c_lt])
  else if (c =? c_gt)%N then (if g then str "&gt;" else [c_gt])
  else if (c =? c_dq)%N then (if q then str "&quot;" else [c_dq])
  else [c].

(** The replacement of the runs of other characters by one hyphen each,
    as a scan that remembers whether it is inside a run. *)
Fixpoint collapse (inrun : bool) (s : jsstring) : jsstring :=
  match s with
  | [] => []
  | c :: t =>
      if is_slug_char c then c :: collapse false t
      else if inrun then collapse true t
           else hyphen :: collapse true t
  end.

(** The characters of a file name. *)
Definition slug_ok (c : N) : Prop := is_slug_char c = true \/ c = hyphen.

(** No two hyphens in a row; [prev] tells whether a hyphen stands before. *)
Fixpoint spaced (prev : bool) (o : jsstring) : bool :=
  match o with
  | [] => true
  | c :: t =>
      if (c =? hyphen)%N then negb prev && spaced true t else spaced false t
  end.

(** No two hyphens in a row, no hyphen at the start, none at the end. *)
Definition no_pair (o : jsstring) : Prop :=
  forall p q, o <> p ++ hyphen :: hyphen :: q.
Definition no_first (o : jsstring) : Prop := forall t, o <> hyphen :: t.
Definition no_last (o : jsstring) : Prop := forall t, o <> t ++ [hyphen].

Unset Implicit Arguments.

(** * Properties *)

(** ** Numbers *)

Lemma pow2_pos (k : Z) : (0 < pow2 k)%Z.
Proof. unfold pow2. apply Z.pow_pos_nonneg; lia. Qed.

Lemma pow2_nonneg (k : Z) : (0 <= k)%Z -> pow2 k = (2 ^ k)%Z.
Proof. intro H. unfold pow2. rewrite Z.max_r by lia. reflexivity. Qed.

Lemma pow2_nonpos (k : Z) : (k <= 0)%Z -> pow2 k = 1%Z.
Proof. intro H. unfold pow2. rewrite Z.max_l by lia. reflexivity. Qed.

(** The exponent of [nearest] for the divisor 1 is that of the dividend. *)
Lemma nearest_one (a : Z) :
  (0 < a)%Z ->
  let e := (Z.log2 a - 52)%Z in
  let num := (a * pow2 (- e))%Z in
  let den := pow2 e in
  let q := (num / den)%Z in
  let r := (num mod den)%Z in
  nearest a 1
  = (if (2 * r <? den)%Z then q
     else if (den <? 2 * r)%Z then (q + 1)%Z
     else if Z.even q then q else (q + 1)%Z, e).
Proof.
  intros Ha. unfold nearest. change (Z.log2 1) with 0%Z.
  rewrite Z.sub_0_r.
  pose proof (Z.log2_nonneg a) as Hl.
  destruct (Z.log2_spec a Ha) as [Hlo _].
  rewrite (pow2_nonneg _ Hl), (pow2_nonpos (- Z.log2 a)) by lia.
  assert (E : (1 * 2 ^ Z.log2 a <=? a * 1)%Z = true) by (apply Z.leb_le; lia).
  rewrite E. cbv zeta. rewrite !Z.mul_1_l. reflexivity.
Qed.

Lemma toNumber_safe (z : Z) :
  (Z.abs z < 2 ^ 53)%Z -> toNumber z = Fin z.
Proof.
  intro Hz. unfold toNumber.
  destruct (z =? 0)%Z eqn:E0; [apply Z.eqb_eq in E0; subst; reflexivity|].
  apply Z.eqb_neq in E0.
  assert (Ha : (0 < Z.abs z)%Z) by lia.
  rewrite (nearest_one _ Ha). cbv zeta.
  set (a := Z.abs z) in *.
  assert (Hl : (Z.log2 a < 53)%Z) by (apply Z.log2_lt_pow2; lia).
  pose proof (Z.log2_nonneg a) as Hl0.
  rewrite (pow2_nonpos (Z.log2 a - 52)) by lia.
  rewrite Z.div_1_r, Z.mod_1_r.
  change (2 * 0 <? 1)%Z with true. cbv iota.
  unfold floorOf. rewrite (pow2_nonpos (Z.log2 a - 52)) by lia.
  rewrite Z.mul_1_l, Z.mul_1_r.
  rewrite Z.div_mul by (pose proof (pow2_pos (- (Z.log2 a - 52))); lia).
  assert (Ho : (overflow <=? a)%Z = false).
  { apply Z.leb_gt. unfold overflow.
    apply Z.lt_trans with (2 ^ 53)%Z; [exact Hz|].
    apply Z.pow_lt_mono_r; lia. }
  rewrite Ho. f_equal. unfold a. lia.
Qed.

(** The value that [toNumber] gives a positive integer: the integer
    itself below 2^53, and a multiple of a power of 2 from there on. *)
Lemma nearest_one_value (a : Z) :
  (0 < a)%Z ->
  let v := floorOf 1 (nearest a 1) in
  (a < 2 ^ 53 -> v = a)%Z /\ (2 ^ 53 <= a -> 2 ^ 53 <= v)%Z /\ (0 < v)%Z.
Proof.
  intros Ha v.
  assert (Hsafe : (a < 2 ^ 53 -> v = a)%Z).
  { intro H. pose proof (toNumber_safe a) as Hs. unfold toNumber in Hs.
    assert (E0 : (a =? 0)%Z = false) by (apply Z.eqb_neq; lia).
    rewrite E0, Z.abs_eq in Hs by lia. fold v in Hs. cbv zeta in Hs.
    specialize (Hs ltac:(lia)).
    destruct (overflow <=? v)%Z; [discriminate|].
    injection Hs as Hs. rewrite Z.sgn_pos in Hs by lia. lia. }
  assert (Hbig : (2 ^ 53 <= a -> 2 ^ 53 <= v)%Z).
  { intro H. unfold v. rewrite (nearest_one _ Ha). cbv zeta.
    assert (Hl : (53 <= Z.log2 a)%Z) by (apply Z.log2_le_pow2; lia).
    destruct (Z.log2_spec a Ha) as [Hlo _].
    set (e := (Z.log2 a - 52)%Z) in *.
    rewrite (pow2_nonpos (- e)), (pow2_nonneg e) by lia.
    rewrite Z.mul_1_r.
    assert (He : (2 <= 2 ^ e)%Z).
    { change 2%Z with (2 ^ 1)%Z at 1. apply Z.pow_le_mono_r; lia. }
    assert (Hq : (2 ^ 52 <= a / 2 ^ e)%Z).
    { apply Z.div_le_lower_bound; [lia|].
      replace (Z.log2 a) with (e + 52)%Z in Hlo by (unfold e; lia).
      rewrite Z.pow_add_r in Hlo by lia. lia. }
    unfold floorOf. rewrite (pow2_nonpos (- e)), (pow2_nonneg e) by lia.
    rewrite Z.div_1_r, Z.mul_1_l.
    set (q := (a / 2 ^ e)%Z) in *.
    assert (Hm : forall m, (q <= m)%Z -> (2 ^ 53 <= m * 2 ^ e)%Z).
    { intros m Hm. change (2 ^ 53)%Z with (2 ^ 52 * 2)%Z. nia. }
    destruct (2 * (a mod 2 ^ e) <? 2 ^ e)%Z; [apply Hm; lia|].
    destruct (2 ^ e <? 2 * (a mod 2 ^ e))%Z; [apply Hm; lia|].
    destruct (Z.even q); apply Hm; lia. }
  split; [exact Hsafe|]. split; [exact Hbig|].
  destruct (Z.lt_ge_cases a (2 ^ 53)) as [H|H].
  - rewrite (Hsafe H). exact Ha.
  - specialize (Hbig H). lia.
Qed.

(** The mantissa of [nearest] is normalised: the quotient before rounding
    is at least 2^52. *)
Lemma nearest_normal (a d : Z) :
  (0 < a)%Z -> (0 < d)%Z ->
  exists e q r m,
    nearest a d = (m, e)
    /\ (a * pow2 (- e) = q * (d * pow2 e) + r)%Z
    /\ (0 <= r < d * pow2 e)%Z
    /\ (2 ^ 52 * (d * pow2 e) <= a * pow2 (- e))%Z
    /\ ((m = q /\ 2 * r <= d * pow2 e) \/ (m = q + 1 /\ d * pow2 e <= 2 * r))%Z
    /\ (Z.log2 a - Z.log2 d - 53 <= e)%Z.
Proof.
  intros Ha Hd. unfold nearest.
  set (x := (Z.log2 a - Z.log2 d)%Z).
  set (t := if (d * pow2 x <=? a * pow2 (- x))%Z then x else (x - 1)%Z).
  cbv zeta.
  set (e := (t - 52)%Z).
  set (num := (a * pow2 (- e))%Z).
  set (den := (d * pow2 e)%Z).
  assert (Hden : (0 < den)%Z).
  { unfold den. pose proof (pow2_pos e). nia. }
  exists e, (num / den)%Z, (num mod den)%Z.
  eexists. split; [reflexivity|].
  split; [rewrite (Z.mul_comm (num / den)); apply Z.div_mod; lia|].
  split; [apply Z.mod_pos_bound; exact Hden|].
  assert (Hxt : (x - 1 <= t)%Z).
  { unfold t. destruct (d * pow2 x <=? a * pow2 (- x))%Z; lia. }
  split; [|split; [|unfold e, x in *; lia]].
  - (* the exponent [t] is not above the quotient *)
    assert (Ht : (d * pow2 t <= a * pow2 (- t))%Z).
    { unfold t. destruct (d * pow2 x <=? a * pow2 (- x))%Z eqn:E.
      - apply Z.leb_le in E. exact E.
      - destruct (Z.log2_spec a Ha) as [Hlo _].
        destruct (Z.log2_spec d Hd) as [_ Hhi].
        pose proof (Z.log2_nonneg a). pose proof (Z.log2_nonneg d).
        destruct (Z.le_gt_cases 1 x) as [Hx|Hx].
        + rewrite (pow2_nonneg (x - 1)), (pow2_nonpos (- (x - 1))) by lia.
          assert (Z.log2 a = Z.succ (Z.log2 d) + (x - 1))%Z by (unfold x; lia).
          rewrite H1 in Hlo. rewrite Z.pow_add_r in Hlo by lia.
          pose proof (Z.pow_pos_nonneg 2 (x - 1) ltac:(lia) ltac:(lia)).
          nia.
        + rewrite (pow2_nonpos (x - 1)), (pow2_nonneg (- (x - 1))) by lia.
          assert (Z.succ (Z.log2 d) = Z.log2 a + (- (x - 1)))%Z
            by (unfold x; lia).
          rewrite H1 in Hhi. rewrite Z.pow_add_r in Hhi by lia.
          pose proof (Z.pow_pos_nonneg 2 (- (x - 1)) ltac:(lia) ltac:(lia)).
          nia. }
    unfold num, den, e. clearbody t. clear - Ht Ha Hd.
    destruct (Z.le_gt_cases 52 t) as [H|H].
    + rewrite (pow2_nonneg (t - 52)), (pow2_nonpos (- (t - 52))) by lia.
      rewrite (pow2_nonneg t), (pow2_nonpos (- t)) in Ht by lia.
      replace t with (52 + (t - 52))%Z in Ht at 1 by lia.
      rewrite Z.pow_add_r in Ht by lia. lia.
    + rewrite (pow2_nonpos (t - 52)), (pow2_nonneg (- (t - 52))) by lia.
      destruct (Z.le_gt_cases 0 t) as [H0|H0].
      * rewrite (pow2_nonneg t), (pow2_nonpos (- t)) in Ht by lia.
        replace 52%Z with (t + (- (t - 52)))%Z at 1 by lia.
        rewrite Z.pow_add_r by lia.
        pose proof (Z.pow_pos_nonneg 2 (- (t - 52)) ltac:(lia) ltac:(lia)).
        nia.
      * rewrite (pow2_nonpos t), (pow2_nonneg (- t)) in Ht by lia.
        replace (- (t - 52))%Z with (- t + 52)%Z by lia.
        rewrite Z.pow_add_r by lia. nia.
  - pose proof (Z.mod_pos_bound num den Hden) as Hr.
    destruct (2 * (num mod den) <? den)%Z eqn:E1.
    { apply Z.ltb_lt in E1. left. split; [reflexivity|lia]. }
    apply Z.ltb_ge in E1.
    destruct (den <? 2 * (num mod den))%Z eqn:E2.
    { right. split; [reflexivity|lia]. }
    apply Z.ltb_ge in E2.
    destruct (Z.even (num / den)).
    + left. split; [reflexivity|lia].
    + right. split; [reflexivity|lia].
Qed.

(** Below 2^53 the floor of the rounded quotient is the floor of the
    quotient: the rounding of a division cannot reach the next integer. *)
Lemma floorOf_nearest_pos (a d : Z) :
  (0 < a < 2 ^ 53)%Z -> (0 < d)%Z ->
  floorOf 1 (nearest a d) = (a / d)%Z
  /\ floorOf (-1) (nearest a d) = (- a / d)%Z.
Proof.
  intros Ha Hd.
  destruct (nearest_normal a d ltac:(lia) Hd)
    as [e [q [r [m [-> [Hqr [Hr [Hn [Hm _]]]]]]]]].
  unfold floorOf.
  destruct (Z.le_gt_cases 1 e) as [He|He].
  { (* the quotient would be 2^53 at least *)
    exfalso. rewrite (pow2_nonneg e), (pow2_nonpos (- e)) in Hn by lia.
    assert (2 <= 2 ^ e)%Z.
    { change 2%Z with (2 ^ 1)%Z at 1. apply Z.pow_le_mono_r; lia. }
    change (2 ^ 53)%Z with (2 ^ 52 * 2)%Z in Ha. nia. }
  rewrite (pow2_nonpos e) in * by lia.
  set (P := pow2 (- e)) in *.
  pose proof (pow2_pos (- e)) as HP. fold P in HP.
  rewrite !Z.mul_1_r in *.
  assert (HdP : (d < 2 * P)%Z).
  { change (2 ^ 53)%Z with (2 ^ 52 * 2)%Z in Ha. nia. }
  pose proof (Z.div_mod a d ltac:(lia)) as Hk.
  pose proof (Z.mod_pos_bound a d Hd) as Hrho.
  set (k := (a / d)%Z) in *. set (rho := (a mod d)%Z) in *.
  assert (HaP : (a * P = d * (k * P) + rho * P)%Z) by (rewrite Hk at 1; ring).
  assert (HrP : (rho * P <= (d - 1) * P)%Z)
    by (apply Z.mul_le_mono_nonneg_r; lia).
  assert (Hq : (k * P <= q)%Z).
  { assert (0 <= rho * P)%Z by (apply Z.mul_nonneg_nonneg; lia).
    assert (d * (k * P) < d * (q + 1))%Z
      by (replace (d * (q + 1))%Z with (q * d + d)%Z by ring; lia).
    apply Z.mul_lt_mono_pos_l in H0; lia. }
  assert (Hlow : (k * P <= m)%Z) by lia.
  assert (Hup : (m < (k + 1) * P)%Z).
  { apply (Z.mul_lt_mono_pos_l (2 * d)); [lia|].
    replace (2 * d * ((k + 1) * P))%Z
      with (2 * (d * (k * P)) + 2 * ((d - 1) * P) + 2 * P)%Z by ring.
    destruct Hm as [[-> H2]|[-> H2]].
    - replace (2 * d * q)%Z with (2 * (q * d))%Z by ring. lia.
    - replace (2 * d * (q + 1))%Z with (2 * (q * d) + 2 * d)%Z by ring. lia. }
  split.
  - rewrite Z.mul_1_l. symmetry. apply Z.div_unique with (m - k * P)%Z; lia.
  - replace (-1 * m)%Z with (- m)%Z by lia.
    destruct (Z.eq_dec rho 0) as [H0|H0].
    + assert (Hm0 : m = (k * P)%Z).
      { assert (r = 0 /\ q = k * P)%Z as [-> ->] by nia.
        destruct Hm as [[-> _]|[_ H2]]; lia. }
      rewrite Hm0.
      assert (Ha0 : (- a = - k * d)%Z) by lia.
      rewrite Ha0, Z.div_mul by lia.
      replace (- (k * P))%Z with (- k * P)%Z by lia.
      apply Z.div_mul. lia.
    + assert (Hst : (k * P < m)%Z).
      { assert (P <= rho * P)%Z by nia.
        apply (Z.mul_lt_mono_pos_l (2 * d)); [lia|].
        destruct Hm as [[-> H2]|[-> H2]].
        - replace (2 * d * q)%Z with (2 * (q * d))%Z by ring.
          replace (2 * d * (k * P))%Z with (2 * (d * (k * P)))%Z by ring. lia.
        - replace (2 * d * (q + 1))%Z with (2 * (q * d) + 2 * d)%Z by ring.
          replace (2 * d * (k * P))%Z with (2 * (d * (k * P)))%Z by ring. lia. }
      assert (E1 : (- m / P = - (k + 1))%Z).
      { symmetry. apply Z.div_unique with ((k + 1) * P - m)%Z; lia. }
      assert (E2 : (- a / d = - (k + 1))%Z).
      { symmetry. apply Z.div_unique with (d - rho)%Z; lia. }
      rewrite E1, E2. reflexivity.
Qed.

Lemma floorDiv_safe (z d : Z) :
  (Z.abs z < 2 ^ 53)%Z -> (0 < d)%Z -> floorDiv (Fin z) d = Fin (z / d).
Proof.
  intros Hz Hd. unfold floorDiv.
  destruct (z =? 0)%Z eqn:E0; [apply Z.eqb_eq in E0; subst; reflexivity|].
  apply Z.eqb_neq in E0. f_equal.
  destruct (floorOf_nearest_pos (Z.abs z) d ltac:(lia) Hd) as [Hp Hn].
  destruct (Z.lt_trichotomy z 0) as [H|[H|H]]; [|lia|].
  - rewrite Z.sgn_neg by lia. rewrite Hn, Z.abs_neq by lia.
    rewrite Z.opp_involutive. reflexivity.
  - rewrite Z.sgn_pos by lia. rewrite Hp, Z.abs_eq by lia. reflexivity.
Qed.

(** The floor of a quotient is positive exactly from the divisor on,
    whatever the rounding. *)
Lemma gtZero_floorDiv (n d : Z) :
  (0 < d < 2 ^ 53)%Z -> gtZero (floorDiv (Fin n) d) = (d <=? n)%Z.
Proof.
  intro Hd.
  destruct (Z.lt_ge_cases (Z.abs n) (2 ^ 53)) as [Hn|Hn].
  { rewrite (floorDiv_safe n d Hn) by lia. cbn [gtZero].
    destruct (d <=? n)%Z eqn:E.
    - apply Z.leb_le in E. apply Z.ltb_lt. apply Z.div_str_pos. lia.
    - apply Z.leb_gt in E. apply Z.ltb_ge.
      destruct (Z.lt_ge_cases n 0) as [H|H].
      + assert (n / d < 0)%Z by (apply Z.div_lt_upper_bound; lia). lia.
      + rewrite Z.div_small by lia. lia. }
  assert (Hd53 : (d < 2 ^ 53)%Z) by lia.
  assert (Hld : (Z.log2 d < 53)%Z) by (apply Z.log2_lt_pow2; lia).
  unfold floorDiv.
  assert (E0 : (n =? 0)%Z = false).
  { apply Z.eqb_neq. intros ->. change (Z.abs 0) with 0%Z in Hn.
    assert (0 < 2 ^ 53)%Z by reflexivity. lia. }
  rewrite E0. cbn [gtZero].
  assert (Ha : (0 < Z.abs n)%Z)
    by (assert (0 < 2 ^ 53)%Z by reflexivity; lia).
  destruct (nearest_normal (Z.abs n) d Ha ltac:(lia))
    as [e [q [r [m [-> [Hqr [Hr [Hnorm [Hm He]]]]]]]]].
  assert (Hla : (53 <= Z.log2 (Z.abs n))%Z) by (apply Z.log2_le_pow2; lia).
  pose proof (pow2_pos e) as Pe. pose proof (pow2_pos (- e)) as Pne.
  assert (Hq : (2 ^ 52 <= q)%Z).
  { assert (2 ^ 52 * (d * pow2 e) < (q + 1) * (d * pow2 e))%Z by lia.
    assert (0 < d * pow2 e)%Z by nia.
    apply Z.mul_lt_mono_pos_r in H; lia. }
  assert (Hmq : (q <= m)%Z) by (destruct Hm as [[-> _]|[-> _]]; lia).
  assert (Hfloor : (0 < (m * pow2 e) / pow2 (- e))%Z).
  { apply Z.div_str_pos. split; [exact Pne|].
    destruct (Z.le_gt_cases 0 e) as [H|H].
    - rewrite (pow2_nonpos (- e)) by lia.
      assert (0 < 2 ^ 52)%Z by reflexivity. nia.
    - rewrite (pow2_nonpos e), (pow2_nonneg (- e)) by lia.
      assert (2 ^ (- e) <= 2 ^ 52)%Z by (apply Z.pow_le_mono_r; lia).
      lia. }
  unfold floorOf.
  destruct (Z.lt_trichotomy n 0) as [H|[H|H]]; [|lia|].
  - rewrite Z.sgn_neg by lia.
    assert (E : (d <=? n)%Z = false) by (apply Z.leb_gt; lia).
    rewrite E. apply Z.ltb_ge.
    assert (-1 * m * pow2 e / pow2 (- e) < 1)%Z; [|lia].
    apply Z.div_lt_upper_bound; [exact Pne|].
    assert (0 <= m * pow2 e)%Z by nia. lia.
  - rewrite Z.sgn_pos by lia.
    assert (E : (d <=? n)%Z = true) by (apply Z.leb_le; lia).
    rewrite E. apply Z.ltb_lt.
    replace (1 * m * pow2 e)%Z with (m * pow2 e)%Z by lia. exact Hfloor.
Qed.

Lemma toNumber_pos (a : Z) :
  (0 < a)%Z ->
  (a < 2 ^ 53 -> toNumber a = Fin a)%Z
  /\ (2 ^ 53 <= a ->
      toNumber a = Inf false
      \/ exists v, toNumber a = Fin v /\ 2 ^ 53 <= v)%Z.
Proof.
  intro Ha. split.
  - intro H. apply toNumber_safe. lia.
  - intro H. unfold toNumber.
    assert (E0 : (a =? 0)%Z = false) by (apply Z.eqb_neq; lia).
    rewrite E0, Z.abs_eq by lia.
    destruct (nearest_one_value a Ha) as [_ [Hbig _]]. specialize (Hbig H).
    cbv zeta.
    destruct (overflow <=? floorOf 1 (nearest a 1))%Z.
    + left. f_equal. apply Z.ltb_ge. lia.
    + right. eexists. split; [reflexivity|]. rewrite Z.sgn_pos by lia. lia.
Qed.

(** A safe integer is its own shortest decimal representation. *)
Lemma shortest_from_safe (z : Z) (j : nat) :
  (0 <= z < 2 ^ 53)%Z -> shortest_from z j = z.
Proof.
  intro Hz. induction j as [|j IH].
  - cbn [shortest_from]. change (10 ^ Z.of_nat 0)%Z with 1%Z.
    rewrite Z.div_1_r, Z.mul_1_r.
    rewrite (toNumber_safe z) by lia. rewrite Z.eqb_refl.
    destruct (match toNumber (z + 1) with
              | Fin w => (w =? z)%Z | _ => false end); [|reflexivity].
    replace (z - z <? z + 1 - z)%Z with true; [reflexivity|].
    symmetry. apply Z.ltb_lt. lia.
  - cbn [shortest_from].
    set (p := (10 ^ Z.of_nat (S j))%Z).
    assert (Hp : (0 < p)%Z) by (apply Z.pow_pos_nonneg; lia).
    pose proof (Z.div_mod z p ltac:(lia)) as Hd.
    pose proof (Z.mod_pos_bound z p Hp) as Hm.
    assert (Hq : (0 <= z / p)%Z) by (apply Z.div_pos; lia).
    set (lo := (z / p * p)%Z).
    assert (Hlo : (0 <= lo <= z)%Z) by (unfold lo; nia).
    assert (Hhi : (z < lo + p)%Z) by (unfold lo; nia).
    rewrite (toNumber_safe lo) by lia.
    assert (Ehi : match toNumber (lo + p) with
                  | Fin w => (w =? z)%Z | _ => false end = false).
    { destruct (toNumber_pos (lo + p) ltac:(lia)) as [H1 H2].
      destruct (Z.lt_ge_cases (lo + p) (2 ^ 53)) as [H|H].
      - rewrite (H1 H). apply Z.eqb_neq. lia.
      - destruct (H2 H) as [->|[v [-> Hv]]]; [reflexivity|].
        apply Z.eqb_neq. lia. }
    rewrite Ehi.
    destruct (lo =? z)%Z eqn:E; [apply Z.eqb_eq in E; exact E|exact IH].
Qed.

Lemma showZ_neg (p : BinNums.positive) :
  showZ (Z.neg p) = (str "-" ++ showZ (Z.pos p))%list.
Proof. reflexivity. Qed.

Lemma showPositive_safe (z : Z) :
  (0 <= z < 2 ^ 53)%Z -> showPositive z = showZ z.
Proof.
  intro Hz. unfold showPositive, shortest.
  rewrite (shortest_from_safe z _ Hz). cbv zeta.
  assert (E : (z <? 10 ^ 21)%Z = true).
  { apply Z.ltb_lt. apply Z.lt_trans with (2 ^ 53)%Z; [lia|reflexivity]. }
  rewrite E. reflexivity.
Qed.

Lemma numberToString_safe (z : Z) :
  (Z.abs z < 2 ^ 53)%Z -> numberToString (Fin z) = showZ z.
Proof.
  intro Hz. cbn [numberToString].
  destruct z as [|p|p].
  - reflexivity.
  - change (Z.pos p <? 0)%Z with false. cbv iota.
    apply showPositive_safe. lia.
  - change (Z.neg p <? 0)%Z with true. cbv iota.
    rewrite showZ_neg. f_equal. change (- Z.neg p)%Z with (Z.pos p).
    apply showPositive_safe. lia.
Qed.

(** ** Text utilities *)

Lemma replaceAll_char (c : N) (rep s : jsstring) :
  replaceAll [c] rep s = flat_map (fun x => if (x =? c)%N then rep else [x]) s.
Proof.
  unfold replaceAll.
  induction s as [|a s IH]; [reflexivity|].
  cbn [replaceG flat_map]. unfold lit_at at 1. cbn [strip_prefix].
  rewrite (N.eqb_sym c a).
  destruct (a =? c)%N; cbn [length]; rewrite IH; reflexivity.
Qed.

Lemma flat_map_twice (A B C : Type) (f : B -> list C) (g : A -> list B)
  (l : list A) :
  flat_map f (flat_map g l) = flat_map (fun x => flat_map f (g x)) l.
Proof.
  induction l as [|a l IH]; [reflexivity|].
  cbn [flat_map]. rewrite flat_map_app, IH. reflexivity.
Qed.

Lemma escapeHtml_chars (text : jsstring) :
  escapeHtml text = flat_map escapeChar text.
Proof.
  unfold escapeHtml. rewrite !replaceAll_char, !flat_map_twice.
  apply flat_map_ext. intro c. unfold escapeChar.
  destruct (c =? c_amp)%N eqn:Ea; [reflexivity|].
  cbn [flat_map]. rewrite !app_nil_r.
  destruct (c =? c_lt)%N eqn:El; [reflexivity|].
  cbn [flat_map]. rewrite !app_nil_r.
  destruct (c =? c_gt)%N eqn:Eg; [reflexivity|].
  cbn [flat_map]. rewrite !app_nil_r. 
  destruct (c =? c_dq)%N eqn:Eq; reflexivity.
Qed.

Lemma escapeChar_clean (c x : N) :
  In x (escapeChar c) -> x <> c_lt /\ x <> c_gt /\ x <> c_dq.
Proof.
  unfold escapeChar.
  destruct (c =? c_amp)%N eqn:Ea.
  { vm_compute. intuition congruence. }
  destruct (c =? c_lt)%N eqn:El.
  { vm_compute. intuition congruence. }
  destruct (c =? c_gt)%N eqn:Eg.
  { vm_compute. intuition congruence. }
  destruct (c =? c_dq)%N eqn:Eq.
  { vm_compute. intuition congruence. }
  intros [<-|[]]. apply N.eqb_neq in El, Eg, Eq. auto.
Qed.

(** C9: the output of [escapeHtml] holds none of the characters [<], [>]
    and the double quote: each is replaced by its entity, and the
    ampersand is replaced first, so that the ampersands of the entities
    are not escaped again; the apostrophe is left as it is. *)
Theorem escapeHtml_output (text : jsstring) :
  ~ In c_lt (escapeHtml text)
  /\ ~ In c_gt (escapeHtml text)
  /\ ~ In c_dq (escapeHtml text)
  /\ escapeHtml text = flat_map escapeChar text
  /\ escapeChar c_amp = str "&amp;"
  /\ escapeChar c_lt = str "&lt;"
  /\ escapeChar c_gt = str "&gt;"
  /\ escapeChar c_dq = str "&quot;"
  /\ escapeChar c_apos = apos
  /\ (forall a b : jsstring,
         escapeHtml (a ++ apos ++ b) = escapeHtml a ++ apos ++ escapeHtml b)
  /\ count_occ N.eq_dec (escapeHtml text) c_apos
     = count_occ N.eq_dec text c_apos.
Proof.
  assert (clean : forall x, In x (escapeHtml text) ->
                            x <> c_lt /\ x <> c_gt /\ x <> c_dq).
  { intros x Hx. rewrite escapeHtml_chars in Hx.
    apply in_flat_map in Hx. destruct Hx as [c [_ Hc]].
    exact (escapeChar_clean c x Hc). }
  repeat split; try reflexivity.
  - intro H. apply clean in H. tauto.
  - intro H. apply clean in H. tauto.
  - intro H. apply clean in H. tauto.
  - apply escapeHtml_chars.
  - intros a b. rewrite !escapeHtml_chars, !flat_map_app. reflexivity.
  - clear clean. rewrite escapeHtml_chars.
    induction text as [|c t IH]; [reflexivity|].
    cbn [flat_map]. rewrite count_occ_app, IH. cbn [count_occ].
    unfold escapeChar.
    destruct (c =? c_amp)%N eqn:Ea.
    { apply N.eqb_eq in Ea. subst c. reflexivity. }
    destruct (c =? c_lt)%N eqn:El.
    { apply N.eqb_eq in El. subst c. reflexivity. }
    destruct (c =? c_gt)%N eqn:Eg.
    { apply N.eqb_eq in Eg. subst c. reflexivity. }
    destruct (c =? c_dq)%N eqn:Eq.
    { apply N.eqb_eq in Eq. subst c. reflexivity. }
    cbn [count_occ]. destruct (N.eq_dec c c_apos); reflexivity.
Qed.

(** The minutes of [formatDuration] are those of the integer remainder,
    and the hours are shown from 3600 on. *)
Lemma formatDuration_finite (s : jsstring) (n : Z) :
  parseInt10 s = Fin n ->
  formatDuration s
  = if (3600 <=? n)%Z
    then numberToString (floorDiv (Fin n) 3600) ++ str "h "
         ++ showZ (Z.rem n 3600 / 60) ++ str "m"
    else showZ (Z.rem n 3600 / 60) ++ str " min".
Proof.
  intros Hs. unfold formatDuration. rewrite Hs.
  cbn [isNaN remainder].
  assert (Hr : (Z.abs (Z.rem n 3600) < 3600)%Z).
  { pose proof (Z.rem_bound_abs n 3600 ltac:(lia)). lia. }
  assert (Hr' : (Z.abs (Z.rem n 3600) < 2 ^ 53)%Z)
    by (apply Z.lt_trans with 3600%Z; [exact Hr|reflexivity]).
  rewrite (floorDiv_safe (Z.rem n 3600) 60 Hr') by lia.
  assert (Hm : (Z.abs (Z.rem n 3600 / 60) < 2 ^ 53)%Z).
  { change (2 ^ 53)%Z with 9007199254740992%Z.
    assert (- 3600 <= Z.rem n 3600 / 60)%Z
      by (apply Z.div_le_lower_bound; lia).
    assert (Z.rem n 3600 / 60 < 3600)%Z
      by (apply Z.div_lt_upper_bound; lia).
    lia. }
  rewrite (numberToString_safe _ Hm).
  rewrite (gtZero_floorDiv n 3600) by (split; [lia|reflexivity]).
  reflexivity.
Qed.

(** Below 2^53 the hours are the integer quotient. *)
Lemma hours_exact (n : Z) :
  (Z.abs n < 2 ^ 53)%Z ->
  numberToString (floorDiv (Fin n) 3600) = showZ (n / 3600).
Proof.
  intro Hn. rewrite (floorDiv_safe n 3600 Hn) by lia.
  apply numberToString_safe.
  change (2 ^ 53)%Z with 9007199254740992%Z in *.
  assert (- 9007199254740991 <= n / 3600)%Z
    by (apply Z.div_le_lower_bound; lia).
  assert (n / 3600 < 9007199254740992)%Z
    by (apply Z.div_lt_upper_bound; lia).
  lia.
Qed.

Lemma formatDuration_exact (s : jsstring) (n : Z) :
  parseInt10 s = Fin n -> (Z.abs n < 2 ^ 53)%Z ->
  formatDuration s
  = if (3600 <=? n)%Z
    then showZ (n / 3600) ++ str "h " ++ showZ (Z.rem n 3600 / 60) ++ str "m"
    else showZ (Z.rem n 3600 / 60) ++ str " min".
Proof.
  intros Hs Hn. rewrite (formatDuration_finite s n Hs), (hours_exact n Hn).
  reflexivity.
Qed.

(** C2: [formatDuration] follows [parseInt(s, 10)], which reads the
    longest numeric prefix: a value with a numeric prefix is rendered from
    that prefix, so ["45 min"] and ["01:02:05"] both come out as ["0 min"]
    and do not pass through; ["3725"] is ["1h 2m"], and a value without a
    numeric prefix is returned as it is.  For every prefix the hours are
    shown from 3600 on and the minutes are those of the integer
    remainder; the hours are the integer quotient for a prefix below 2^53
    in magnitude, where the division of the Numbers is exact, and the
    floor of the rounded quotient beyond; a prefix too long for a Number
    is an infinity. *)
Theorem formatDuration_cases :
  (forall s : jsstring, parseInt10 s = NaN -> formatDuration s = s)
  /\ (forall (s : jsstring) (n : Z),
         parseInt10 s = Fin n ->
         formatDuration s =
         if (3600 <=? n)%Z
         then numberToString (floorDiv (Fin n) 3600) ++ str "h "
              ++ showZ (Z.rem n 3600 / 60) ++ str "m"
         else showZ (Z.rem n 3600 / 60) ++ str " min")
  /\ (forall n : Z,
         (Z.abs n < 2 ^ 53)%Z ->
         numberToString (floorDiv (Fin n) 3600) = showZ (n / 3600))
  /\ (forall (s : jsstring) (n : Z),
         parseInt10 s = Fin n -> (Z.abs n < 2 ^ 53)%Z ->
         formatDuration s =
         if (3600 <=? n)%Z
         then showZ (n / 3600) ++ str "h " ++ showZ (Z.rem n 3600 / 60)
              ++ str "m"
         else showZ (Z.rem n 3600 / 60) ++ str " min")
  /\ (forall (s : jsstring) (negative : bool),
         parseInt10 s = Inf negative ->
         formatDuration s
         = if negative then str "NaN min" else str "Infinityh NaNm")
  /\ formatDuration (str "3725") = str "1h 2m"
  /\ parseInt10 (str "45 min") = Fin 45%Z
  /\ formatDuration (str "45 min") = str "0 min"
  /\ formatDuration (str "01:02:05") = str "0 min"
  /\ formatDuration (str "about an hour") = str "about an hour"
  /\ parseInt10 (str "9007199254741019") = Fin 9007199254741020%Z
  /\ formatDuration (str "9007199254741019") = str "2501999792983h 37m".
Proof.
  split; [intros s Hs; unfold formatDuration; rewrite Hs; reflexivity|].
  split; [exact formatDuration_finite|].
  split; [exact hours_exact|].
  split; [exact formatDuration_exact|].
  split.
  { intros s negative Hs. unfold formatDuration. rewrite Hs.
    destruct negative; reflexivity. }
  repeat split; vm_compute; reflexivity.
Qed.

(** *** Truncation *)

Lemma dropWhile_length (p : N -> bool) (s : jsstring) :
  length (dropWhile p s) <= length s.
Proof.
  induction s as [|c t IH]; cbn [dropWhile]; [lia|].
  destruct (p c); cbn [length]; lia.
Qed.

Lemma strip_prefix_length (eqc : N -> N -> bool) (p s r : jsstring) :
  strip_prefix eqc p s = Some r -> length s = length p + length r.
Proof.
  revert s. induction p as [|a p IH]; intros s H; cbn [strip_prefix] in H.
  - injection H as <-. reflexivity.
  - destruct s as [|c s]; [discriminate|].
    destruct (eqc a c); [|discriminate].
    apply IH in H. cbn [length]. lia.
Qed.

Lemma cleanDescription_length (s : jsstring) :
  length (cleanDescription s) <= length s.
Proof.
  unfold cleanDescription.
  destruct (strip_prefix eq_ci fan_mail s) as [r|] eqn:E; [|lia].
  apply strip_prefix_length in E.
  pose proof (dropWhile_length is_space r). lia.
Qed.

Lemma dropWhile_has_space (s : jsstring) :
  forallb (fun x => negb (is_space x)) (dropWhile is_space s) = false ->
  existsb is_space s = true.
Proof.
  induction s as [|c t IH]; cbn [dropWhile existsb forallb]; [discriminate|].
  destruct (is_space c) eqn:E; [reflexivity|].
  cbn [forallb]. rewrite E. cbn [negb andb orb].
  intro H. clear IH. induction t as [|d t IH]; [discriminate|].
  cbn [forallb existsb] in *.
  destruct (is_space d); [reflexivity|]. apply IH. exact H.
Qed.

(** [dropLastWord] keeps a prefix; what it drops starts with white space
    whenever the string has any. *)
Lemma dropLastWord_split (s : jsstring) :
  exists r, s = dropLastWord s ++ r
            /\ (existsb is_space s = true ->
                exists c r', r = c :: r' /\ is_space c = true).
Proof.
  induction s as [|c t [r [Hs Hr]]].
  - exists []. split; [reflexivity|discriminate].
  - cbn [dropLastWord].
    destruct (last_word_at (c :: t)) eqn:E.
    + exists (c :: t). split; [reflexivity|]. intros _.
      exists c, t. split; [reflexivity|].
      cbn [last_word_at] in E. apply andb_prop in E. tauto.
    + exists r. split; [cbn [app]; congruence|].
      intro H. apply Hr. cbn [existsb] in H.
      destruct (is_space c) eqn:Ec; [|exact H].
      cbn [last_word_at] in E. rewrite Ec in E. cbn [andb] in E.
      apply dropWhile_has_space. exact E.
Qed.

Lemma dropLastWord_length (s : jsstring) :
  length (dropLastWord s) <= length s.
Proof.
  destruct (dropLastWord_split s) as [r [H _]].
  rewrite H at 2. rewrite length_app. lia.
Qed.

Lemma last_word_at_cons (c : N) (t : jsstring) :
  is_space c = true -> (t = [] \/ last_word_at t = true) ->
  last_word_at (c :: t) = true.
Proof.
  intros Hc [->|H]; cbn [last_word_at]; rewrite Hc; [reflexivity|].
  destruct t as [|d t]; [discriminate|].
  cbn [last_word_at] in H. apply andb_prop in H. destruct H as [Hd H].
  cbn [dropWhile andb]. rewrite Hd. exact H.
Qed.

Lemma dropLastWord_nil (s : jsstring) :
  dropLastWord s = [] -> s = [] \/ last_word_at s = true.
Proof.
  destruct s as [|c t]; [auto|]. cbn [dropLastWord].
  destruct (last_word_at (c :: t)); [auto|discriminate].
Qed.

(** What [dropLastWord] keeps does not end in white space. *)
Lemma dropLastWord_last (s : jsstring) (d : N) :
  dropLastWord s <> [] -> is_space (last (dropLastWord s) d) = false.
Proof.
  induction s as [|c t IH]; [intros []; reflexivity|].
  cbn [dropLastWord].
  destruct (last_word_at (c :: t)) eqn:E; [intros []; reflexivity|].
  intros _. destruct (dropLastWord t) as [|x q] eqn:Eq.
  - cbn [last]. destruct (is_space c) eqn:Ec; [|reflexivity].
    rewrite (last_word_at_cons c t Ec (dropLastWord_nil t Eq)) in E.
    discriminate.
  - change (last (c :: x :: q) d) with (last (x :: q) d).
    apply IH. discriminate.
Qed.

Lemma mid_word_cut_space (plain : jsstring) (k : nat) (c : N) :
  nth_error plain k = Some c -> is_space c = true ->
  mid_word_cut plain k = false.
Proof.
  intros Hk Hc. destruct k as [|j]; [reflexivity|].
  cbn [mid_word_cut]. rewrite Hk.
  destruct (nth_error plain j); [|reflexivity].
  rewrite Hc. apply andb_false_r.
Qed.

(** C4, as the code has it: the text is stripped of markup and of the
    fan-mail prefix first; when that text is no longer than the maximum it
    is the result, and otherwise the result is a prefix of at most the
    maximum length and the ellipsis.  The prefix never ends in white space,
    and when the first [maxLen] characters hold white space the cut is
    directly before white space, so that no word is split. *)
Theorem truncate_law (text : jsstring) (maxLen : nat) :
  let plain := cleanDescription (stripHtml text) in
  length (truncate text maxLen) <= maxLen + length ellipsis
  /\ (length plain <= maxLen -> truncate text maxLen = plain)
  /\ (length (stripHtml text) <= maxLen -> truncate text maxLen = plain)
  /\ (maxLen < length plain ->
      exists k,
        k <= maxLen
        /\ truncate text maxLen = firstn k plain ++ ellipsis
        /\ (forall d, firstn k plain <> [] ->
                      is_space (last (firstn k plain) d) = false)
        /\ (existsb is_space (firstn maxLen plain) = true ->
            (exists c, nth_error plain k = Some c /\ is_space c = true)
            /\ mid_word_cut plain k = false)).
Proof.
  intro plain. unfold truncate. fold plain.
  destruct (length plain <=? maxLen) eqn:E.
  - apply Nat.leb_le in E. repeat split; try lia; auto.
  - apply Nat.leb_gt in E.
    set (s := firstn maxLen plain).
    assert (Ls : length s = maxLen)
      by (apply firstn_length_le; lia).
    destruct (dropLastWord_split s) as [r [Hs Hr]].
    assert (Lk : length (dropLastWord s) + length r = maxLen)
      by (rewrite <- length_app, <- Hs; exact Ls).
    assert (Hk : firstn (length (dropLastWord s)) plain = dropLastWord s).
    { replace (length (dropLastWord s))
        with (Nat.min (length (dropLastWord s)) maxLen) by lia.
      rewrite <- firstn_firstn. fold s. rewrite Hs at 2.
      rewrite firstn_app, firstn_all, Nat.sub_diag, firstn_0.
      apply app_nil_r. }
    split; [rewrite length_app; lia|].
    split; [lia|].
    split.
    { intro H. pose proof (cleanDescription_length (stripHtml text)).
      fold plain in H0. lia. }
    intros _. exists (length (dropLastWord s)).
    split; [lia|]. rewrite Hk.
    split; [reflexivity|].
    split; [intro d; apply dropLastWord_last|].
    intro H. destruct (Hr H) as [c [r' [-> Hc]]].
    assert (Hn : nth_error plain (length (dropLastWord s)) = Some c).
    { cbn [length] in Lk.
      assert (Hlt : (length (dropLastWord s) <? maxLen) = true)
        by (apply Nat.ltb_lt; lia).
      pose proof (nth_error_firstn maxLen plain (length (dropLastWord s)))
        as Hf.
      rewrite Hlt in Hf. rewrite <- Hf. fold s. rewrite Hs at 1.
      rewrite nth_error_app2, Nat.sub_diag by lia. reflexivity. }
    split; [exists c; auto|].
    exact (mid_word_cut_space _ _ _ Hn Hc).
Qed.

(** The law at a text that is cut: the first eleven characters of
    ["hello world foo"] hold a space, and the cut is before it. *)
Lemma truncate_law_witness :
  (11 < length (cleanDescription (stripHtml (str "hello world foo")))
   /\ exists k,
        k <= 11
        /\ truncate (str "hello world foo") 11
           = firstn k (cleanDescription (stripHtml (str "hello world foo")))
             ++ ellipsis
        /\ mid_word_cut
             (cleanDescription (stripHtml (str "hello world foo"))) k = false)
  /\ (length (stripHtml (str "<p>Send us a text</p> Hi")) <= 200
      /\ truncate (str "<p>Send us a text</p> Hi") 200 = str "Hi").
Proof.
  assert (L : 11 < length (cleanDescription
                             (stripHtml (str "hello world foo"))))
    by (vm_compute; lia).
  assert (L' : length (stripHtml (str "<p>Send us a text</p> Hi")) <= 200)
    by (vm_compute; lia).
  split.
  - split; [exact L|].
    destruct (truncate_law (str "hello world foo") 11)
      as [_ [_ [_ H]]].
    destruct (H L) as [k [Hk [Ht [_ Hs]]]].
    exists k. split; [exact Hk|]. split; [exact Ht|].
    apply Hs. vm_compute. reflexivity.
  - split; [exact L'|].
    destruct (truncate_law (str "<p>Send us a text</p> Hi") 200)
      as [_ [_ [H _]]].
    rewrite (H L'). vm_compute. reflexivity.
Defined.

(** The claim of C4 as it was stated fails twice: a text without white
    space is cut inside its only word, and a text that carries the fan-mail
    prefix is not returned as its stripped text although that is short
    enough. *)
Lemma truncate_counterexample :
  (cleanDescription (stripHtml (str "abcdefghij")) = str "abcdefghij"
   /\ truncate (str "abcdefghij") 5 = firstn 5 (str "abcdefghij") ++ ellipsis
   /\ mid_word_cut (str "abcdefghij") 5 = true)
  /\ (length (stripHtml (str "Send us a text Hi")) <= 200
      /\ truncate (str "Send us a text Hi") 200
         <> stripHtml (str "Send us a text Hi")).
Proof.
  split; [repeat split; vm_compute; reflexivity|].
  split; [vm_compute; lia|].
  vm_compute. discriminate.
Qed.

(** ** The episode sort *)

Section InsertionSort.

Variable A : Type.
Variable cmp : A -> A -> number.

Lemma insert_perm (x : A) (l : list A) : Permutation (insert cmp x l) (x :: l).
Proof.
  induction l as [|y t IH]; cbn [insert]; [apply Permutation_refl|].
  destruct (after (cmp x y)); [|apply Permutation_refl].
  apply perm_trans with (y :: x :: t); [|apply perm_swap].
  apply perm_skip. exact IH.
Qed.

Lemma sort_perm (l : list A) : Permutation (sort cmp l) l.
Proof.
  induction l as [|x t IH]; [apply perm_nil|].
  cbn [sort fold_right]. fold (sort cmp t).
  apply perm_trans with (x :: sort cmp t); [apply insert_perm|].
  apply perm_skip. exact IH.
Qed.

(** The order that the sort establishes, for a relation [R] that agrees
    with the comparator on the elements that satisfy [P]. *)
Variable P : A -> Prop.
Variable R : A -> A -> Prop.
Hypothesis R_trans :
  forall x y z, P x -> P y -> P z -> R x y -> R y z -> R x z.
Hypothesis R_after : forall x y, P x -> P y -> after (cmp x y) = true -> R y x.
Hypothesis R_before :
  forall x y, P x -> P y -> after (cmp x y) = false -> R x y.

Lemma insert_sorted (x : A) (l : list A) :
  P x -> Forall P l -> StronglySorted R l ->
  StronglySorted R (insert cmp x l).
Proof.
  intros Px Pl Hl. induction Hl as [|y t Ht IH Hy]; cbn [insert].
  - constructor; constructor.
  - inversion Pl as [|? ? Py Pt]; subst.
    destruct (after (cmp x y)) eqn:E.
    + constructor; [apply IH; exact Pt|].
      apply (Permutation_Forall (Permutation_sym (insert_perm x t))).
      constructor; [apply R_after; assumption|exact Hy].
    + assert (Rxy : R x y) by (apply R_before; assumption).
      constructor; [constructor; assumption|].
      constructor; [exact Rxy|].
      rewrite Forall_forall in Hy, Pt. apply Forall_forall.
      intros z Hz. apply R_trans with y; auto.
Qed.

Lemma sort_sorted (l : list A) :
  Forall P l -> StronglySorted R (sort cmp l).
Proof.
  induction 1 as [|x t Px Pt IH]; [constructor|].
  cbn [sort fold_right]. fold (sort cmp t).
  apply insert_sorted; [exact Px| |exact IH].
  apply (Permutation_Forall (Permutation_sym (sort_perm t))). exact Pt.
Qed.

End InsertionSort.

Lemma StronglySorted_nth (A : Type) (R : A -> A -> Prop) (l : list A) :
  StronglySorted R l ->
  forall i j a b, i < j -> nth_error l i = Some a -> nth_error l j = Some b ->
                  R a b.
Proof.
  induction 1 as [|x t Ht IH Hx]; intros i j a b Hij Ha Hb.
  - destruct i; discriminate.
  - destruct j as [|j]; [lia|]. cbn [nth_error] in Hb.
    destruct i as [|i].
    + injection Ha as <-. rewrite Forall_forall in Hx.
      apply Hx. eapply nth_error_In. exact Hb.
    + cbn [nth_error] in Ha. apply (IH i j); [lia|assumption..].
Qed.

(** *** The order of the Numbers *)

(** Rounding keeps the sign. *)
Lemma gtZero_toNumber (z : Z) : gtZero (toNumber z) = (0 <? z)%Z.
Proof.
  unfold toNumber.
  destruct (z =? 0)%Z eqn:E0; [apply Z.eqb_eq in E0; subst; reflexivity|].
  apply Z.eqb_neq in E0. cbv zeta.
  destruct (nearest_one_value (Z.abs z) ltac:(lia)) as [_ [_ Hv]].
  destruct (overflow <=? floorOf 1 (nearest (Z.abs z) 1))%Z; cbn [gtZero].
  - destruct (z <? 0)%Z eqn:E; cbn [negb]; symmetry.
    + apply Z.ltb_lt in E. apply Z.ltb_ge. lia.
    + apply Z.ltb_ge in E. apply Z.ltb_lt. lia.
  - destruct (Z.lt_trichotomy z 0) as [H|[H|H]]; [|lia|].
    + rewrite Z.sgn_neg by lia.
      transitivity false; [apply Z.ltb_ge|symmetry; apply Z.ltb_ge]; lia.
    + rewrite Z.sgn_pos by lia.
      transitivity true; [apply Z.ltb_lt|symmetry; apply Z.ltb_lt]; lia.
Qed.

Lemma gtZero_sub (x y : number) :
  x <> NaN -> y <> NaN -> (gtZero (sub y x) = true <-> numLt x y).
Proof.
  intros Hx Hy.
  destruct x as [|a|m], y as [|b|n]; try contradiction; cbn [sub numLt].
  - rewrite gtZero_toNumber, Z.ltb_lt. lia.
  - cbn [gtZero]. destruct n; cbn [negb]; split; congruence.
  - cbn [gtZero]. destruct m; cbn [negb]; split; congruence.
  - destruct n, m; cbn [Bool.eqb gtZero negb]; split;
      intuition congruence.
Qed.

Lemma strictEq_eq (x y : number) :
  x <> NaN -> y <> NaN -> (strictEq x y = true <-> x = y).
Proof.
  intros Hx Hy.
  destruct x as [|a|m], y as [|b|n]; try contradiction; cbn [strictEq];
    try (split; [discriminate|discriminate]).
  - rewrite Z.eqb_eq. split; [intros ->; reflexivity|congruence].
  - destruct m, n; cbn [Bool.eqb]; split; congruence.
Qed.

Lemma numLt_irrefl (x : number) : ~ numLt x x.
Proof. destruct x as [|a|m]; cbn [numLt]; [tauto|lia|]. intros [-> H]. discriminate. Qed.

Lemma numLt_trans (x y z : number) : numLt x y -> numLt y z -> numLt x z.
Proof.
  destruct x as [|a|m], y as [|b|n], z as [|c|o]; cbn [numLt];
    try tauto; try lia; intuition congruence.
Qed.

Lemma numLt_total (x y : number) :
  x <> NaN -> y <> NaN -> numLt x y \/ x = y \/ numLt y x.
Proof.
  intros Hx Hy.
  destruct x as [|a|m], y as [|b|n]; try contradiction; cbn [numLt].
  - destruct (Z.lt_trichotomy a b) as [H|[H|H]]; [auto|subst; auto|auto].
  - destruct n; auto.
  - destruct m; auto.
  - destruct m, n; auto.
Qed.

Lemma epNum_number (e : Episode) : epNum e <> NaN.
Proof. unfold epNum. destruct (parseInt (episode e)); discriminate. Qed.

Lemma compare_after (a b : Episode) :
  after (compareEpisodes a b) = true ->
  numLt (epNum a) (epNum b)
  \/ (epNum a = epNum b
      /\ exists ta tb, date a = Some ta /\ date b = Some tb /\ (ta < tb)%Z).
Proof.
  unfold compareEpisodes, after. cbv zeta.
  pose proof (epNum_number a) as Na. pose proof (epNum_number b) as Nb.
  destruct (strictEq (epNum a) (epNum b)) eqn:E; cbn [negb].
  - apply (strictEq_eq _ _ Na Nb) in E. intro H. right. split; [exact E|].
    destruct (date b) as [tb|]; [|destruct (date a); discriminate].
    destruct (date a) as [ta|]; [|discriminate].
    exists ta, tb. cbn [timeValue sub] in H.
    rewrite gtZero_toNumber in H. apply Z.ltb_lt in H.
    repeat split. lia.
  - intro H. left. apply (gtZero_sub _ _ Na Nb). exact H.
Qed.

Lemma compare_before (a b : Episode) :
  after (compareEpisodes a b) = false ->
  numLt (epNum b) (epNum a)
  \/ (epNum a = epNum b
      /\ forall ta tb, date a = Some ta -> date b = Some tb -> (tb <= ta)%Z).
Proof.
  unfold compareEpisodes, after. cbv zeta.
  pose proof (epNum_number a) as Na. pose proof (epNum_number b) as Nb.
  destruct (strictEq (epNum a) (epNum b)) eqn:E; cbn [negb].
  - apply (strictEq_eq _ _ Na Nb) in E. intro H. right. split; [exact E|].
    intros ta tb Ha Hb. rewrite Ha, Hb in H. cbn [timeValue sub] in H.
    rewrite gtZero_toNumber in H. apply Z.ltb_ge in H. lia.
  - intro H. left.
    destruct (numLt_total _ _ Na Nb) as [L|[L|L]]; [| |exact L].
    + apply (gtZero_sub _ _ Na Nb) in L. congruence.
    + apply (strictEq_eq _ _ Na Nb) in L. congruence.
Qed.

Lemma sortEpisodes_byNumber (eps : list Episode) :
  StronglySorted byNumber (sortEpisodes eps).
Proof.
  apply sort_sorted with (P := fun _ => True).
  - unfold byNumber. intros x y z _ _ _ Hxy Hyz Hxz.
    destruct (numLt_total _ _ (epNum_number x) (epNum_number y))
      as [L|[L|L]]; [contradiction| |].
    + rewrite L in Hxz. contradiction.
    + apply Hyz. exact (numLt_trans _ _ _ L Hxz).
  - intros x y _ _ H. apply compare_after in H. unfold byNumber.
    destruct H as [H|[H _]]; intro L.
    + exact (numLt_irrefl _ (numLt_trans _ _ _ H L)).
    + rewrite H in L. exact (numLt_irrefl _ L).
  - intros x y _ _ H. apply compare_before in H. unfold byNumber.
    destruct H as [H|[H _]]; intro L.
    + exact (numLt_irrefl _ (numLt_trans _ _ _ H L)).
    + rewrite H in L. exact (numLt_irrefl _ L).
  - apply Forall_forall. auto.
Qed.

Lemma sortEpisodes_byNumberThenDate (eps : list Episode) :
  Forall validDate eps ->
  StronglySorted byNumberThenDate (sortEpisodes eps).
Proof.
  apply sort_sorted.
  - unfold byNumberThenDate, validDate. intros x y z _ Py _ Hxy Hyz.
    destruct Hxy as [Hxy|[Exy Hxy]], Hyz as [Hyz|[Eyz Hyz]].
    + left. exact (numLt_trans _ _ _ Hyz Hxy).
    + left. rewrite <- Eyz. exact Hxy.
    + left. rewrite Exy. exact Hyz.
    + right. split; [congruence|]. intros ta tc Ha Hc.
      destruct (date y) as [tb|] eqn:Hb; [|contradiction].
      specialize (Hxy ta tb Ha eq_refl). specialize (Hyz tb tc eq_refl Hc).
      lia.
  - intros x y _ _ H. apply compare_after in H. unfold byNumberThenDate.
    destruct H as [H|[H [ta [tb [Ha [Hb Hlt]]]]]]; [left; exact H|].
    right. split; [symmetry; exact H|]. intros ? ? Hy Hx.
    rewrite Ha in Hx. rewrite Hb in Hy.
    injection Hx as <-. injection Hy as <-. lia.
  - intros x y _ _ H. apply compare_before in H. exact H.
Qed.

(** The dates are in order among the episodes with the number [n] as
    soon as the dates of those episodes are valid. *)
Lemma sortEpisodes_byNumberThenDateAt (n : number) (eps : list Episode) :
  Forall (validAt n) eps ->
  StronglySorted (byNumberThenDateAt n) (sortEpisodes eps).
Proof.
  apply sort_sorted.
  - unfold byNumberThenDateAt, validAt, validDate.
    intros x y z _ Py _ Hxy Hyz.
    destruct Hxy as [Hxy|[Exy Hxy]], Hyz as [Hyz|[Eyz Hyz]].
    + left. exact (numLt_trans _ _ _ Hyz Hxy).
    + left. rewrite <- Eyz. exact Hxy.
    + left. rewrite Exy. exact Hyz.
    + right. split; [congruence|]. intros En ta tc Ha Hc.
      assert (Ey : epNum y = n) by congruence.
      specialize (Py Ey).
      destruct (date y) as [tb|] eqn:Hb; [|contradiction].
      specialize (Hxy En ta tb Ha eq_refl).
      specialize (Hyz Ey tb tc eq_refl Hc). lia.
  - intros x y _ _ H. apply compare_after in H. unfold byNumberThenDateAt.
    destruct H as [H|[H [ta [tb [Ha [Hb Hlt]]]]]]; [left; exact H|].
    right. split; [symmetry; exact H|]. intros _ ? ? Hy Hx.
    rewrite Ha in Hx. rewrite Hb in Hy.
    injection Hx as <-. injection Hy as <-. lia.
  - intros x y _ _ H. apply compare_before in H. unfold byNumberThenDateAt.
    destruct H as [H|[E H]]; [left; exact H|].
    right. split; [exact E|]. intros _. exact H.
Qed.

(** C3, as the code has it: the sorted collection is an arrangement of the
    episodes in which no episode stands before one with a greater number
    (an unparsable number counting as 0, and a number being the Number
    that [parseInt] gives for the field); of two episodes whose number
    fields parse as distinct integers, the one with the greater number
    stands first; and the episodes with one and the same number stand in
    descending order of their dates as soon as the publish dates of the
    episodes with that number are valid, whatever the dates of the other
    episodes.  Number fields that differ only beyond the precision of a
    Number parse as one number, and their episodes are a tie. *)
Theorem sort_law (eps : list Episode) :
  let out := sortEpisodes eps in
  Permutation out eps
  /\ (forall i j A B,
         nth_error out i = Some A -> nth_error out j = Some B -> i < j ->
         ~ numLt (epNum A) (epNum B))
  /\ (forall i j A B a b,
         nth_error out i = Some A -> nth_error out j = Some B ->
         parseInt (episode A) = Fin a -> parseInt (episode B) = Fin b ->
         a <> b ->
         (i < j <-> (b < a)%Z))
  /\ (forall n : number,
         (forall e, In e eps -> epNum e = n -> validDate e) ->
         forall i j A B ta tb,
           nth_error out i = Some A -> nth_error out j = Some B -> i < j ->
           epNum A = n -> epNum B = n ->
           date A = Some ta -> date B = Some tb ->
           (tb <= ta)%Z)
  /\ parseInt (str "9007199254740993") = parseInt (str "9007199254740992")
  /\ sortEpisodes roundedEpisodes
     = [episodeOf "9007199254740992" 2; episodeOf "9007199254740993" 1].
Proof.
  intro out.
  assert (Hnum : forall i j A B,
             nth_error out i = Some A -> nth_error out j = Some B -> i < j ->
             ~ numLt (epNum A) (epNum B)).
  { intros i j A B HA HB Hij.
    exact (StronglySorted_nth _ _ _ (sortEpisodes_byNumber eps)
             i j A B Hij HA HB). }
  split; [apply sort_perm|].
  split; [exact Hnum|].
  split.
  { intros i j A B a b HA HB Ha Hb Hab.
    assert (EA : epNum A = Fin a) by (unfold epNum; rewrite Ha; reflexivity).
    assert (EB : epNum B = Fin b) by (unfold epNum; rewrite Hb; reflexivity).
    split.
    + intro Hij. pose proof (Hnum i j A B HA HB Hij) as H.
      rewrite EA, EB in H. cbn [numLt] in H. lia.
    + intro Hba. destruct (Nat.lt_trichotomy i j) as [H|[H|H]].
      * exact H.
      * subst j. rewrite HA in HB. injection HB as <-. congruence.
      * pose proof (Hnum j i B A HB HA H) as H'.
        rewrite EA, EB in H'. cbn [numLt] in H'. lia. }
  split; [|split; vm_compute; reflexivity].
  intros n Hv i j A B ta tb HA HB Hij EA EB Hta Htb.
  assert (Hall : Forall (validAt n) eps).
  { apply Forall_forall. intros e He. exact (Hv e He). }
  pose proof (StronglySorted_nth _ _ _
                (sortEpisodes_byNumberThenDateAt n eps Hall)
                i j A B Hij HA HB) as [H|[_ H]].
  - rewrite EA, EB in H. exfalso. exact (numLt_irrefl _ H).
  - exact (H EA ta tb Hta Htb).
Qed.

(** The sort law on three dated episodes, two of them with the number 2,
    and on three episodes of which the one with another number has no
    valid date. *)
Lemma sort_law_witness :
  sortEpisodes datedEpisodes
  = [episodeOf "10" 10; episodeOf "2" 70; episodeOf "2" 50]
  /\ (0 < 1 <-> (2 < 10)%Z)
  /\ (forall e, In e partlyDatedEpisodes -> epNum e = Fin 2 -> validDate e)
  /\ sortEpisodes partlyDatedEpisodes
     = [undatedEpisode "10"; episodeOf "2" 70; episodeOf "2" 50]
  /\ (50 <= 70)%Z.
Proof.
  destruct (sort_law datedEpisodes) as [_ [_ [Hiff _]]].
  destruct (sort_law partlyDatedEpisodes) as [_ [_ [_ [Hdate _]]]].
  assert (Hv : forall e, In e partlyDatedEpisodes ->
                         epNum e = Fin 2 -> validDate e).
  { intros e [<-|[<-|[<-|[]]]] He; [discriminate| |discriminate].
    vm_compute in He. discriminate He. }
  split; [vm_compute; reflexivity|].
  split.
  { apply (Hiff 0 1 (episodeOf "10" 10) (episodeOf "2" 70) 10%Z 2%Z);
      first [lia | vm_compute; reflexivity]. }
  split; [exact Hv|].
  split; [vm_compute; reflexivity|].
  apply (Hdate (Fin 2) Hv 1 2 (episodeOf "2" 70) (episodeOf "2" 50) 70%Z 50%Z);
    first [lia | vm_compute; reflexivity].
Defined.

(** The claim of C3 as it was stated fails when a publish date is
    invalid: the comparator then gives NaN, which the sort takes for a tie,
    and of three episodes with the number 5 the one dated 1 stays before
    the one dated 2 because an episode without a valid date stands between
    them.  (With such a comparator the language leaves the order to the
    implementation; the insertion sort of short arrays in V8 gives this
    order as well.)  It fails as well for number fields whose integers
    differ beyond the precision of a Number: they parse as one number, the
    dates decide, and the episode with the smaller integer stands
    first. *)
Lemma sort_date_counterexample :
  (sortEpisodes tiedEpisodes
   = [episodeOf "5" 1; undatedEpisode "5"; episodeOf "5" 2]
   /\ nth_error (sortEpisodes tiedEpisodes) 0 = Some (episodeOf "5" 1)
   /\ nth_error (sortEpisodes tiedEpisodes) 2 = Some (episodeOf "5" 2)
   /\ epNum (episodeOf "5" 1) = epNum (episodeOf "5" 2)
   /\ date (episodeOf "5" 1) = Some 1%Z
   /\ date (episodeOf "5" 2) = Some 2%Z
   /\ (1 < 2)%Z)
  /\ (sortEpisodes roundedEpisodes
      = [episodeOf "9007199254740992" 2; episodeOf "9007199254740993" 1]
      /\ digits_val (str "9007199254740992") = 9007199254740992%Z
      /\ digits_val (str "9007199254740993") = 9007199254740993%Z
      /\ (9007199254740992 < 9007199254740993)%Z).
Proof.
  repeat split; vm_compute; reflexivity.
Qed.

(** ** Pages *)

Section Pages.

Variable formatDate : option Z -> jsstring.
Variable literal : template -> nat -> jsstring.

(** C5, as the code has it: the hero of the home page is the first episode
    of the collection, and the grid holds the cards of the first six
    episodes of the collection, the hero among them (all of them when
    there are fewer than six); a collection of one episode gives the hero
    and one card, both of that episode. *)
Theorem home_page_hero_and_grid (latest : Episode) (rest : list Episode)
  (podcastMeta : PodcastMeta) :
  let episodes := latest :: rest in
  let metaText :=
    escapeHtml (cleanDescription (stripHtml (metaDescription podcastMeta))) in
  homeLatest episodes = Some latest
  /\ homeRecent episodes = latest :: firstn 5 rest
  /\ length (homeRecent episodes) = Nat.min 6 (length episodes)
  /\ generateHomePage formatDate literal episodes podcastMeta
     = Some (literal T_home 0 ++ metaText
             ++ literal T_home 1 ++ metaText
             ++ literal T_home 2 ++ faviconHTML literal []
             ++ literal T_home 3 ++ navHTML literal (str "home")
             ++ literal T_home 4 ++ numberPrefix latest
             ++ escapeHtml (title latest)
             ++ literal T_home 5
             ++ escapeHtml (truncate (description latest) 250)
             ++ literal T_home 6 ++ episode latest
             ++ literal T_home 7
             ++ concat (map (episodeCardHTML formatDate literal)
                          (latest :: firstn 5 rest))
             ++ literal T_home 8 ++ sidebarHTML literal episodes
             ++ literal T_home 9 ++ footerHTML literal
             ++ literal T_home 10)
  /\ homeLatest [latest] = Some latest
  /\ homeRecent [latest] = [latest].
Proof.
  intros episodes metaText.
  split; [reflexivity|].
  split; [reflexivity|].
  split; [unfold homeRecent, slice0; apply length_firstn|].
  repeat split; reflexivity.
Qed.

(** *** The links between the detail pages *)

Lemma eqs_eq (a b : jsstring) : eqs a b = true <-> a = b.
Proof.
  revert b. induction a as [|x a IH]; intros [|y b]; cbn [eqs];
    try (split; [discriminate|discriminate]); [tauto|].
  rewrite andb_true_iff, N.eqb_eq, IH. split.
  - intros [-> ->]. reflexivity.
  - intro H. injection H as -> ->. auto.
Qed.

Lemma findIndex_from_nth (all : list Episode) (i : nat) (ep : Episode)
  (k : Z) :
  NoDup (map episode all) -> nth_error all i = Some ep ->
  findIndex_from (fun e => eqs (episode e) (episode ep)) all k
  = (k + Z.of_nat i)%Z.
Proof.
  revert i k. induction all as [|x t IH]; intros i k Hnd Hi.
  - destruct i; discriminate.
  - cbn [findIndex_from]. destruct i as [|i].
    + injection Hi as ->.
      rewrite (proj2 (eqs_eq (episode ep) (episode ep)) eq_refl). lia.
    + cbn [nth_error] in Hi. cbn [map] in Hnd.
      inversion Hnd as [|? ? Hx Ht]; subst.
      destruct (eqs (episode x) (episode ep)) eqn:E.
      * apply eqs_eq in E. exfalso. apply Hx. rewrite E.
        apply in_map. eapply nth_error_In. exact Hi.
      * rewrite (IH i (k + 1)%Z Ht Hi). lia.
Qed.

Lemma index_nat (A : Type) (l : list A) (i : nat) :
  index l (Z.of_nat i) = nth_error l i.
Proof.
  unfold index.
  destruct (Z.of_nat i <? 0)%Z eqn:E; [apply Z.ltb_lt in E; lia|].
  rewrite Nat2Z.id. reflexivity.
Qed.

(** C8: in a collection with pairwise distinct number fields, the page of
    the episode at index [i] has its previous link made from the episode at
    index [i + 1] and its next link made from the episode at index [i - 1]:
    an anchor whose address is [N.html] for the number field [N] of that
    episode.  That address is the name of the page of the neighbour when
    its number field is not empty.  The first episode has no next link,
    the last no previous link, and the only episode of a collection
    neither.  For a neighbour without a number the address is [.html],
    which is not the name of its page: the page is written under the name
    made from its title, and the link does not lead to it. *)
Theorem episode_nav_adjacent (all : list Episode) (i : nat) (ep : Episode) :
  NoDup (map episode all) ->
  nth_error all i = Some ep ->
  epIndex ep all = Z.of_nat i
  /\ prevEp ep all = nth_error all (S i)
  /\ nextEp ep all = newer all i
  /\ episodeNav literal ep all
     = literal T_detail 16 ++ prevLink (nth_error all (S i))
       ++ literal T_detail 17 ++ nextLink (newer all i)
       ++ literal T_detail 18
  /\ (forall older,
         nth_error all (S i) = Some older ->
         prevLink (prevEp ep all)
         = str "<a href=" ++ dq ++ episode older ++ str ".html" ++ dq
           ++ str " class=" ++ dq ++ str "episode-nav-link episode-nav-prev"
           ++ dq ++ str ">&larr; Episode " ++ episode older ++ str "</a>"
         /\ (episode older <> [] ->
             episode older ++ str ".html" = pageFilename older)
         /\ (episode older = [] -> slugify (title older) None <> [] ->
             episode older ++ str ".html" <> pageFilename older))
  /\ (forall younger,
         newer all i = Some younger ->
         nextLink (nextEp ep all)
         = str "<a href=" ++ dq ++ episode younger ++ str ".html" ++ dq
           ++ str " class=" ++ dq ++ str "episode-nav-link episode-nav-next"
           ++ dq ++ str ">Episode " ++ episode younger ++ str " &rarr;</a>"
         /\ (episode younger <> [] ->
             episode younger ++ str ".html" = pageFilename younger)
         /\ (episode younger = [] -> slugify (title younger) None <> [] ->
             episode younger ++ str ".html" <> pageFilename younger))
  /\ (i = 0 -> nextLink (nextEp ep all) = noLink)
  /\ (S i = length all -> prevLink (prevEp ep all) = noLink)
  /\ (length all = 1 ->
      prevLink (prevEp ep all) = noLink /\ nextLink (nextEp ep all) = noLink)
  /\ (NoDup (map episode withTrailer)
      /\ sortEpisodes withTrailer = withTrailer
      /\ prevEp (episodeOf "1" 10) withTrailer = Some trailerEpisode
      /\ prevLink (prevEp (episodeOf "1" 10) withTrailer)
         = str "<a href=" ++ dq ++ str ".html" ++ dq
           ++ str " class=" ++ dq ++ str "episode-nav-link episode-nav-prev"
           ++ dq ++ str ">&larr; Episode </a>"
      /\ pageFilename trailerEpisode = str "trailer.html").
Proof.
  intros Hnd Hi.
  assert (Hidx : epIndex ep all = Z.of_nat i).
  { unfold epIndex, findIndex.
    rewrite (@findIndex_from_nth all i ep 0%Z Hnd Hi). lia. }
  assert (Hprev : prevEp ep all = nth_error all (S i)).
  { unfold prevEp. rewrite Hidx.
    replace (Z.of_nat i + 1)%Z with (Z.of_nat (S i)) by lia.
    apply index_nat. }
  assert (Hnext : nextEp ep all = newer all i).
  { unfold nextEp. rewrite Hidx. destruct i as [|j]; [reflexivity|].
    replace (Z.of_nat (S j) - 1)%Z with (Z.of_nat j) by lia.
    apply index_nat. }
  assert (Hlast : S i = length all -> prevLink (prevEp ep all) = noLink).
  { intro H. rewrite Hprev.
    assert (Hn : nth_error all (S i) = None)
      by (apply nth_error_None; lia).
    rewrite Hn. reflexivity. }
  assert (Hfirst : i = 0 -> nextLink (nextEp ep all) = noLink).
  { intros ->. rewrite Hnext. reflexivity. }
  assert (Hname : forall e, episode e <> [] ->
                            episode e ++ str ".html" = pageFilename e).
  { intros e He. unfold pageFilename.
    destruct (episode e); [contradiction|reflexivity]. }
  assert (Hslug : forall e, episode e = [] ->
                            slugify (title e) None <> [] ->
                            episode e ++ str ".html" <> pageFilename e).
  { intros e He Hs. unfold pageFilename. rewrite He. cbn [or_else app].
    intro Heq. apply Hs. apply (f_equal (@length N)) in Heq.
    rewrite length_app in Heq. apply length_zero_iff_nil. lia. }
  split; [exact Hidx|].
  split; [exact Hprev|].
  split; [exact Hnext|].
  split; [unfold episodeNav; rewrite Hprev, Hnext; reflexivity|].
  split.
  { intros older Ho. rewrite Hprev, Ho.
    split; [reflexivity|]. split; [apply Hname|apply Hslug]. }
  split.
  { intros younger Hy. rewrite Hnext, Hy.
    split; [reflexivity|]. split; [apply Hname|apply Hslug]. }
  split; [exact Hfirst|].
  split; [exact Hlast|].
  split.
  { intro H1.
    assert (i < length all) by (apply nth_error_Some; congruence).
    split; [apply Hlast|apply Hfirst]; lia. }
  split.
  { repeat constructor; cbn [In map withTrailer];
      intro H; vm_compute in H; intuition discriminate. }
  repeat split; vm_compute; reflexivity.
Qed.

End Pages.

(** The links of the middle page of three. *)
Lemma episode_nav_adjacent_witness :
  NoDup (map episode threeEpisodes)
  /\ nth_error threeEpisodes 1 = Some (episodeOf "2" 20)
  /\ prevEp (episodeOf "2" 20) threeEpisodes = Some (episodeOf "1" 10)
  /\ nextEp (episodeOf "2" 20) threeEpisodes = Some (episodeOf "3" 30)
  /\ prevLink (prevEp (episodeOf "2" 20) threeEpisodes)
     = str "<a href=" ++ dq ++ str "1.html" ++ dq
       ++ str " class=" ++ dq ++ str "episode-nav-link episode-nav-prev"
       ++ dq ++ str ">&larr; Episode 1</a>"
  /\ str "1.html" = pageFilename (episodeOf "1" 10).
Proof.
  set (all := threeEpisodes).
  assert (Hnd : NoDup (map episode all)).
  { repeat constructor; cbn [In map all threeEpisodes];
      intro H; vm_compute in H; intuition discriminate. }
  destruct (@episode_nav_adjacent (fun _ _ => []) all 1
              (episodeOf "2" 20) Hnd eq_refl)
    as [_ [Hp [Hn [_ [Hlink _]]]]].
  destruct (Hlink (episodeOf "1" 10) eq_refl) as [Ha [Hf _]].
  split; [exact Hnd|].
  split; [reflexivity|].
  split; [rewrite Hp; reflexivity|].
  split; [rewrite Hn; reflexivity|].
  split; [exact Ha|].
  apply Hf. discriminate.
Defined.

(** The claim of C5 as it was stated fails on seven episodes: the grid is
    not made of the six episodes after the hero, it starts with the hero
    and leaves the seventh episode out. *)
Lemma home_grid_counterexample :
  homeLatest sevenEpisodes = Some (episodeOf "7" 7)
  /\ homeRecent sevenEpisodes <> firstn 6 (skipn 1 sevenEpisodes)
  /\ In (episodeOf "7" 7) (homeRecent sevenEpisodes)
  /\ ~ In (episodeOf "1" 1) (homeRecent sevenEpisodes).
Proof.
  split; [reflexivity|].
  split; [vm_compute; discriminate|].
  split; [left; reflexivity|].
  intro H. vm_compute in H. intuition discriminate.
Qed.

(** ** Escaping in the templates *)

(** C1: the list of recent episodes in the side bar writes the title of an
    episode as it is, where the hero, the cards and the heading of the
    detail page write it escaped: the title [<b>Hi</b>] of a feed item
    reaches the side bar, and through it the home page and every detail
    page, with its markup. *)
Theorem sidebar_title_unescaped (parseDate : jsstring -> option Z)
  (literal : template -> nat -> jsstring) :
  let ep := parseEpisode parseDate markupTitleItem in
  title ep = str "<b>Hi</b>"
  /\ sidebarItem ep
     = indent10 ++ str "<li><a href=" ++ dq ++ str "episodes/7.html" ++ dq
       ++ str ">7. <b>Hi</b></a></li>" ++ indent10
  /\ sidebarHTML literal [ep]
     = literal T_sidebar 0 ++ sidebarItem ep ++ literal T_sidebar 1
  /\ numberPrefix ep ++ escapeHtml (title ep) = str "7. &lt;b&gt;Hi&lt;/b&gt;"
  /\ (forall (eps : list Episode) (e : Episode),
         In e (firstn 10 eps) ->
         exists pre post,
           sidebarHTML literal eps
           = pre ++ str ">" ++ numberPrefix e ++ title e ++ str "</a></li>"
             ++ post).
Proof.
  intro ep.
  split; [vm_compute; reflexivity|].
  split; [vm_compute; reflexivity|].
  split; [unfold sidebarHTML, slice0; cbn [firstn map concat];
          rewrite app_nil_r; reflexivity|].
  split; [vm_compute; reflexivity|].
  intros eps e He. unfold sidebarHTML, slice0.
  apply in_split in He. destruct He as [l1 [l2 ->]].
  rewrite map_app, concat_app. cbn [map concat].
  exists (literal T_sidebar 0 ++ concat (map sidebarItem l1)
          ++ indent10 ++ str "<li><a href=" ++ dq ++ str "episodes/"
          ++ episode e ++ str ".html" ++ dq).
  exists (indent10 ++ concat (map sidebarItem l2) ++ literal T_sidebar 1).
  unfold sidebarItem. rewrite <- !app_assoc. reflexivity.
Qed.

(** ** Scanning *)

Lemma replaceG_skip (m : jsstring -> option nat) (rep a b : jsstring) :
  replaceG m rep (length a) (a ++ b) = replaceG m rep 0 b.
Proof.
  induction a as [|c a IH]; [reflexivity|]. exact IH.
Qed.

Lemma replaceG_id (m : jsstring -> option nat) (rep o : jsstring) :
  (forall i, m (skipn i o) = None) -> replaceG m rep 0 o = o.
Proof.
  induction o as [|c o IH]; intro H; [reflexivity|].
  cbn [replaceG]. pose proof (H 0) as H0. cbn [skipn] in H0. rewrite H0.
  f_equal. apply IH. intro i. exact (H (S i)).
Qed.

Lemma replaceG_empty_In (m : jsstring -> option nat) (x : N) (s : jsstring) :
  forall k, In x (replaceG m [] k s) -> In x s.
Proof.
  induction s as [|c s IH]; intros k H; [exact H|].
  cbn [replaceG] in H. destruct k as [|k].
  - destruct (m (c :: s)) as [[|j]|].
    + destruct H as [H|H]; [left; exact H|right; exact (IH 0 H)].
    + right. exact (IH j H).
    + destruct H as [H|H]; [left; exact H|right; exact (IH 0 H)].
  - right. exact (IH k H).
Qed.

Lemma search_here (A : Type) (m : jsstring -> option A) (s : jsstring)
  (a : A) : m s = Some a -> search m s = Some a.
Proof.
  intro H. destruct s; cbn [search]; rewrite H; reflexivity.
Qed.

Lemma search_skip (A : Type) (m : jsstring -> option A) (a rest : jsstring) :
  (forall i, i < length a -> m (skipn i (a ++ rest)) = None) ->
  search m (a ++ rest) = search m rest.
Proof.
  induction a as [|c a IH]; intro H; [reflexivity|].
  cbn [app search].
  pose proof (H 0 (Nat.lt_0_succ _)) as H0. cbn [skipn app] in H0.
  rewrite H0. apply IH. intros i Hi. apply (H (S i)). cbn [length]. lia.
Qed.

Lemma search_found (A : Type) (m : jsstring -> option A) (s : jsstring)
  (a : A) : search m s = Some a -> exists i, m (skipn i s) = Some a.
Proof.
  induction s as [|c s IH]; cbn [search]; intro H.
  - exists 0. cbn [skipn]. destruct (m []); [exact H|discriminate].
  - destruct (m (c :: s)) eqn:E.
    + exists 0. cbn [skipn]. congruence.
    + destruct (IH H) as [i Hi]. exists (S i). exact Hi.
Qed.

Lemma strip_prefix_split (eqc : N -> N -> bool) (p s r : jsstring) :
  strip_prefix eqc p s = Some r ->
  exists o, s = o ++ r /\ Forall2 (fun a c => eqc a c = true) p o.
Proof.
  revert s. induction p as [|a p IH]; intros s H; cbn [strip_prefix] in H.
  - injection H as <-. exists []. split; [reflexivity|constructor].
  - destruct s as [|c s]; [discriminate|].
    destruct (eqc a c) eqn:E; [|discriminate].
    destruct (IH s H) as [o [-> Ho]]. exists (c :: o).
    split; [reflexivity|]. constructor; assumption.
Qed.

Lemma strip_prefix_match (eqc : N -> N -> bool) (p o r : jsstring) :
  Forall2 (fun a c => eqc a c = true) p o ->
  strip_prefix eqc p (o ++ r) = Some r.
Proof.
  induction 1 as [|a c p o Hac _ IH]; [reflexivity|].
  cbn [app strip_prefix]. rewrite Hac. exact IH.
Qed.

Lemma strip_prefix_more (eqc : N -> N -> bool) (p s r q : jsstring) :
  strip_prefix eqc p s = Some r -> strip_prefix eqc p (s ++ q) = Some (r ++ q).
Proof.
  intro H. destruct (strip_prefix_split eqc p s r H) as [o [-> Ho]].
  rewrite <- app_assoc. apply strip_prefix_match. exact Ho.
Qed.

Lemma lazy_until_split (eqc : N -> N -> bool) (close s cap rest : jsstring) :
  lazy_until eqc close s = Some (cap, rest) ->
  exists c, s = cap ++ c ++ rest
            /\ Forall2 (fun a x => eqc a x = true) close c
            /\ none_in eqc close cap (c ++ rest).
Proof.
  revert cap. induction s as [|x s IH]; intros cap H; cbn [lazy_until] in H.
  - destruct (strip_prefix eqc close []) as [r|] eqn:E; [|discriminate].
    injection H as <- <-.
    destruct (strip_prefix_split eqc close [] r E) as [c [Hc Hcl]].
    exists c. split; [exact Hc|]. split; [exact Hcl|].
    intros i Hi. cbn [length] in Hi. lia.
  - destruct (strip_prefix eqc close (x :: s)) as [r|] eqn:E.
    + injection H as <- <-.
      destruct (strip_prefix_split eqc close (x :: s) r E) as [c [Hc Hcl]].
      exists c. split; [exact Hc|]. split; [exact Hcl|].
      intros i Hi. cbn [length] in Hi. lia.
    + destruct (lazy_until eqc close s) as [[cap' rest']|] eqn:El;
        [|discriminate].
      injection H as <- <-.
      destruct (IH cap' eq_refl) as [c [Hs [Hcl Hno]]].
      exists c. split; [cbn [app]; congruence|]. split; [exact Hcl|].
      intros [|i] Hi.
      * cbn [skipn app]. rewrite <- Hs. exact E.
      * cbn [skipn app]. apply Hno. cbn [length] in Hi. lia.
Qed.

Lemma lazy_until_here (eqc : N -> N -> bool) (close s rest : jsstring) :
  strip_prefix eqc close s = Some rest ->
  lazy_until eqc close s = Some ([], rest).
Proof.
  intro H. destruct s; cbn [lazy_until]; rewrite H; reflexivity.
Qed.

Lemma lazy_until_found (eqc : N -> N -> bool) (close body c rest : jsstring) :
  none_in eqc close body (c ++ rest) ->
  strip_prefix eqc close (c ++ rest) = Some rest ->
  lazy_until eqc close (body ++ c ++ rest) = Some (body, rest).
Proof.
  intros Hb Hc. induction body as [|x body IH].
  - apply lazy_until_here. exact Hc.
  - pose proof (Hb 0 (Nat.lt_0_succ _)) as H0. cbn [skipn app] in H0.
    cbn [app lazy_until]. rewrite H0. rewrite IH; [reflexivity|].
    intros i Hi. apply (Hb (S i)). cbn [length]. lia.
Qed.

Lemma lazy_until_absent (eqc : N -> N -> bool) (close s : jsstring) :
  nowhere eqc close s -> lazy_until eqc close s = None.
Proof.
  induction s as [|x s IH]; intro H; cbn [lazy_until];
    pose proof (H 0) as H0; cbn [skipn] in H0; rewrite H0; [reflexivity|].
  rewrite IH; [reflexivity|]. intro i. exact (H (S i)).
Qed.

Lemma nowhere_skipn (eqc : N -> N -> bool) (p s : jsstring) (k : nat) :
  nowhere eqc p s -> nowhere eqc p (skipn k s).
Proof.
  intros H i. rewrite skipn_skipn. apply H.
Qed.

Lemma takeWhile_until (p : N -> bool) (a : jsstring) (c : N) (r : jsstring) :
  Forall (fun x => p x = true) a -> p c = false ->
  dropWhile p (a ++ c :: r) = c :: r.
Proof.
  intros Ha Hc. induction Ha as [|x a Hx _ IH]; cbn [app dropWhile].
  - rewrite Hc. reflexivity.
  - rewrite Hx. exact IH.
Qed.

(** ** Extraction and normalisation *)

Lemma search_none (A : Type) (m : jsstring -> option A) (s : jsstring) :
  (forall i, m (skipn i s) = None) -> search m s = None.
Proof.
  induction s as [|c t IH]; intro H; cbn [search];
    pose proof (H 0) as H0; cbn [skipn] in H0; rewrite H0.
  - reflexivity.
  - apply IH. intro i. exact (H (S i)).
Qed.

Lemma eq_ci_lt (x : N) : eq_ci c_lt x = true -> x = c_lt.
Proof.
  unfold eq_ci. change (upper c_lt) with 60%N. unfold upper, in_range, c_lt.
  intro H. apply N.eqb_eq in H.
  destruct ((97 <=? x)%N && (x <=? 122)%N) eqn:E; [|congruence].
  apply andb_prop in E. destruct E as [E1 E2].
  apply N.leb_le in E1, E2. lia.
Qed.



Lemma In_skipn (A : Type) (x : A) (i : nat) (l : list A) :
  In x (skipn i l) -> In x l.
Proof.
  intro H. rewrite <- (firstn_skipn i l). apply in_or_app. right. exact H.
Qed.




(** *** The number in front of a title *)

Lemma takeWhile_dropWhile (p : N -> bool) (s : jsstring) :
  takeWhile p s ++ dropWhile p s = s.
Proof.
  induction s as [|c t IH]; [reflexivity|]. cbn [takeWhile dropWhile].
  destruct (p c); [cbn [app]; rewrite IH|]; reflexivity.
Qed.

Lemma takeWhile_all (p : N -> bool) (s : jsstring) :
  forallb p (takeWhile p s) = true.
Proof.
  induction s as [|c t IH]; [reflexivity|]. cbn [takeWhile].
  destruct (p c) eqn:E; [|reflexivity]. cbn [forallb]. rewrite E. exact IH.
Qed.

Lemma takeWhile_stop (p : N -> bool) (ds r : jsstring) (c : N) :
  forallb p ds = true -> p c = false ->
  takeWhile p (ds ++ c :: r) = ds /\ dropWhile p (ds ++ c :: r) = c :: r.
Proof.
  intros Hds Hc. induction ds as [|d ds IH]; cbn [app takeWhile dropWhile].
  - rewrite Hc. auto.
  - cbn [forallb] in Hds. apply andb_prop in Hds. destruct Hds as [Hd Hds].
    rewrite Hd. destruct (IH Hds) as [-> ->]. auto.
Qed.

Lemma leading_number_intro (ds rest : jsstring) :
  ds <> [] -> forallb is_digit ds = true ->
  leading_number (ds ++ str "." ++ rest) = Some (ds, rest).
Proof.
  intros Hne Hds. unfold leading_number.
  change (str "." ++ rest) with (46%N :: rest).
  destruct (@takeWhile_stop is_digit ds rest 46%N Hds eq_refl) as [-> ->].
  destruct ds; [contradiction|reflexivity].
Qed.

Lemma leading_number_elim (t ds rest : jsstring) :
  leading_number t = Some (ds, rest) ->
  ds <> [] /\ forallb is_digit ds = true /\ t = ds ++ str "." ++ rest.
Proof.
  unfold leading_number. intro H.
  pose proof (takeWhile_dropWhile is_digit t) as Ht.
  pose proof (takeWhile_all is_digit t) as Ha.
  destruct (takeWhile is_digit t) as [|d q]; [discriminate|].
  destruct (dropWhile is_digit t) as [|c r]; [discriminate|].
  destruct (c =? 46)%N eqn:E; [|discriminate].
  apply N.eqb_eq in E. subst c. injection H as <- <-.
  split; [discriminate|]. split; [exact Ha|]. symmetry. exact Ht.
Qed.

(** *** The content of an element *)

Lemma nowhere_app (eqc : N -> N -> bool) (p a b : jsstring) :
  nowhere eqc p (a ++ b) -> nowhere eqc p b.
Proof.
  intro H. pose proof (nowhere_skipn eqc p (a ++ b) (length a) H) as Hs.
  rewrite skipn_app, skipn_all, Nat.sub_diag in Hs. exact Hs.
Qed.

(** Without a closing tag of the name there is no content. *)
Lemma getTagContent_unclosed (xml tag : jsstring) :
  nowhere eq_ci (str "</" ++ tag ++ str ">") xml -> getTagContent xml tag = [].
Proof.
  intro H. unfold getTagContent.
  rewrite search_none; [reflexivity|].
  intro i. unfold tag_at.
  destruct (strip_prefix eq_ci (c_lt :: tag) (skipn i xml)) as [r|] eqn:E;
    [|reflexivity].
  destruct (strip_prefix_split _ _ _ _ E) as [o [Ho _]].
  pose proof (takeWhile_dropWhile not_gt r) as Hr.
  destruct (dropWhile not_gt r) as [|g body]; [reflexivity|].
  rewrite lazy_until_absent; [reflexivity|].
  apply (nowhere_app eq_ci _ (firstn i xml ++ o ++ takeWhile not_gt r ++ [g])).
  rewrite <- !app_assoc. cbn [app]. rewrite Hr, <- Ho, firstn_skipn.
  exact H.
Qed.

(** The content of an element before which the tag name does not
    occur. *)
Lemma getTagContent_first (tag pre o attrs body c post : jsstring) :
  none_in eq_ci (c_lt :: tag) pre
    (o ++ attrs ++ [c_gt] ++ body ++ c ++ post) ->
  same_ci (c_lt :: tag) o ->
  ~ In c_gt attrs ->
  same_ci (str "</" ++ tag ++ str ">") c ->
  none_in eq_ci (str "</" ++ tag ++ str ">") body (c ++ post) ->
  getTagContent (pre ++ o ++ attrs ++ [c_gt] ++ body ++ c ++ post) tag
  = trim body.
Proof.
  intros Hpre Ho Hattrs Hc Hbody. unfold getTagContent.
  rewrite search_skip.
  2:{ intros i Hi. unfold tag_at. rewrite (Hpre i Hi). reflexivity. }
  rewrite (search_here _ _ _ body); [reflexivity|].
  unfold tag_at. rewrite (strip_prefix_match eq_ci _ o _ Ho).
  change ([c_gt] ++ body ++ c ++ post) with (c_gt :: body ++ c ++ post).
  rewrite (takeWhile_until not_gt attrs c_gt).
  - rewrite (lazy_until_found eq_ci _ body c post Hbody
               (strip_prefix_match eq_ci _ c post Hc)).
    reflexivity.
  - apply Forall_forall. intros x Hx. unfold not_gt.
    apply negb_true_iff, N.eqb_neq. intros ->. exact (Hattrs Hx).
  - reflexivity.
Qed.

(** C6: when the title starts with digits and a full stop, the display
    title is what follows them and the white space after them, and the
    digits are the episode number when the item has no element
    [itunes:episode] (no closing tag of that name); a title without such
    a start is kept as it is.  The content of an element
    [itunes:episode] is the episode number when it is not empty and the
    text [<itunes:episode] does not occur before the element.  It is not
    the episode number when a tag with a longer name that begins so
    stands before it: with [itunes:episodeType] before [itunes:episode],
    the order of the sample feed of the guide for podcasts, the pattern
    of [getTagContent] takes the longer tag for the opening tag, and the
    episode number is the text from the type to the number. *)
Theorem episode_number_fallback (parseDate : jsstring -> option Z) :
  (forall item : jsstring,
      let raw := getCDATA (getTagContent item (str "title")) in
      let own := getTagContent item (str "itunes:episode") in
      let ep := parseEpisode parseDate item in
      fullTitle ep = raw
      /\ (nowhere eq_ci (str "</itunes:episode>") item -> own = [])
      /\ (forall ds rest,
             ds <> [] -> forallb is_digit ds = true ->
             raw = ds ++ str "." ++ rest ->
             title ep = dropWhile is_space rest
             /\ (own = [] -> episode ep = ds)
             /\ (nowhere eq_ci (str "</itunes:episode>") item ->
                 episode ep = ds))
      /\ (own <> [] -> episode ep = own)
      /\ ((forall ds rest,
              ds <> [] -> forallb is_digit ds = true ->
              raw <> ds ++ str "." ++ rest) ->
          title ep = raw /\ (own = [] -> episode ep = [])))
  /\ (forall pre o attrs body c post : jsstring,
         none_in eq_ci (str "<itunes:episode") pre
           (o ++ attrs ++ [c_gt] ++ body ++ c ++ post) ->
         same_ci (str "<itunes:episode") o ->
         ~ In c_gt attrs ->
         same_ci (str "</itunes:episode>") c ->
         none_in eq_ci (str "</itunes:episode>") body (c ++ post) ->
         trim body <> [] ->
         episode (parseEpisode parseDate
                    (pre ++ o ++ attrs ++ [c_gt] ++ body ++ c ++ post))
         = trim body)
  /\ (let e := parseEpisode parseDate (str "<title>42. Recovery Talk</title>")
      in episode e = str "42" /\ title e = str "Recovery Talk")
  /\ (let e := parseEpisode parseDate typeOnlyItem
      in episode e = str "12" /\ title e = str "Bonus")
  /\ (let e := parseEpisode parseDate episodeTypeItem in
      getTagContent episodeTypeItem (str "itunes:episode")
      = str "full</itunes:episodeType><itunes:episode>4"
      /\ episode e = str "full</itunes:episodeType><itunes:episode>4"
      /\ episode e <> str "4"
      /\ title e = str "Mt. Hood").
Proof.
  split.
  { intros item raw own ep.
    assert (Hown : nowhere eq_ci (str "</itunes:episode>") item -> own = []).
    { intro H. apply getTagContent_unclosed. exact H. }
    split; [reflexivity|].
    split; [exact Hown|].
    split.
    { intros ds rest Hne Hds Hraw.
      pose proof (leading_number_intro ds rest Hne Hds) as Hl.
      rewrite <- Hraw in Hl.
      assert (He : own = [] -> episode ep = ds).
      { unfold ep, parseEpisode. cbn [episode]. fold raw own.
        rewrite Hl. intros ->. reflexivity. }
      split.
      { unfold ep, parseEpisode. cbn [title]. fold raw.
        unfold dropLeadingNumber. rewrite Hl. reflexivity. }
      split; [exact He|]. intro H. exact (He (Hown H)). }
    split.
    { intro Hne. unfold ep, parseEpisode. cbn [episode]. fold own.
      destruct own; [contradiction|reflexivity]. }
    intro Hno.
    assert (Hl : leading_number raw = None).
    { destruct (leading_number raw) as [[ds rest]|] eqn:E; [|reflexivity].
      apply leading_number_elim in E. destruct E as [Hne [Hds Hraw]].
      exfalso. exact (Hno ds rest Hne Hds Hraw). }
    unfold ep, parseEpisode. cbn [title episode]. fold raw own.
    unfold dropLeadingNumber. rewrite Hl.
    split; [reflexivity|]. intros ->. reflexivity. }
  split.
  { intros pre o attrs body c post Hpre Ho Hattrs Hc Hbody Hne.
    unfold parseEpisode. cbn [episode].
    rewrite (getTagContent_first (str "itunes:episode") pre o attrs body c
               post Hpre Ho Hattrs Hc Hbody).
    destruct (trim body); [contradiction|reflexivity]. }
  split; [split; vm_compute; reflexivity|].
  split; [split; vm_compute; reflexivity|].
  cbv zeta. split; [vm_compute; reflexivity|].
  split; [vm_compute; reflexivity|].
  split; [vm_compute; discriminate|vm_compute; reflexivity].
Qed.

(** The fallback at the item of the specification and at an item that
    has the type of the episode and no number, and an item with a number
    of its own and a title without one. *)
Lemma episode_number_fallback_witness :
  (nowhere eq_ci (str "</itunes:episode>") recoveryTalkItem
   /\ getCDATA (getTagContent recoveryTalkItem (str "title"))
      = str "42" ++ str "." ++ str " Recovery Talk"
   /\ title (parseEpisode (fun _ => None) recoveryTalkItem)
      = str "Recovery Talk"
   /\ episode (parseEpisode (fun _ => None) recoveryTalkItem) = str "42")
  /\ (nowhere eq_ci (str "</itunes:episode>") typeOnlyItem
      /\ getCDATA (getTagContent typeOnlyItem (str "title"))
         = str "12" ++ str "." ++ str " Bonus"
      /\ title (parseEpisode (fun _ => None) typeOnlyItem) = str "Bonus"
      /\ episode (parseEpisode (fun _ => None) typeOnlyItem) = str "12")
  /\ (trim (str "9") <> []
      /\ episode (parseEpisode (fun _ => None) numberedItem) = str "9"
      /\ title (parseEpisode (fun _ => None) numberedItem) = str "Intro").
Proof.
  destruct (episode_number_fallback (fun _ => None)) as [Hgen [Helem _]].
  assert (fallback : forall item ds rest,
             nowhere eq_ci (str "</itunes:episode>") item ->
             ds <> [] -> forallb is_digit ds = true ->
             getCDATA (getTagContent item (str "title"))
             = ds ++ str "." ++ rest ->
             title (parseEpisode (fun _ => None) item)
             = dropWhile is_space rest
             /\ episode (parseEpisode (fun _ => None) item) = ds).
  { intros item ds rest Hno Hne Hds Hraw.
    destruct (Hgen item) as [_ [_ [H _]]].
    destruct (H ds rest Hne Hds Hraw) as [Ht [_ He]].
    split; [exact Ht|exact (He Hno)]. }
  split; [|split].
  - assert (Hno : nowhere eq_ci (str "</itunes:episode>") recoveryTalkItem).
    { intro i.
      do 47 (destruct i as [|i]; [vm_compute; reflexivity|]).
      destruct i; reflexivity. }
    assert (Hraw : getCDATA (getTagContent recoveryTalkItem (str "title"))
                   = str "42" ++ str "." ++ str " Recovery Talk")
      by (vm_compute; reflexivity).
    destruct (fallback recoveryTalkItem (str "42") (str " Recovery Talk")
                Hno ltac:(discriminate) eq_refl Hraw) as [Ht He].
    split; [exact Hno|]. split; [exact Hraw|]. split; [exact Ht|exact He].
  - assert (Hno : nowhere eq_ci (str "</itunes:episode>") typeOnlyItem).
    { intro i.
      do 71 (destruct i as [|i]; [vm_compute; reflexivity|]).
      destruct i; reflexivity. }
    assert (Hraw : getCDATA (getTagContent typeOnlyItem (str "title"))
                   = str "12" ++ str "." ++ str " Bonus")
      by (vm_compute; reflexivity).
    destruct (fallback typeOnlyItem (str "12") (str " Bonus")
                Hno ltac:(discriminate) eq_refl Hraw) as [Ht He].
    split; [exact Hno|]. split; [exact Hraw|]. split; [exact Ht|exact He].
  - assert (Hne : trim (str "9") <> []) by (vm_compute; discriminate).
    split; [exact Hne|]. split.
    + change numberedItem
        with (str "<title>Intro</title>" ++ str "<itunes:episode" ++ []
              ++ [c_gt] ++ str "9" ++ str "</itunes:episode>" ++ []).
      change (str "9") with (trim (str "9")) at 2.
      apply Helem.
      * intros i Hi.
        do 20 (destruct i as [|i]; [vm_compute; reflexivity|]).
        vm_compute in Hi. lia.
      * unfold same_ci. repeat constructor.
      * intros [].
      * unfold same_ci. repeat constructor.
      * intros i Hi. destruct i as [|i]; [vm_compute; reflexivity|].
        vm_compute in Hi. lia.
      * exact Hne.
    + destruct (Hgen numberedItem) as [_ [_ [_ [_ Hkeep]]]].
      apply Hkeep. intros ds rest Hds Hdig Heq.
      destruct ds as [|d ds]; [contradiction|].
      vm_compute in Heq. injection Heq as Hd _. subst d.
      vm_compute in Hdig. discriminate Hdig.
Defined.

(** *** The items of a feed *)

Lemma strip_prefix_same (p o r : jsstring) :
  same_ci p o -> strip_prefix eq_ci p (o ++ r) = Some r.
Proof.
  induction 1 as [|a c p o Hac _ IH]; [reflexivity|].
  cbn [app strip_prefix]. rewrite Hac. exact IH.
Qed.

Lemma same_ci_length (p o : jsstring) : same_ci p o -> length o = length p.
Proof. intro H. symmetry. exact (Forall2_length H). Qed.

Lemma no_open_no_item (a rest : jsstring) :
  no_open_in a rest -> no_item_in a rest.
Proof.
  intros H i Hi. unfold item_at. rewrite (H i Hi). reflexivity.
Qed.

Lemma items_from_skip (a rest : jsstring) :
  items_from (length a) (a ++ rest) = items_from 0 rest.
Proof.
  induction a as [|c a IH]; [reflexivity|]. exact IH.
Qed.

Lemma items_skip_chunk (a rest : jsstring) :
  no_item_in a rest -> items_from 0 (a ++ rest) = items_from 0 rest.
Proof.
  induction a as [|c a IH]; intro H; [reflexivity|].
  cbn [app items_from].
  pose proof (H 0 (Nat.lt_0_succ _)) as H0. cbn [skipn app] in H0.
  rewrite H0. apply IH. intros i Hi.
  apply (H (S i)). cbn [length]. lia.
Qed.

Lemma lazy_until_first (close body c rest : jsstring) :
  (forall i, i < length body ->
             strip_prefix eq_ci close (skipn i (body ++ c ++ rest)) = None) ->
  strip_prefix eq_ci close (c ++ rest) = Some rest ->
  lazy_until eq_ci close (body ++ c ++ rest) = Some (body, rest).
Proof.
  intros Hb Hc. induction body as [|x body IH].
  - apply lazy_until_here. exact Hc.
  - pose proof (Hb 0 (Nat.lt_0_succ _)) as H0. cbn [skipn app] in H0.
    cbn [app lazy_until]. rewrite H0. rewrite IH; [reflexivity|].
    intros i Hi. apply (Hb (S i)). cbn [length]. lia.
Qed.

(** One plain item: the fragment between the first opening tag and the
    first closing tag after it, and the search goes on behind that. *)
Lemma items_step (pre o body c post : jsstring) :
  no_open_in pre (o ++ body ++ c ++ post) ->
  same_ci item_open o -> same_ci item_close c ->
  no_close_in body (c ++ post) ->
  getAllItems (pre ++ o ++ body ++ c ++ post) = body :: getAllItems post.
Proof.
  intros Hpre Ho Hc Hbody. unfold getAllItems.
  rewrite (@items_skip_chunk pre _ (@no_open_no_item pre _ Hpre)).
  assert (Hat : item_at (o ++ body ++ c ++ post)
                = Some (body, S (5 + length body + 7))).
  { unfold item_at. rewrite (@strip_prefix_same item_open o _ Ho).
    rewrite (@lazy_until_first item_close body c post Hbody
               (@strip_prefix_same item_close c post Hc)).
    reflexivity. }
  pose proof (@same_ci_length _ _ Ho) as Lo.
  pose proof (@same_ci_length _ _ Hc) as Lc.
  destruct o as [|o1 o]; [discriminate|].
  cbn [app items_from]. cbn [app] in Hat. rewrite Hat.
  cbv beta match. f_equal.
  replace (5 + length body + 7) with (length (o ++ body ++ c)).
  - replace (o ++ body ++ c ++ post) with ((o ++ body ++ c) ++ post)
      by (rewrite <- !app_assoc; reflexivity).
    apply items_from_skip.
  - rewrite !length_app. cbn [length] in Lo.
    change (length item_open) with 6 in Lo.
    change (length item_close) with 7 in Lc. lia.
Qed.

Lemma items_none (xml : jsstring) :
  (forall i, strip_prefix eq_ci item_open (skipn i xml) = None) ->
  getAllItems xml = [].
Proof.
  intro H. unfold getAllItems.
  rewrite <- (app_nil_r xml). rewrite items_skip_chunk; [reflexivity|].
  apply no_open_no_item. intros i _. rewrite app_nil_r. apply H.
Qed.

Lemma eq_ci_gt (x : N) : eq_ci c_gt x = true -> x = c_gt.
Proof.
  unfold eq_ci. change (upper c_gt) with 62%N. unfold upper, in_range, c_gt.
  intro H. apply N.eqb_eq in H.
  destruct ((97 <=? x)%N && (x <=? 122)%N) eqn:E; [|congruence].
  apply andb_prop in E. destruct E as [E1 E2].
  apply N.leb_le in E1, E2. lia.
Qed.

Lemma skipn_inside (A : Type) (i : nat) (a rest : list A) :
  i < length a ->
  exists x t, skipn i a = x :: t /\ skipn i (a ++ rest) = x :: t ++ rest.
Proof.
  intro Hi. rewrite skipn_app.
  replace (i - length a) with 0 by lia. cbn [skipn].
  destruct (skipn i a) as [|x t] eqn:E.
  - exfalso. pose proof (length_skipn i a) as L. rewrite E in L.
    cbn [length] in L. lia.
  - exists x, t. auto.
Qed.

(** Text without [<] holds no opening tag. *)
Lemma no_open_plain (a rest : jsstring) : ~ In c_lt a -> no_open_in a rest.
Proof.
  intros H i Hi.
  destruct (skipn_inside _ i a rest Hi) as [x [t [Ex ->]]].
  change item_open with (c_lt :: str "item>"). cbn [strip_prefix].
  destruct (eq_ci c_lt x) eqn:E; [|reflexivity].
  apply eq_ci_lt in E. subst x. exfalso. apply H.
  apply (@In_skipn _ c_lt i). rewrite Ex. left. reflexivity.
Qed.

(** An opening tag that starts inside [body] lies inside [body] when a
    [<] follows [body]. *)
Lemma no_open_before_lt (body t : jsstring) :
  (forall i, strip_prefix eq_ci item_open (skipn i body) = None) ->
  no_open_in body (c_lt :: t).
Proof.
  intros H i Hi.
  destruct (skipn_inside _ i body (c_lt :: t) Hi) as [x [b [Ex ->]]].
  specialize (H i). rewrite Ex in H. revert H.
  change item_open with [60; 105; 116; 101; 109; 62]%N.
  destruct b as [|x2 [|x3 [|x4 [|x5 [|x6 b]]]]];
    cbn [app strip_prefix];
    repeat match goal with
           | |- context [eq_ci ?a ?v] =>
               lazymatch v with
               | c_lt => change (eq_ci a c_lt) with false
               | _ => destruct (eq_ci a v)
               end
           end; auto; intro H; discriminate H.
Qed.

Ltac eval_eq_ci :=
  repeat match goal with
         | |- context [eq_ci ?a ?v] =>
             first [ is_var v; destruct (eq_ci a v) eqn:?
                   | let r := eval vm_compute in (eq_ci a v) in
                     change (eq_ci a v) with r ]
         end.

(** An item whose opening tag has attributes is passed over. *)
Lemma items_attributed (attrs body post : jsstring) :
  attrs <> [] -> ~ In c_gt attrs -> ~ In c_lt attrs ->
  (forall i, strip_prefix eq_ci item_open (skipn i body) = None) ->
  getAllItems (str "<item" ++ attrs ++ str ">" ++ body ++ item_close ++ post)
  = getAllItems post.
Proof.
  intros Hne Hgt Hlt Hbody. unfold getAllItems.
  rewrite items_skip_chunk.
  rewrite items_skip_chunk.
  rewrite items_skip_chunk.
  rewrite items_skip_chunk.
  rewrite items_skip_chunk.
  - reflexivity.
  - apply no_open_no_item. intros i Hi.
    change item_close with [60; 47; 105; 116; 101; 109; 62]%N in *.
    change item_open with [60; 105; 116; 101; 109; 62]%N.
    do 7 (destruct i as [|i];
          [cbn [skipn app strip_prefix]; eval_eq_ci; reflexivity|]).
    cbn [length] in Hi. lia.
  - apply no_open_no_item. apply no_open_before_lt. exact Hbody.
  - apply no_open_no_item. intros i Hi.
    change item_open with [60; 105; 116; 101; 109; 62]%N.
    destruct i as [|i]; [|cbn [str length map] in Hi; cbn in Hi; lia].
    cbn [skipn app strip_prefix str]. reflexivity.
  - apply no_open_no_item. apply no_open_plain. exact Hlt.
  - apply no_open_no_item. intros i Hi.
    destruct attrs as [|a attrs]; [contradiction|].
    change (str "<item") with [60; 105; 116; 101; 109]%N in *.
    change item_open with [60; 105; 116; 101; 109; 62]%N.
    destruct i as [|i].
    { cbn [skipn app strip_prefix]. eval_eq_ci; [|reflexivity].
      exfalso. apply Hgt. left. apply eq_ci_gt. assumption. }
    do 4 (destruct i as [|i];
          [cbn [skipn app strip_prefix]; eval_eq_ci; reflexivity|]).
    cbn [length] in Hi. lia.
Qed.

(** C10: [getAllItems] gives, in the order of the document, the fragments
    between an opening tag [<item>] without attributes and the first
    closing tag after it (the letters of both in either case): a document
    with no such opening tag has no items, a plain item is followed by the
    items of the rest of the document, and an item whose opening tag has
    attributes is passed over and adds no fragment. *)
Theorem getAllItems_plain_items (parseDate : jsstring -> option Z) :
  (forall xml,
      (forall i, strip_prefix eq_ci item_open (skipn i xml) = None) ->
      getAllItems xml = [])
  /\ (forall pre o body c post,
         no_open_in pre (o ++ body ++ c ++ post) ->
         same_ci item_open o -> same_ci item_close c ->
         no_close_in body (c ++ post) ->
         getAllItems (pre ++ o ++ body ++ c ++ post)
         = body :: getAllItems post)
  /\ (forall attrs body post,
         attrs <> [] -> ~ In c_gt attrs -> ~ In c_lt attrs ->
         (forall i, strip_prefix eq_ci item_open (skipn i body) = None) ->
         getAllItems
           (str "<item" ++ attrs ++ str ">" ++ body ++ item_close ++ post)
         = getAllItems post
         /\ feedEpisodes parseDate
              (str "<item" ++ attrs ++ str ">" ++ body ++ item_close ++ post)
            = feedEpisodes parseDate post)
  /\ getAllItems
       (str "<item someattr=" ++ dq ++ str "x" ++ dq
        ++ str ">A</item><item>B</item><item>C</item>")
     = [str "B"; str "C"].
Proof.
  split; [exact items_none|].
  split; [exact items_step|].
  split; [|vm_compute; reflexivity].
  intros attrs body post Hne Hgt Hlt Hbody.
  pose proof (items_attributed attrs body post Hne Hgt Hlt Hbody) as H.
  split; [exact H|]. unfold feedEpisodes. rewrite H. reflexivity.
Qed.

(** A feed of an item with an attribute and a plain item. *)
Lemma getAllItems_plain_items_witness :
  getAllItems (str "<item" ++ str " a='x'" ++ str ">" ++ str "<title>A</title>"
               ++ item_close
               ++ ([] ++ item_open ++ str "<title>B</title>" ++ item_close
                   ++ []))
  = [str "<title>B</title>"].
Proof.
  destruct (getAllItems_plain_items (fun _ => None))
    as [Hnone [Hstep [Hattr _]]].
  rewrite (fun Hne Hgt Hlt Hbody =>
             proj1 (Hattr (str " a='x'") (str "<title>A</title>")
                      ([] ++ item_open ++ str "<title>B</title>"
                       ++ item_close ++ []) Hne Hgt Hlt Hbody)).
  - rewrite Hstep.
    + rewrite (Hnone []); [reflexivity|].
      intros [|i]; reflexivity.
    + intros i Hi. cbn [length] in Hi. lia.
    + unfold same_ci. repeat constructor.
    + unfold same_ci. repeat constructor.
    + intros i Hi.
      do 16 (destruct i as [|i]; [vm_compute; reflexivity|]).
      vm_compute in Hi. lia.
  - discriminate.
  - intro H. vm_compute in H. intuition discriminate.
  - intro H. vm_compute in H. intuition discriminate.
  - intro i.
    do 17 (destruct i as [|i]; [vm_compute; reflexivity|]).
    reflexivity.
Defined.

(** * Further properties *)

(** ** Markup tags *)

Lemma dropWhile_head (p : N -> bool) (s : jsstring) (c : N) (t : jsstring) :
  dropWhile p s = c :: t -> p c = false.
Proof.
  induction s as [|x s IH]; cbn [dropWhile]; [discriminate|].
  destruct (p x) eqn:E; [exact IH|]. intro H. injection H as <- _. exact E.
Qed.

Lemma markup_at_elim (s : jsstring) (n : nat) :
  markup_at s = Some n ->
  exists run rest,
    s = c_lt :: run ++ c_gt :: rest
    /\ run <> [] /\ forallb not_gt run = true /\ n = S (S (length run)).
Proof.
  destruct s as [|c r]; [discriminate|]. cbn [markup_at].
  destruct (c =? c_lt)%N eqn:Ec; [|discriminate].
  apply N.eqb_eq in Ec. subst c.
  change (fun x => negb (x =? c_gt)%N) with not_gt.
  pose proof (takeWhile_dropWhile not_gt r) as Hr.
  pose proof (takeWhile_all not_gt r) as Ha.
  destruct (takeWhile not_gt r) as [|a run] eqn:Et; [discriminate|].
  destruct (dropWhile not_gt r) as [|g rest] eqn:Ed; [discriminate|].
  intro H. injection H as <-.
  pose proof (dropWhile_head not_gt r g rest Ed) as Hg.
  unfold not_gt in Hg. apply negb_false_iff, N.eqb_eq in Hg. subst g.
  exists (a :: run), rest. rewrite Hr.
  split; [reflexivity|]. split; [discriminate|]. split; [exact Ha|reflexivity].
Qed.

Lemma markup_at_intro (run rest : jsstring) :
  run <> [] -> forallb not_gt run = true ->
  markup_at (c_lt :: run ++ c_gt :: rest) = Some (S (S (length run))).
Proof.
  intros Hne Hrun. cbn [markup_at]. rewrite N.eqb_refl.
  change (fun x => negb (x =? c_gt)%N) with not_gt.
  destruct (takeWhile_stop not_gt run rest c_gt Hrun eq_refl) as [-> ->].
  destruct run; [contradiction|reflexivity].
Qed.

Lemma markup_at_more (x q : jsstring) (n : nat) :
  markup_at x = Some n -> markup_at (x ++ q) = Some n.
Proof.
  intro H. destruct (markup_at_elim x n H) as [run [rest [-> [Hne [Hr ->]]]]].
  cbn [app]. rewrite <- app_assoc. cbn [app].
  apply markup_at_intro; assumption.
Qed.

Lemma markup_at_other (c : N) (t : jsstring) :
  c <> c_lt -> markup_at (c :: t) = None.
Proof.
  intro H. cbn [markup_at]. apply N.eqb_neq in H. rewrite H. reflexivity.
Qed.

Lemma tagfree_cons (c : N) (o : jsstring) :
  markup_at (c :: o) = None -> tagfree o -> tagfree (c :: o).
Proof.
  intros Hc Ho [|i]; [exact Hc|exact (Ho i)].
Qed.

Lemma tagfree_skipn (o : jsstring) (k : nat) : tagfree o -> tagfree (skipn k o).
Proof.
  intros H i. rewrite skipn_skipn. apply H.
Qed.

Lemma tagfree_prefix (p q : jsstring) : tagfree (p ++ q) -> tagfree p.
Proof.
  intros H i. destruct (markup_at (skipn i p)) as [n|] eqn:E; [|reflexivity].
  destruct (Nat.le_gt_cases i (length p)) as [Hi|Hi].
  - apply (markup_at_more _ q) in E.
    specialize (H i). rewrite skipn_app in H.
    replace (i - length p) with 0 in H by lia. cbn [skipn] in H. congruence.
  - rewrite skipn_all2 in E by lia. discriminate.
Qed.

Lemma dropWhile_suffix (p : N -> bool) (s : jsstring) :
  exists k, dropWhile p s = skipn k s.
Proof.
  induction s as [|c s [k IH]]; [exists 0; reflexivity|].
  cbn [dropWhile]. destruct (p c); [exists (S k); exact IH|exists 0; reflexivity].
Qed.

Lemma no_gt_dropWhile (o : jsstring) :
  ~ In c_gt o -> dropWhile not_gt o = [].
Proof.
  induction o as [|c o IH]; intro H; [reflexivity|]. cbn [dropWhile].
  unfold not_gt at 1. destruct (c =? c_gt)%N eqn:E.
  - apply N.eqb_eq in E. exfalso. apply H. left. exact E.
  - cbn [negb]. apply IH. intro Hin. apply H. right. exact Hin.
Qed.

Lemma dropWhile_nil_no_gt (o : jsstring) :
  dropWhile not_gt o = [] -> ~ In c_gt o.
Proof.
  induction o as [|c o IH]; cbn [dropWhile]; [intros _ []|].
  unfold not_gt at 1. destruct (c =? c_gt)%N eqn:E; cbn [negb];
    [discriminate|].
  intros H [Hc|Hin]; [apply N.eqb_neq in E; congruence|exact (IH H Hin)].
Qed.

Lemma stripTags_cons_keep (c : N) (t : jsstring) :
  markup_at (c :: t) = None -> stripTags (c :: t) = c :: stripTags t.
Proof.
  intro H. unfold stripTags. cbn [replaceG]. rewrite H. reflexivity.
Qed.

Lemma stripTags_tag (run rest : jsstring) :
  run <> [] -> forallb not_gt run = true ->
  stripTags (c_lt :: run ++ c_gt :: rest) = stripTags rest.
Proof.
  intros Hne Hrun. unfold stripTags. cbn [replaceG].
  rewrite (markup_at_intro run rest Hne Hrun). cbn [app].
  replace (run ++ c_gt :: rest) with ((run ++ [c_gt]) ++ rest)
    by (rewrite <- app_assoc; reflexivity).
  replace (S (length run)) with (length (run ++ [c_gt]))
    by (rewrite length_app; cbn [length]; lia).
  apply replaceG_skip.
Qed.

Lemma stripTags_tagfree_bounded (n : nat) :
  forall s, length s <= n -> tagfree (stripTags s).
Proof.
  induction n as [|n IH]; intros s Hs.
  - destruct s; [|cbn [length] in Hs; lia]. intros [|i]; reflexivity.
  - destruct s as [|c t]; [intros [|i]; reflexivity|].
    cbn [length] in Hs.
    destruct (markup_at (c :: t)) as [k|] eqn:E.
    + destruct (markup_at_elim _ _ E) as [run [rest [Heq [Hne [Hrun _]]]]].
      rewrite Heq, (stripTags_tag run rest Hne Hrun).
      apply IH. injection Heq as _ ->. rewrite length_app in Hs.
      cbn [length] in Hs. lia.
    + rewrite (stripTags_cons_keep c t E).
      apply tagfree_cons; [|apply IH; lia].
      destruct (N.eq_dec c c_lt) as [->|Hc]; [|apply markup_at_other; exact Hc].
      destruct (markup_at (c_lt :: stripTags t)) as [k|] eqn:Ek;
        [|reflexivity].
      exfalso.
      destruct (markup_at_elim _ _ Ek) as [run [rest [Heq [Hne [Hrun _]]]]].
      injection Heq as Heq.
      cbn [markup_at] in E. rewrite N.eqb_refl in E.
      change (fun x => negb (x =? c_gt)%N) with not_gt in E.
      destruct (dropWhile not_gt t) as [|g rest'] eqn:Ed.
      * apply dropWhile_nil_no_gt in Ed. apply Ed.
        apply (replaceG_empty_In markup_at c_gt t 0).
        fold (stripTags t). rewrite Heq. apply in_or_app. right. left.
        reflexivity.
      * destruct (takeWhile not_gt t) as [|a r] eqn:Et; [|discriminate].
        destruct t as [|x t']; [discriminate|].
        cbn [takeWhile] in Et. destruct (not_gt x) eqn:Ex; [discriminate|].
        assert (Hx : x = c_gt).
        { unfold not_gt in Ex. apply negb_false_iff, N.eqb_eq in Ex.
          exact Ex. }
        subst x.
        rewrite stripTags_cons_keep in Heq
          by (apply markup_at_other; discriminate).
        destruct run as [|a run]; [contradiction|].
        injection Heq as <- _. cbn [forallb] in Hrun. discriminate.
Qed.

Lemma trim_tagfree (o : jsstring) : tagfree o -> tagfree (trim o).
Proof.
  intro H. unfold trim.
  destruct (dropWhile_suffix is_space o) as [k Hk]. rewrite Hk.
  pose proof (tagfree_skipn o k H) as H1.
  set (a := skipn k o) in *.
  destruct (dropWhile_suffix is_space (rev a)) as [j Hj]. rewrite Hj.
  apply (tagfree_prefix _ (rev (firstn j (rev a)))).
  rewrite <- rev_app_distr, firstn_skipn, rev_involutive. exact H1.
Qed.

(** X1: after the removal of the markup tags no markup tag is left (no
    [<] that is followed by a character other than [>] and later by a
    [>]), so the removal changes nothing when it is done again; and
    [getCDATA] of a text without a CDATA section is free of tags. *)
Theorem stripTags_leaves_no_tag (text : jsstring) :
  tagfree (stripTags text)
  /\ stripTags (stripTags text) = stripTags text
  /\ (search cdata_at text = None ->
      getCDATA text = trim (stripTags text) /\ tagfree (getCDATA text)).
Proof.
  assert (H : tagfree (stripTags text))
    by (apply (stripTags_tagfree_bounded (length text)); lia).
  split; [exact H|].
  split; [apply replaceG_id; exact H|].
  intro Hc. unfold getCDATA. rewrite Hc. fold (stripTags text).
  split; [reflexivity|apply trim_tagfree; exact H].
Qed.

Lemma stripTags_leaves_no_tag_witness :
  search cdata_at (str "<p>Hi <b>all</b> <> </p>") = None
  /\ getCDATA (str "<p>Hi <b>all</b> <> </p>") = str "Hi all <>"
  /\ tagfree (getCDATA (str "<p>Hi <b>all</b> <> </p>")).
Proof.
  assert (Hc : search cdata_at (str "<p>Hi <b>all</b> <> </p>") = None)
    by (vm_compute; reflexivity).
  destruct (stripTags_leaves_no_tag (str "<p>Hi <b>all</b> <> </p>"))
    as [_ [_ H]].
  destruct (H Hc) as [H1 H2].
  split; [exact Hc|]. split; [vm_compute; reflexivity|exact H2].
Defined.

(** ** Entities *)

Lemma replaceAll_tokens (p r : jsstring) (f g : N -> jsstring) (s : jsstring) :
  (forall c rest, c <> c_amp ->
                  replaceAll p r (f c ++ rest) = g c ++ replaceAll p r rest) ->
  ~ In c_amp s -> replaceAll p r (flat_map f s) = flat_map g s.
Proof.
  intros H Hs. induction s as [|c s IH]; [reflexivity|].
  cbn [flat_map]. rewrite H, IH; [reflexivity| |].
  - intro Hin. apply Hs. right. exact Hin.
  - intro Hc. apply Hs. left. exact Hc.
Qed.

Lemma replaceAll_miss (p r : jsstring) (c : N) (rest : jsstring) :
  lit_at p (c :: rest) = None ->
  replaceAll p r (c :: rest) = c :: replaceAll p r rest.
Proof.
  intro H. unfold replaceAll. cbn [replaceG]. rewrite H. reflexivity.
Qed.

Lemma lit_at_amp_miss (p : jsstring) (c : N) (rest : jsstring) :
  c <> c_amp -> lit_at (c_amp :: p) (c :: rest) = None.
Proof.
  intro H. unfold lit_at. cbn [strip_prefix].
  destruct (c_amp =? c)%N eqn:E; [|reflexivity].
  apply N.eqb_eq in E. congruence.
Qed.

Ltac token_step :=
  intros c rest Hc; unfold entityToken;
  destruct (c =? c_lt)%N;
    [|destruct (c =? c_gt)%N; [|destruct (c =? c_dq)%N]];
  [unfold replaceAll; cbn; reflexivity ..
  |cbn [app]; apply replaceAll_miss; apply (lit_at_amp_miss _ c rest Hc)].

Lemma token_nbsp (l g q : bool) :
  forall c rest, c <> c_amp ->
    replaceAll (str "&nbsp;") (str " ") (entityToken l g q c ++ rest)
    = entityToken l g q c ++ replaceAll (str "&nbsp;") (str " ") rest.
Proof. destruct l, g, q; token_step. Qed.

Lemma token_amp (l g q : bool) :
  forall c rest, c <> c_amp ->
    replaceAll (str "&amp;") [c_amp] (entityToken l g q c ++ rest)
    = entityToken l g q c ++ replaceAll (str "&amp;") [c_amp] rest.
Proof. destruct l, g, q; token_step. Qed.

Lemma token_lt (g q : bool) :
  forall c rest, c <> c_amp ->
    replaceAll (str "&lt;") [c_lt] (entityToken true g q c ++ rest)
    = entityToken false g q c ++ replaceAll (str "&lt;") [c_lt] rest.
Proof. destruct g, q; token_step. Qed.

Lemma token_gt (q : bool) :
  forall c rest, c <> c_amp ->
    replaceAll (str "&gt;") [c_gt] (entityToken false true q c ++ rest)
    = entityToken false false q c ++ replaceAll (str "&gt;") [c_gt] rest.
Proof. destruct q; token_step. Qed.

Lemma token_apos (q : bool) :
  forall c rest, c <> c_amp ->
    replaceAll (str "&#39;") apos (entityToken false false q c ++ rest)
    = entityToken false false q c ++ replaceAll (str "&#39;") apos rest.
Proof. destruct q; token_step. Qed.

Lemma token_quot :
  forall c rest, c <> c_amp ->
    replaceAll (str "&quot;") dq (entityToken false false true c ++ rest)
    = entityToken false false false c ++ replaceAll (str "&quot;") dq rest.
Proof. token_step. Qed.

Lemma escapeChar_token (c : N) :
  c <> c_amp -> escapeChar c = entityToken true true true c.
Proof.
  intro H. unfold escapeChar, entityToken. apply N.eqb_neq in H. rewrite H.
  reflexivity.
Qed.

Lemma entityToken_plain (s : jsstring) :
  flat_map (entityToken false false false) s = s.
Proof.
  induction s as [|c s IH]; [reflexivity|]. cbn [flat_map]. rewrite IH.
  unfold entityToken.
  destruct (c =? c_lt)%N eqn:El; [apply N.eqb_eq in El; subst; reflexivity|].
  destruct (c =? c_gt)%N eqn:Eg; [apply N.eqb_eq in Eg; subst; reflexivity|].
  destruct (c =? c_dq)%N eqn:Eq; [apply N.eqb_eq in Eq; subst; reflexivity|].
  reflexivity.
Qed.

Lemma no_lt_tagfree (o : jsstring) : ~ In c_lt o -> tagfree o.
Proof.
  intros H i. destruct (skipn i o) as [|c t] eqn:E; [reflexivity|].
  apply markup_at_other. intros ->. apply H.
  apply (In_skipn _ c_lt i). rewrite E. left. reflexivity.
Qed.

(** X2: [stripHtml] undoes [escapeHtml] on every text without an
    ampersand; with an ampersand it need not, because the entities are
    decoded one after the other and the decoded [&amp;] can start another
    entity: the escaped form of the text [&lt;] comes back as [<]. *)
Theorem stripHtml_escapeHtml (text : jsstring) :
  (~ In c_amp text -> stripHtml (escapeHtml text) = text)
  /\ stripHtml (escapeHtml (str "&lt;")) = str "<".
Proof.
  split; [|vm_compute; reflexivity].
  intro H. unfold stripHtml.
  rewrite (replaceG_id markup_at [] (escapeHtml text)).
  2:{ apply no_lt_tagfree. intro Hin. rewrite escapeHtml_chars in Hin.
      apply in_flat_map in Hin. destruct Hin as [c [_ Hc]].
      destruct (escapeChar_clean c c_lt Hc) as [Hne _]. congruence. }
  rewrite escapeHtml_chars.
  assert (Ht : flat_map escapeChar text
               = flat_map (entityToken true true true) text).
  { clear - H. induction text as [|c t IH]; [reflexivity|].
    cbn [flat_map]. rewrite IH, escapeChar_token; [reflexivity| |].
    - intro Hc. apply H. left. exact Hc.
    - intro Hin. apply H. right. exact Hin. }
  rewrite Ht.
  rewrite (replaceAll_tokens _ _ _ _ text (token_nbsp true true true) H).
  rewrite (replaceAll_tokens _ _ _ _ text (token_amp true true true) H).
  rewrite (replaceAll_tokens _ _ _ _ text (token_lt true true) H).
  rewrite (replaceAll_tokens _ _ _ _ text (token_gt true) H).
  rewrite (replaceAll_tokens _ _ _ _ text (token_apos true) H).
  rewrite (replaceAll_tokens _ _ _ _ text token_quot H).
  apply entityToken_plain.
Qed.

Lemma stripHtml_escapeHtml_witness :
  ~ In c_amp (str "a < b > 'c'")
  /\ stripHtml (escapeHtml (str "a < b > 'c'")) = str "a < b > 'c'".
Proof.
  assert (H : ~ In c_amp (str "a < b > 'c'")).
  { intro H. vm_compute in H. intuition discriminate. }
  split; [exact H|].
  exact (proj1 (stripHtml_escapeHtml (str "a < b > 'c'")) H).
Defined.

(** ** Extraction *)



Lemma last_cons_app (t : jsstring) (c : N) : rev (c :: rev t) = t ++ [c].
Proof. cbn [rev]. rewrite rev_involutive. reflexivity. Qed.

Lemma trim_trimmed (s : jsstring) : trimmed (trim s).
Proof.
  unfold trim.
  set (a := dropWhile is_space s).
  set (b := dropWhile is_space (rev a)).
  split.
  - intros c t H.
    (* the first character of [rev b] is the last of [b], a suffix of
       [rev a], whose last character is the first of [a] *)
    destruct (dropWhile_suffix is_space (rev a)) as [k Hk]. fold b in Hk.
    assert (Hb : rev a = firstn k (rev a) ++ b)
      by (rewrite Hk; symmetry; apply firstn_skipn).
    apply (f_equal (@rev N)) in Hb. rewrite rev_involutive, rev_app_distr in Hb.
    rewrite H in Hb. cbn [app] in Hb.
    unfold a in Hb. apply (dropWhile_head is_space s c _ Hb).
  - intros c t H.
    apply (f_equal (@rev N)) in H. rewrite rev_involutive, rev_app_distr in H.
    cbn [rev app] in H. unfold b in H.
    apply (dropWhile_head is_space (rev a) c _ H).
Qed.

(** X4: the content that [getTagContent] returns never starts and never
    ends with white space, whatever the document. *)
Theorem getTagContent_trimmed (xml tag : jsstring) :
  trimmed (getTagContent xml tag).
Proof.
  unfold getTagContent. destruct (search (tag_at tag) xml) as [c|].
  - apply trim_trimmed.
  - split; intros c t H; [discriminate|].
    destruct t; discriminate.
Qed.

(** X5: for a text that holds a CDATA section, [getCDATA] gives the
    content of the first section without the white space around it, and
    drops what stands before and after the section. *)
Theorem getCDATA_section (pre body post : jsstring) :
  none_in N.eqb (str "<![CDATA[") pre
    (str "<![CDATA[" ++ body ++ str "]]>" ++ post) ->
  none_in N.eqb (str "]]>") body (str "]]>" ++ post) ->
  getCDATA (pre ++ str "<![CDATA[" ++ body ++ str "]]>" ++ post) = trim body.
Proof.
  intros Hpre Hbody. unfold getCDATA.
  rewrite search_skip.
  2:{ intros i Hi. unfold cdata_at. rewrite (Hpre i Hi). reflexivity. }
  rewrite (search_here _ _ _ body); [reflexivity|].
  unfold cdata_at.
  rewrite (strip_prefix_match N.eqb (str "<![CDATA[") (str "<![CDATA[")).
  2:{ repeat constructor. }
  rewrite (lazy_until_found N.eqb _ body (str "]]>") post Hbody).
  - reflexivity.
  - apply strip_prefix_match. repeat constructor.
Qed.

Lemma getCDATA_section_witness :
  getCDATA (str "x " ++ str "<![CDATA[" ++ str " <b>Hi</b> " ++ str "]]>"
            ++ str " y")
  = str "<b>Hi</b>".
Proof.
  rewrite getCDATA_section.
  - vm_compute. reflexivity.
  - intros i Hi. do 2 (destruct i as [|i]; [vm_compute; reflexivity|]).
    vm_compute in Hi. lia.
  - intros i Hi. do 11 (destruct i as [|i]; [vm_compute; reflexivity|]).
    vm_compute in Hi. lia.
Defined.

Lemma takeWhile_Forall (p : N -> bool) (s : jsstring) :
  Forall (fun x => p x = true) (takeWhile p s).
Proof.
  induction s as [|c s IH]; cbn [takeWhile]; [constructor|].
  destruct (p c) eqn:E; constructor; assumption.
Qed.

Lemma attr_value_plain (attr r v : jsstring) :
  attr_value attr r = Some v -> Forall (fun x => not_quote x = true) v.
Proof.
  unfold attr_value.
  destruct (strip_prefix eq_ci (attr ++ str "=") r) as [[|q w]|];
    try discriminate.
  destruct (is_quote q); [|discriminate].
  destruct (dropWhile not_quote w); [discriminate|].
  intro H. injection H as <-. apply takeWhile_Forall.
Qed.

Lemma attr_scan_plain (attr r v : jsstring) :
  attr_scan attr r = Some v -> Forall (fun x => not_quote x = true) v.
Proof.
  induction r as [|c r IH]; cbn [attr_scan]; [discriminate|].
  destruct (c =? c_gt)%N; [discriminate|].
  destruct (attr_scan attr r) as [w|].
  - intro H. injection H as <-. apply IH. reflexivity.
  - destruct (is_space c); [apply attr_value_plain|discriminate].
Qed.

Lemma getAttr_plain (xml tag attr : jsstring) :
  Forall (fun x => not_quote x = true) (getAttr xml tag attr).
Proof.
  unfold getAttr.
  destruct (search (attr_at tag attr) xml) as [v|] eqn:E; [|constructor].
  destruct (search_found _ _ _ _ E) as [i Hi]. unfold attr_at in Hi.
  destruct (strip_prefix eq_ci (c_lt :: tag) (skipn i xml)); [|discriminate].
  exact (attr_scan_plain _ _ _ Hi).
Qed.

(** X6: the value that [getAttr] returns holds no quote of either kind,
    so the address of the audio file and the address of the image of an
    episode, which the templates write into quoted attributes as they
    are, cannot end the attribute. *)
Theorem getAttr_no_quote (parseDate : jsstring -> option Z)
  (xml tag attr item : jsstring) (x : N) :
  (In x (getAttr xml tag attr) -> x <> c_dq /\ x <> c_apos)
  /\ (In x (audioUrl (parseEpisode parseDate item)) ->
      x <> c_dq /\ x <> c_apos)
  /\ (In x (episodeImage (parseEpisode parseDate item)) ->
      x <> c_dq /\ x <> c_apos).
Proof.
  assert (H : forall v, Forall (fun y => not_quote y = true) v ->
                        In x v -> x <> c_dq /\ x <> c_apos).
  { intros v Hv Hin. rewrite Forall_forall in Hv. specialize (Hv x Hin).
    unfold not_quote, is_quote in Hv.
    apply negb_true_iff, orb_false_iff in Hv. destruct Hv as [H1 H2].
    apply N.eqb_neq in H1, H2. auto. }
  split; [apply H, getAttr_plain|].
  split; apply H; cbn [audioUrl episodeImage parseEpisode]; apply getAttr_plain.
Qed.

Lemma getAttr_no_quote_witness :
  In 97%N (getAttr (str "<enclosure url='a>b' />") (str "enclosure")
             (str "url"))
  /\ 97%N <> c_dq.
Proof.
  assert (H : In 97%N (getAttr (str "<enclosure url='a>b' />")
                         (str "enclosure") (str "url")))
    by (vm_compute; auto).
  split; [exact H|].
  exact (proj1 (proj1 (getAttr_no_quote (fun _ => None)
                         (str "<enclosure url='a>b' />") (str "enclosure")
                         (str "url") [] 97%N) H)).
Defined.

(** *** The fragments of the items *)

Lemma item_at_split (s cap : jsstring) (n : nat) :
  item_at s = Some (cap, n) ->
  exists o c rest,
    s = o ++ cap ++ c ++ rest
    /\ same_ci item_open o /\ same_ci item_close c
    /\ none_in eq_ci item_close cap (c ++ rest).
Proof.
  unfold item_at.
  destruct (strip_prefix eq_ci item_open s) as [r|] eqn:E; [|discriminate].
  destruct (lazy_until eq_ci item_close r) as [[cap' rest]|] eqn:El;
    [|discriminate].
  intro H. injection H as <- _.
  destruct (strip_prefix_split _ _ _ _ E) as [o [-> Ho]].
  destruct (lazy_until_split _ _ _ _ _ El) as [c [-> [Hc Hno]]].
  exists o, c, rest. auto.
Qed.

Lemma items_from_enclosed (s : jsstring) :
  forall k f, In f (items_from k s) ->
  exists pre o c post,
    s = pre ++ o ++ f ++ c ++ post
    /\ same_ci item_open o /\ same_ci item_close c
    /\ none_in eq_ci item_close f (c ++ post).
Proof.
  induction s as [|x s IH]; intros k f H; [destruct H|].
  cbn [items_from] in H.
  assert (Hlater : forall j, In f (items_from j s) ->
            exists pre o c post,
              x :: s = pre ++ o ++ f ++ c ++ post
              /\ same_ci item_open o /\ same_ci item_close c
              /\ none_in eq_ci item_close f (c ++ post)).
  { intros j Hj. destruct (IH j f Hj) as [pre [o [c [post [-> Hr]]]]].
    exists (x :: pre), o, c, post. split; [reflexivity|exact Hr]. }
  destruct k as [|k]; [|exact (Hlater k H)].
  destruct (item_at (x :: s)) as [[cap [|j]]|] eqn:E;
    try exact (Hlater 0 H).
  destruct H as [<-|H]; [|exact (Hlater j H)].
  destruct (item_at_split _ _ _ E) as [o [c [rest [Hs Hr]]]].
  exists [], o, c, rest. split; [exact Hs|exact Hr].
Qed.

Lemma none_in_inside (eqc : N -> N -> bool) (p a rest : jsstring) :
  p <> [] -> none_in eqc p a rest -> nowhere eqc p a.
Proof.
  intros Hp H i.
  destruct (strip_prefix eqc p (skipn i a)) as [r|] eqn:E; [|reflexivity].
  destruct (Nat.lt_ge_cases i (length a)) as [Hi|Hi].
  - apply (strip_prefix_more _ _ _ _ rest) in E.
    specialize (H i Hi). rewrite skipn_app in H.
    replace (i - length a) with 0 in H by lia. cbn [skipn] in H. congruence.
  - rewrite skipn_all2 in E by lia. destruct p; [contradiction|discriminate].
Qed.

(** X7: every fragment that [getAllItems] returns stands in the document
    between an opening tag [<item>] and a closing tag [</item>] (the
    letters in either case), and no closing tag starts inside it: a
    fragment never runs over the end of its item. *)
Theorem getAllItems_enclosed (xml f : jsstring) :
  In f (getAllItems xml) ->
  (exists pre o c post,
      xml = pre ++ o ++ f ++ c ++ post
      /\ same_ci item_open o /\ same_ci item_close c)
  /\ nowhere eq_ci item_close f.
Proof.
  intro H. destruct (items_from_enclosed xml 0 f H)
    as [pre [o [c [post [Hx [Ho [Hc Hno]]]]]]].
  split; [exists pre, o, c, post; auto|].
  apply (none_in_inside eq_ci item_close f (c ++ post)); [discriminate|exact Hno].
Qed.

Lemma getAllItems_enclosed_witness :
  In (str "<title>B</title>")
     (getAllItems (str "<rss><Item><title>B</title></ITEM></rss>"))
  /\ nowhere eq_ci item_close (str "<title>B</title>").
Proof.
  assert (H : In (str "<title>B</title>")
                (getAllItems (str "<rss><Item><title>B</title></ITEM></rss>")))
    by (vm_compute; auto).
  split; [exact H|].
  exact (proj2 (getAllItems_enclosed _ _ H)).
Defined.

(** *** Numbers *)

Lemma id_at_digits (s ds : jsstring) :
  id_at s = Some ds -> ds <> [] /\ forallb is_digit ds = true.
Proof.
  unfold id_at.
  destruct (strip_prefix N.eqb (str "episodes/") s) as [r|]; [|discriminate].
  pose proof (takeWhile_all is_digit r) as Ha.
  destruct (takeWhile is_digit r) as [|d q]; [discriminate|].
  intro H. injection H as <-. split; [discriminate|exact Ha].
Qed.

(** X8: the identifier that [parseEpisode] reads from the address of the
    audio file is made of decimal digits only (it may be empty), and so is
    the episode number whenever the item has no number of its own. *)
Theorem parseEpisode_numeric (parseDate : jsstring -> option Z)
  (item : jsstring) :
  let ep := parseEpisode parseDate item in
  forallb is_digit (buzzsproutId ep) = true
  /\ (getTagContent item (str "itunes:episode") = [] ->
      forallb is_digit (episode ep) = true).
Proof.
  intro ep. split.
  - unfold ep, parseEpisode. cbn [buzzsproutId].
    destruct (search id_at (getAttr item (str "enclosure") (str "url")))
      as [ds|] eqn:E; [|reflexivity].
    destruct (search_found _ _ _ _ E) as [i Hi].
    exact (proj2 (id_at_digits _ _ Hi)).
  - intro H. unfold ep, parseEpisode. cbn [episode]. rewrite H. cbn [truthy].
    destruct (leading_number (getCDATA (getTagContent item (str "title"))))
      as [[ds rest]|] eqn:E; [|reflexivity].
    exact (proj1 (proj2 (leading_number_elim _ _ _ E))).
Qed.

Lemma parseEpisode_numeric_witness :
  getTagContent recoveryTalkItem (str "itunes:episode") = []
  /\ forallb is_digit (episode (parseEpisode (fun _ => None) recoveryTalkItem))
     = true.
Proof.
  assert (H : getTagContent recoveryTalkItem (str "itunes:episode") = [])
    by (vm_compute; reflexivity).
  split; [exact H|].
  exact (proj2 (parseEpisode_numeric (fun _ => None) recoveryTalkItem) H).
Defined.

(** ** Durations *)

(** X9: a duration of [n] whole seconds, [n] not negative and below
    2^53, is shown in whole minutes rounded down: the hours [h] and
    minutes [m] that are shown satisfy [m < 60] and
    [3600 h + 60 m <= n < 3600 h + 60 m + 60], the hours are shown exactly
    when [h] is positive, and the seconds are never shown.  From 2^53 on
    the digits are rounded to a Number first, and the minutes shown need
    not be those of the digits: for 9007199254741019, whose minutes are
    36, they are 37. *)
Theorem formatDuration_minutes :
  (forall (s : jsstring) (n : Z),
      parseInt10 s = Fin n -> (0 <= n < 2 ^ 53)%Z ->
      exists h m : Z,
        (0 <= h)%Z /\ (0 <= m < 60)%Z
        /\ (3600 * h + 60 * m <= n < 3600 * h + 60 * m + 60)%Z
        /\ formatDuration s
           = if (0 <? h)%Z then showZ h ++ str "h " ++ showZ m ++ str "m"
             else showZ m ++ str " min")
  /\ (2 ^ 53 <= 9007199254741019
      /\ 3600 * 2501999792983 + 60 * 36 <= 9007199254741019
         < 3600 * 2501999792983 + 60 * 36 + 60)%Z
  /\ formatDuration (str "9007199254741019") = str "2501999792983h 37m".
Proof.
  split; [|split; [vm_compute; intuition discriminate|vm_compute; reflexivity]].
  intros s n Hs Hn. exists (n / 3600)%Z, (Z.rem n 3600 / 60)%Z.
  rewrite (formatDuration_exact s n Hs) by lia.
  rewrite Z.rem_mod_nonneg by lia.
  pose proof (Z.div_mod n 3600 ltac:(lia)) as H1.
  pose proof (Z.mod_pos_bound n 3600 ltac:(lia)) as H2.
  pose proof (Z.div_mod (n mod 3600) 60 ltac:(lia)) as H3.
  pose proof (Z.mod_pos_bound (n mod 3600) 60 ltac:(lia)) as H4.
  assert (H5 : (0 <= n / 3600)%Z) by (apply Z.div_pos; lia).
  assert (H6 : (0 <= n mod 3600 / 60)%Z) by (apply Z.div_pos; lia).
  assert (H7 : (n mod 3600 / 60 < 60)%Z)
    by (apply Z.div_lt_upper_bound; lia).
  split; [exact H5|]. split; [lia|]. split; [lia|].
  assert (E : (0 <? n / 3600)%Z = (3600 <=? n)%Z).
  { destruct (3600 <=? n)%Z eqn:E.
    - apply Z.leb_le in E. apply Z.ltb_lt. apply Z.div_str_pos. lia.
    - apply Z.leb_gt in E. apply Z.ltb_ge. rewrite Z.div_small; lia. }
  rewrite E. reflexivity.
Qed.

Lemma formatDuration_minutes_witness :
  parseInt10 (str "3725") = Fin 3725%Z
  /\ exists h m : Z,
       (3600 * h + 60 * m <= 3725 < 3600 * h + 60 * m + 60)%Z
       /\ formatDuration (str "3725")
          = if (0 <? h)%Z then showZ h ++ str "h " ++ showZ m ++ str "m"
            else showZ m ++ str " min".
Proof.
  assert (H : parseInt10 (str "3725") = Fin 3725%Z)
    by (vm_compute; reflexivity).
  split; [exact H|].
  destruct (proj1 formatDuration_minutes (str "3725") 3725%Z H)
    as [h [m [_ [_ [Hb Hf]]]]].
  { split; [lia|reflexivity]. }
  exists h, m. split; [exact Hb|exact Hf].
Defined.

(** ** The sort, once more *)

Lemma sort_in_order (A : Type) (cmp : A -> A -> number) (l : list A) :
  StronglySorted (fun a b => after (cmp a b) = false) l -> sort cmp l = l.
Proof.
  induction 1 as [|x t Ht IH Hx]; [reflexivity|].
  cbn [sort fold_right]. fold (sort cmp t). rewrite IH.
  destruct t as [|y t']; [reflexivity|]. cbn [insert].
  inversion Hx as [|? ? Hxy _]; subst. rewrite Hxy. reflexivity.
Qed.

Lemma StronglySorted_weaken (A : Type) (P : A -> Prop) (R S : A -> A -> Prop)
  (l : list A) :
  (forall a b, P a -> P b -> R a b -> S a b) ->
  Forall P l -> StronglySorted R l -> StronglySorted S l.
Proof.
  intros HRS HP H. induction H as [|x t Ht IH Hx]; [constructor|].
  inversion HP as [|? ? Px Pt]; subst.
  constructor; [apply IH; exact Pt|].
  rewrite Forall_forall in *. intros y Hy. apply HRS; auto.
Qed.

Lemma after_greater (a b : Episode) :
  numLt (epNum b) (epNum a) -> after (compareEpisodes a b) = false.
Proof.
  intro H. destruct (after (compareEpisodes a b)) eqn:E; [|reflexivity].
  exfalso. apply compare_after in E. destruct E as [E|[E _]].
  - exact (numLt_irrefl _ (numLt_trans _ _ _ H E)).
  - rewrite E in H. exact (numLt_irrefl _ H).
Qed.

Lemma byNumberThenDate_before (a b : Episode) :
  validDate a -> validDate b -> byNumberThenDate a b ->
  after (compareEpisodes a b) = false.
Proof.
  unfold validDate, byNumberThenDate.
  intros Ha Hb [H|[E H]]; [exact (after_greater a b H)|].
  destruct (after (compareEpisodes a b)) eqn:Ea; [|reflexivity].
  exfalso. apply compare_after in Ea.
  destruct Ea as [L|[_ [ta [tb [Hta [Htb Hlt]]]]]].
  - rewrite E in L. exact (numLt_irrefl _ L).
  - specialize (H ta tb Hta Htb). lia.
Qed.

(** X10: a collection whose numbers decrease strictly is left as it is
    by the sort, whatever its dates; and when all publish dates are
    valid, sorting a sorted collection again changes nothing.  The numbers
    are the Numbers that [parseInt] gives for the number fields. *)
Theorem sortEpisodes_fixed (eps : list Episode) :
  (StronglySorted (fun a b => numLt (epNum b) (epNum a)) eps ->
   sortEpisodes eps = eps)
  /\ (Forall validDate eps ->
      sortEpisodes (sortEpisodes eps) = sortEpisodes eps).
Proof.
  split.
  - intro H. apply sort_in_order.
    apply (StronglySorted_weaken _ (fun _ => True)
             (fun a b => numLt (epNum b) (epNum a))).
    + intros a b _ _ Hab. exact (after_greater a b Hab).
    + apply Forall_forall. auto.
    + exact H.
  - intro Hv. apply sort_in_order.
    apply (StronglySorted_weaken _ validDate byNumberThenDate).
    + exact byNumberThenDate_before.
    + apply (Permutation_Forall (Permutation_sym (sort_perm _ _ eps))).
      exact Hv.
    + apply sortEpisodes_byNumberThenDate. exact Hv.
Qed.

Lemma sortEpisodes_fixed_witness :
  StronglySorted (fun a b => numLt (epNum b) (epNum a)) threeEpisodes
  /\ sortEpisodes threeEpisodes = threeEpisodes
  /\ Forall validDate datedEpisodes
  /\ sortEpisodes (sortEpisodes datedEpisodes) = sortEpisodes datedEpisodes.
Proof.
  assert (H : StronglySorted (fun a b => numLt (epNum b) (epNum a))
                threeEpisodes).
  { repeat constructor; vm_compute; reflexivity. }
  assert (Hv : Forall validDate datedEpisodes)
    by (repeat constructor; discriminate).
  split; [exact H|].
  split; [exact (proj1 (sortEpisodes_fixed threeEpisodes) H)|].
  split; [exact Hv|].
  exact (proj2 (sortEpisodes_fixed datedEpisodes) Hv).
Defined.

(** ** Neighbours *)

Lemma findIndex_from_first (A : Type) (p : A -> bool) (l : list A) :
  forall (i : nat) (k : Z) (x : A),
    nth_error l i = Some x -> p x = true ->
    (forall j y, j < i -> nth_error l j = Some y -> p y = false) ->
    findIndex_from p l k = (k + Z.of_nat i)%Z.
Proof.
  induction l as [|y t IH]; intros i k x Hi Hx Hbefore.
  - destruct i; discriminate.
  - cbn [findIndex_from]. destruct i as [|i].
    + injection Hi as ->. rewrite Hx. lia.
    + rewrite (Hbefore 0 y (Nat.lt_0_succ _) eq_refl).
      rewrite (IH i (k + 1)%Z x Hi Hx); [lia|].
      intros j z Hj Hz. apply (Hbefore (S j) z); [lia|exact Hz].
Qed.

Lemma findIndex_from_absent (A : Type) (p : A -> bool) (l : list A) (k : Z) :
  (forall y, In y l -> p y = false) -> findIndex_from p l k = (-1)%Z.
Proof.
  revert k. induction l as [|y t IH]; intros k H; [reflexivity|].
  cbn [findIndex_from]. rewrite (H y (or_introl eq_refl)).
  apply IH. intros z Hz. apply H. right. exact Hz.
Qed.

(** X11: the page of an episode takes its neighbours from the first
    episode of the collection that has the same number field, so that
    episodes that share a number all get the links of the first of them;
    for an episode whose number field occurs nowhere in the collection the
    previous link is the first episode of the collection and there is no
    next link. *)
Theorem epIndex_first_match (all : list Episode) (ep : Episode) :
  (forall i e,
      nth_error all i = Some e -> episode e = episode ep ->
      (forall j e', j < i -> nth_error all j = Some e' ->
                    episode e' <> episode ep) ->
      epIndex ep all = Z.of_nat i
      /\ prevEp ep all = nth_error all (S i)
      /\ nextEp ep all = newer all i)
  /\ ((forall e, In e all -> episode e <> episode ep) ->
      epIndex ep all = (-1)%Z
      /\ prevEp ep all = nth_error all 0
      /\ nextEp ep all = None).
Proof.
  split.
  - intros i e Hi He Hbefore.
    assert (Hidx : epIndex ep all = Z.of_nat i).
    { unfold epIndex, findIndex.
      rewrite (findIndex_from_first _ _ all i 0%Z e Hi); [lia| |].
      - apply eqs_eq. exact He.
      - intros j y Hj Hy. destruct (eqs (episode y) (episode ep)) eqn:E;
          [|reflexivity].
        apply eqs_eq in E. exfalso. exact (Hbefore j y Hj Hy E). }
    split; [exact Hidx|]. unfold prevEp, nextEp. rewrite Hidx. split.
    + replace (Z.of_nat i + 1)%Z with (Z.of_nat (S i)) by lia.
      apply index_nat.
    + destruct i as [|j]; [reflexivity|].
      replace (Z.of_nat (S j) - 1)%Z with (Z.of_nat j) by lia.
      apply index_nat.
  - intro H.
    assert (Hidx : epIndex ep all = (-1)%Z).
    { unfold epIndex, findIndex. apply findIndex_from_absent.
      intros y Hy. destruct (eqs (episode y) (episode ep)) eqn:E;
        [|reflexivity].
      apply eqs_eq in E. exfalso. exact (H y Hy E). }
    split; [exact Hidx|]. unfold prevEp, nextEp. rewrite Hidx.
    split; reflexivity.
Qed.

Lemma epIndex_first_match_witness :
  nth_error tiedEpisodes 0 = Some (episodeOf "5" 1)
  /\ episode (episodeOf "5" 1) = episode (episodeOf "5" 2)
  /\ prevEp (episodeOf "5" 2) tiedEpisodes = Some (undatedEpisode "5")
  /\ nextEp (episodeOf "5" 2) tiedEpisodes = None
  /\ prevEp (episodeOf "9" 9) tiedEpisodes = Some (episodeOf "5" 1).
Proof.
  destruct (epIndex_first_match tiedEpisodes (episodeOf "5" 2)) as [H _].
  destruct (H 0 (episodeOf "5" 1) eq_refl eq_refl) as [_ [Hp Hn]].
  { intros j e' Hj. lia. }
  destruct (epIndex_first_match tiedEpisodes (episodeOf "9" 9)) as [_ H'].
  destruct H' as [_ [Hp' _]].
  { intros e He. vm_compute in He.
    destruct He as [<-|[<-|[<-|[]]]]; vm_compute; discriminate. }
  split; [reflexivity|]. split; [reflexivity|].
  split; [rewrite Hp; reflexivity|].
  split; [rewrite Hn; reflexivity|rewrite Hp'; reflexivity].
Defined.

(** ** The build *)

Lemma strip_prefix_skipn (eqc : N -> N -> bool) (p s r : jsstring) :
  strip_prefix eqc p s = Some r -> r = skipn (length p) s.
Proof.
  revert s. induction p as [|a p IH]; intros s H; cbn [strip_prefix] in H.
  - injection H as <-. reflexivity.
  - destruct s as [|c s]; [discriminate|].
    destruct (eqc a c); [|discriminate]. exact (IH s H).
Qed.

Lemma channelXml_no_item (rssContent : jsstring) :
  nowhere N.eqb (str "<item>") rssContent -> channelXml rssContent = [].
Proof.
  intro H. unfold channelXml. rewrite search_none; [reflexivity|].
  intro i. unfold channel_at.
  destruct (strip_prefix N.eqb (str "<channel>") (skipn i rssContent))
    as [r|] eqn:E; [|reflexivity].
  apply strip_prefix_skipn in E. subst r.
  rewrite lazy_until_absent; [reflexivity|].
  apply nowhere_skipn, nowhere_skipn. exact H.
Qed.

(** X12: the title, the description, the author and the link of the
    podcast are never empty; and a document in which no opening tag
    [<item>] in small letters occurs - a feed without episodes, for one -
    gives the fixed defaults for all of them and no image, whatever its
    channel says. *)
Theorem podcastMetaOf_defaults (rssContent : jsstring) :
  metaTitle (podcastMetaOf rssContent) <> []
  /\ metaDescription (podcastMetaOf rssContent) <> []
  /\ metaAuthor (podcastMetaOf rssContent) <> []
  /\ metaLink (podcastMetaOf rssContent) <> []
  /\ (nowhere N.eqb (str "<item>") rssContent ->
      podcastMetaOf rssContent
      = {| metaTitle := str "Survivor Science";
           metaDescription := defaultDescription;
           metaAuthor := str "Will Schmierer";
           metaImage := [];
           metaLink := str "https://podcast.survivorscience.com" |}).
Proof.
  assert (Hor : forall a b, b <> [] -> or_else a b <> []).
  { intros [|x a] b Hb; [exact Hb|discriminate]. }
  unfold podcastMetaOf. cbn [metaTitle metaDescription metaAuthor metaLink].
  split; [apply Hor; discriminate|].
  split; [apply Hor; discriminate|].
  split; [apply Hor; discriminate|].
  split; [apply Hor; discriminate|].
  intro H. rewrite (channelXml_no_item rssContent H). reflexivity.
Qed.

Lemma podcastMetaOf_defaults_witness :
  nowhere N.eqb (str "<item>")
    (str "<channel><title>T</title></channel>")
  /\ metaTitle (podcastMetaOf (str "<channel><title>T</title></channel>"))
     = str "Survivor Science".
Proof.
  assert (H : nowhere N.eqb (str "<item>")
                (str "<channel><title>T</title></channel>")).
  { intro i. do 36 (destruct i as [|i]; [vm_compute; reflexivity|]).
    reflexivity. }
  split; [exact H|].
  destruct (podcastMetaOf_defaults (str "<channel><title>T</title></channel>"))
    as [_ [_ [_ [_ Hd]]]].
  rewrite (Hd H). reflexivity.
Defined.

(** *** The source of the feed *)

Lemma indexOf_from_first (x : jsstring) (pre post : list jsstring) (k : Z) :
  ~ In x pre ->
  indexOf_from x (pre ++ x :: post) k = (k + Z.of_nat (length pre))%Z.
Proof.
  revert k. induction pre as [|y pre IH]; intros k H; cbn [app indexOf_from].
  - rewrite (proj2 (eqs_eq x x) eq_refl). cbn [length]. lia.
  - destruct (eqs y x) eqn:E.
    + apply eqs_eq in E. exfalso. apply H. left. exact E.
    + rewrite IH; [cbn [length]; lia|]. intro Hin. apply H. right. exact Hin.
Qed.

Lemma indexOf_from_absent (x : jsstring) (l : list jsstring) (k : Z) :
  ~ In x l -> indexOf_from x l k = (-1)%Z.
Proof.
  revert k. induction l as [|y l IH]; intros k H; [reflexivity|].
  cbn [indexOf_from]. destruct (eqs y x) eqn:E.
  - apply eqs_eq in E. exfalso. apply H. left. exact E.
  - apply IH. intro Hin. apply H. right. exact Hin.
Qed.

(** X13: the feed is read from a file exactly when the arguments hold
    [--file] and a non-empty argument follows its first occurrence; when
    [--file] is missing, is the last argument or is followed by an empty
    argument, the feed is fetched from the fixed address. *)
Theorem chooseSource_cases (pre post : list jsstring) (p : jsstring) :
  ~ In (str "--file") pre ->
  (p <> [] ->
   chooseSource (pre ++ str "--file" :: p :: post) = FromFile p)
  /\ chooseSource (pre ++ str "--file" :: [] :: post) = FromNetwork RSS_URL
  /\ chooseSource (pre ++ [str "--file"]) = FromNetwork RSS_URL
  /\ chooseSource pre = FromNetwork RSS_URL.
Proof.
  intro H.
  assert (Hidx : forall rest,
             index (pre ++ str "--file" :: rest)
               (indexOf (str "--file") (pre ++ str "--file" :: rest) + 1)
             = nth_error rest 0
             /\ (indexOf (str "--file") (pre ++ str "--file" :: rest) =? -1)%Z
                = false).
  { intro rest. unfold indexOf. rewrite indexOf_from_first by exact H.
    split.
    - replace (0 + Z.of_nat (length pre) + 1)%Z
        with (Z.of_nat (S (length pre))) by lia.
      rewrite index_nat.
      rewrite nth_error_app2 by lia.
      replace (S (length pre) - length pre) with 1 by lia. reflexivity.
    - apply Z.eqb_neq. lia. }
  split.
  - intro Hp. unfold chooseSource. cbv zeta.
    destruct (Hidx (p :: post)) as [-> ->]. cbn [negb nth_error].
    destruct p; [contradiction|reflexivity].
  - split.
    + unfold chooseSource. cbv zeta.
      destruct (Hidx ([] :: post)) as [-> ->]. reflexivity.
    + split.
      * unfold chooseSource. cbv zeta.
        destruct (Hidx []) as [-> ->]. reflexivity.
      * unfold chooseSource, indexOf. cbv zeta.
        rewrite indexOf_from_absent by exact H. reflexivity.
Qed.

Lemma chooseSource_cases_witness :
  ~ In (str "--file") [str "node"; str "build.js"]
  /\ chooseSource [str "node"; str "build.js"; str "--file"; str "feed.rss"]
     = FromFile (str "feed.rss")
  /\ chooseSource [str "node"; str "build.js"; str "--file"]
     = FromNetwork RSS_URL.
Proof.
  assert (H : ~ In (str "--file") [str "node"; str "build.js"]).
  { intro H. vm_compute in H. intuition discriminate. }
  destruct (chooseSource_cases [str "node"; str "build.js"] []
              (str "feed.rss") H) as [Hf [_ [Hl _]]].
  split; [exact H|]. split; [apply Hf; discriminate|exact Hl].
Defined.

(** *** A feed without items *)

Lemma sort_length (A : Type) (cmp : A -> A -> number) (l : list A) :
  length (sort cmp l) = length l.
Proof. apply Permutation_length, sort_perm. Qed.

(** X14: every fragment of the feed gives exactly one episode (none is
    dropped or merged), and the home page cannot be generated exactly
    when there is no episode: a feed without a plain item makes the
    generation of the home page fail. *)
Theorem feed_without_items (parseDate : jsstring -> option Z)
  (formatDate : option Z -> jsstring) (literal : template -> nat -> jsstring)
  (rssContent : jsstring) (podcastMeta : PodcastMeta) :
  length (feedEpisodes parseDate rssContent)
  = length (getAllItems rssContent)
  /\ (generateHomePage formatDate literal
        (feedEpisodes parseDate rssContent) podcastMeta = None
      <-> getAllItems rssContent = [])
  /\ (nowhere eq_ci item_open rssContent ->
      generateHomePage formatDate literal
        (feedEpisodes parseDate rssContent) podcastMeta = None).
Proof.
  assert (L : length (feedEpisodes parseDate rssContent)
              = length (getAllItems rssContent)).
  { unfold feedEpisodes, sortEpisodes. rewrite sort_length. apply length_map. }
  assert (Hiff : generateHomePage formatDate literal
                   (feedEpisodes parseDate rssContent) podcastMeta = None
                 <-> getAllItems rssContent = []).
  { destruct (feedEpisodes parseDate rssContent) as [|e l] eqn:E.
    - split; [|reflexivity]. intros _.
      destruct (getAllItems rssContent); [reflexivity|discriminate].
    - split; [discriminate|]. intro H. rewrite H in L. discriminate. }
  split; [exact L|]. split; [exact Hiff|].
  intro H. apply Hiff. apply items_none. exact H.
Qed.

Lemma feed_without_items_witness :
  nowhere eq_ci item_open (str "<rss></rss>")
  /\ generateHomePage (fun _ => []) (fun _ _ => [])
       (feedEpisodes (fun _ => None) (str "<rss></rss>"))
       (podcastMetaOf (str "<rss></rss>")) = None.
Proof.
  assert (H : nowhere eq_ci item_open (str "<rss></rss>")).
  { intro i. do 12 (destruct i as [|i]; [vm_compute; reflexivity|]).
    reflexivity. }
  split; [exact H|].
  exact (proj2 (proj2 (feed_without_items (fun _ => None) (fun _ => [])
                         (fun _ _ => []) (str "<rss></rss>")
                         (podcastMetaOf (str "<rss></rss>")))) H).
Defined.

(** ** Fetching *)

Lemma redirectTarget_some (statusCode : Z) (next : jsstring) :
  (300 <= statusCode < 400)%Z -> next <> [] ->
  redirectTarget statusCode (Some next) = Some next.
Proof.
  intros H Hn. unfold redirectTarget.
  replace (300 <=? statusCode)%Z with true by (symmetry; apply Z.leb_le; lia).
  replace (statusCode <? 400)%Z with true by (symmetry; apply Z.ltb_lt; lia).
  destruct next; [contradiction|reflexivity].
Qed.




(** X16: a fetch of an address that redirects to itself never settles:
    it is still pending after any number of requests, since nothing bounds
    the number of redirects that are followed. *)
Theorem fetch_redirect_loop (web : bool -> jsstring -> reply)
  (url : jsstring) (statusCode : Z) (chunks : list jsstring)
  (complete : bool) (requests : nat) :
  web (starts_with (str "https") url) url
  = Reply statusCode (Some url) chunks complete ->
  (300 <= statusCode < 400)%Z -> url <> [] ->
  fetchURL web requests url = Pending
  /\ fetchBinary web requests url = Pending.
Proof.
  intros Hw Hs Hn. unfold fetchURL, fetchBinary.
  split; induction requests as [|n IH]; try reflexivity;
    cbn [fetchWith]; rewrite Hw, (redirectTarget_some _ _ Hs Hn); exact IH.
Qed.

Lemma fetch_redirect_loop_witness :
  fetchURL sampleWeb 1000 (str "https://a/loop") = Pending.
Proof.
  refine (proj1 (fetch_redirect_loop sampleWeb (str "https://a/loop") 307 []
                   true 1000 eq_refl _ _)); [lia|discriminate].
Defined.

(** ** File names *)

Lemma replaceG_collapse (s : jsstring) :
  replaceG nonslug_at [hyphen] 0 s = collapse false s
  /\ replaceG nonslug_at [hyphen] (length (takeWhile not_slug_char s)) s
     = collapse true s.
Proof.
  induction s as [|c t [IH0 IH1]]; [split; reflexivity|].
  assert (H0 : replaceG nonslug_at [hyphen] 0 (c :: t)
               = collapse false (c :: t)).
  { assert (Hm : nonslug_at (c :: t)
                 = if is_slug_char c then None
                   else Some (S (length (takeWhile not_slug_char t)))).
    { unfold nonslug_at. cbn [takeWhile]. unfold not_slug_char at 1.
      destruct (is_slug_char c); reflexivity. }
    cbn [replaceG collapse]. rewrite Hm.
    destruct (is_slug_char c).
    - rewrite IH0. reflexivity.
    - cbn [app]. rewrite IH1. reflexivity. }
  split; [exact H0|].
  cbn [takeWhile]. unfold not_slug_char at 1.
  destruct (is_slug_char c) eqn:E; cbn [negb length].
  - rewrite H0. cbn [collapse]. rewrite E. reflexivity.
  - cbn [replaceG collapse]. rewrite E. exact IH1.
Qed.

Lemma collapse_chars (s : jsstring) :
  forall b, Forall slug_ok (collapse b s).
Proof.
  induction s as [|c t IH]; intro b; cbn [collapse]; [constructor|].
  destruct (is_slug_char c) eqn:E.
  - constructor; [left; exact E|apply IH].
  - destruct b; [apply IH|]. constructor; [right; reflexivity|apply IH].
Qed.

Lemma slug_char_not_hyphen (c : N) :
  is_slug_char c = true -> (c =? hyphen)%N = false.
Proof.
  intro H. destruct (c =? hyphen)%N eqn:E; [|reflexivity].
  apply N.eqb_eq in E. subst c. discriminate.
Qed.

Lemma collapse_spaced (s : jsstring) :
  forall b, spaced b (collapse b s) = true.
Proof.
  induction s as [|c t IH]; intro b; cbn [collapse]; [reflexivity|].
  destruct (is_slug_char c) eqn:E.
  - cbn [spaced]. rewrite (slug_char_not_hyphen c E). apply IH.
  - destruct b; [apply IH|]. cbn [spaced]. rewrite N.eqb_refl. apply IH.
Qed.

Lemma spaced_weaken (o : jsstring) (b : bool) :
  spaced b o = true -> spaced false o = true.
Proof.
  destruct o as [|c t]; [reflexivity|]. cbn [spaced].
  destruct (c =? hyphen)%N; [|auto]. destruct b; [discriminate|auto].
Qed.

Lemma spaced_no_pair (o : jsstring) :
  forall b, spaced b o = true ->
            forall p q, o <> p ++ hyphen :: hyphen :: q.
Proof.
  induction o as [|c t IH]; intros b H p q Heq.
  - destruct p; discriminate.
  - cbn [spaced] in H. destruct p as [|x p].
    + cbn [app] in Heq. injection Heq as -> ->.
      rewrite N.eqb_refl in H. apply andb_prop in H. destruct H as [_ H].
      cbn [spaced] in H. rewrite N.eqb_refl in H. discriminate.
    + cbn [app] in Heq. injection Heq as _ ->.
      destruct (c =? hyphen)%N.
      * apply andb_prop in H. destruct H as [_ H]. exact (IH true H p q eq_refl).
      * exact (IH false H p q eq_refl).
Qed.

Lemma no_pair_rev (o : jsstring) : no_pair o -> no_pair (rev o).
Proof.
  intros H p q Heq. apply (H (rev q) (rev p)).
  rewrite <- (rev_involutive o), Heq, rev_app_distr. cbn [rev].
  rewrite <- !app_assoc. reflexivity.
Qed.

Lemma no_first_rev (o : jsstring) : no_last o -> no_first (rev o).
Proof.
  intros H t Heq. apply (H (rev t)).
  rewrite <- (rev_involutive o), Heq. reflexivity.
Qed.

Lemma no_last_rev (o : jsstring) : no_first o -> no_last (rev o).
Proof.
  intros H t Heq. apply (H (rev t)).
  rewrite <- (rev_involutive o), Heq, rev_app_distr. reflexivity.
Qed.

Lemma dropFirstHyphen_first (o : jsstring) :
  no_pair o -> no_first (dropFirstHyphen o).
Proof.
  intros H t Heq. destruct o as [|c o]; [discriminate|].
  cbn [dropFirstHyphen] in Heq. destruct (c =? hyphen)%N eqn:E.
  - apply N.eqb_eq in E. subst. exact (H [] t eq_refl).
  - injection Heq as -> _. rewrite N.eqb_refl in E. discriminate.
Qed.

Lemma dropFirstHyphen_pair (o : jsstring) :
  no_pair o -> no_pair (dropFirstHyphen o).
Proof.
  intros H p q Heq. destruct o as [|c o]; [destruct p; discriminate|].
  cbn [dropFirstHyphen] in Heq. destruct (c =? hyphen)%N.
  - apply (H (c :: p) q). rewrite Heq. reflexivity.
  - exact (H p q Heq).
Qed.

Lemma dropFirstHyphen_last (o : jsstring) :
  no_last o -> no_last (dropFirstHyphen o).
Proof.
  intros H t Heq. destruct o as [|c o]; [destruct t; discriminate|].
  cbn [dropFirstHyphen] in Heq. destruct (c =? hyphen)%N.
  - apply (H (c :: t)). rewrite Heq. reflexivity.
  - exact (H t Heq).
Qed.

Lemma dropFirstHyphen_chars (P : N -> Prop) (o : jsstring) :
  Forall P o -> Forall P (dropFirstHyphen o).
Proof.
  intro H. destruct o as [|c o]; [constructor|]. cbn [dropFirstHyphen].
  destruct (c =? hyphen)%N; [inversion H; assumption|exact H].
Qed.

Lemma dropFirstHyphen_keeps (x : N) (o : jsstring) :
  x <> hyphen -> In x o -> In x (dropFirstHyphen o).
Proof.
  intros Hx H. destruct o as [|c o]; [exact H|]. cbn [dropFirstHyphen].
  destruct (c =? hyphen)%N eqn:E; [|exact H].
  apply N.eqb_eq in E. destruct H as [H|H]; [congruence|exact H].
Qed.

Lemma collapse_keeps (x : N) (s : jsstring) :
  is_slug_char x = true -> In x s -> forall b, In x (collapse b s).
Proof.
  intros Hx. induction s as [|c t IH]; intros H b; [destruct H|].
  cbn [collapse]. destruct H as [->|H].
  - rewrite Hx. left. reflexivity.
  - destruct (is_slug_char c); [right; apply IH; exact H|].
    destruct b; [apply IH; exact H|right; apply IH; exact H].
Qed.

Lemma collapse_none (s : jsstring) :
  Forall (fun c => not_slug_char c = true) s ->
  collapse true s = [] /\ (collapse false s = [] \/ collapse false s = [hyphen]).
Proof.
  induction 1 as [|c t Hc _ [IH1 IH0]]; [auto|].
  unfold not_slug_char in Hc. apply negb_true_iff in Hc.
  cbn [collapse]. rewrite Hc, IH1. auto.
Qed.

(** X17: the name that [slugify] derives from a title holds only small
    letters, digits and hyphens, does not start or end with a hyphen and
    has no two hyphens in a row; it is empty exactly when the title, put
    in lower case, has no letter of a-z and no digit; and an episode
    number, when one is passed, is returned instead as it is. *)
Theorem slugify_name (title : jsstring) :
  let slug := slugify title None in
  Forall slug_ok slug
  /\ no_first slug /\ no_last slug /\ no_pair slug
  /\ (slug = []
      <-> Forall (fun c => not_slug_char c = true)
            (flat_map lowerVisible title))
  /\ (forall number, number <> [] -> slugify title (Some number) = number).
Proof.
  intro slug. unfold slug, slugify.
  rewrite (proj1 (replaceG_collapse (flat_map lowerVisible title))).
  set (s := flat_map lowerVisible title).
  set (o := collapse false s).
  assert (Hp : no_pair o)
    by (exact (spaced_no_pair o false (collapse_spaced s false))).
  set (a := dropFirstHyphen o).
  assert (Ha1 : no_first a) by (apply dropFirstHyphen_first; exact Hp).
  assert (Ha2 : no_pair a) by (apply dropFirstHyphen_pair; exact Hp).
  set (b := dropFirstHyphen (rev a)).
  assert (Hb1 : no_first b)
    by (apply dropFirstHyphen_first, no_pair_rev; exact Ha2).
  assert (Hb2 : no_last b)
    by (apply dropFirstHyphen_last, no_last_rev; exact Ha1).
  assert (Hb3 : no_pair b)
    by (apply dropFirstHyphen_pair, no_pair_rev; exact Ha2).
  unfold trimHyphens. fold o a b.
  split.
  { apply Forall_rev, dropFirstHyphen_chars, Forall_rev,
      dropFirstHyphen_chars, collapse_chars. }
  split; [apply no_first_rev; exact Hb2|].
  split; [apply no_last_rev; exact Hb1|].
  split; [apply no_pair_rev; exact Hb3|].
  split.
  - split.
    + intro Hnil. apply Forall_forall. intros x Hx.
      destruct (not_slug_char x) eqn:E; [reflexivity|exfalso].
      unfold not_slug_char in E. apply negb_false_iff in E.
      assert (Hin : In x (rev b)).
      { pose proof (slug_char_not_hyphen x E) as Hh. apply N.eqb_neq in Hh.
        apply in_rev. rewrite rev_involutive.
        apply dropFirstHyphen_keeps; [exact Hh|].
        apply -> in_rev. apply dropFirstHyphen_keeps; [exact Hh|].
        apply collapse_keeps; assumption. }
      rewrite Hnil in Hin. exact Hin.
    + intro Hall. destruct (collapse_none s Hall) as [_ [H|H]];
        unfold b, a, o; rewrite H; reflexivity.
  - intros [|c number] H; [contradiction|reflexivity].
Qed.

Lemma slugify_name_witness :
  str "12" <> []
  /\ slugify (str "Hello") (Some (str "12")) = str "12"
  /\ slugify (str " Recovery Talk, Part 2! ") None = str "recovery-talk-part-2".
Proof.
  assert (H : str "12" <> []) by discriminate.
  split; [exact H|]. split; [|vm_compute; reflexivity].
  destruct (slugify_name (str "Hello")) as [_ [_ [_ [_ [_ Hn]]]]].
  exact (Hn (str "12") H).
Defined.

(** X18: the links to the page of an episode in the side bar and between
    the detail pages are made from the number field of the episode alone;
    that address is the name under which the page is written when the
    number field is not empty, and it is not that name when the number
    field is empty and the title gives a name. *)
Theorem link_and_filename (ep : Episode) :
  let target := episode ep ++ str ".html" in
  prevLink (Some ep)
  = (str "<a href=" ++ dq) ++ target
    ++ dq ++ str " class=" ++ dq ++ str "episode-nav-link episode-nav-prev"
    ++ dq ++ str ">&larr; Episode " ++ episode ep ++ str "</a>"
  /\ nextLink (Some ep)
     = (str "<a href=" ++ dq) ++ target
       ++ dq ++ str " class=" ++ dq ++ str "episode-nav-link episode-nav-next"
       ++ dq ++ str ">Episode " ++ episode ep ++ str " &rarr;</a>"
  /\ sidebarItem ep
     = (indent10 ++ str "<li><a href=" ++ dq ++ str "episodes/") ++ target
       ++ dq ++ str ">" ++ numberPrefix ep ++ title ep ++ str "</a></li>"
       ++ indent10
  /\ (episode ep <> [] -> pageFilename ep = target)
  /\ (episode ep = [] -> slugify (title ep) None <> [] ->
      pageFilename ep <> target).
Proof.
  intro target. unfold target.
  split; [cbn [prevLink]; rewrite <- !app_assoc; reflexivity|].
  split; [cbn [nextLink]; rewrite <- !app_assoc; reflexivity|].
  split; [unfold sidebarItem; rewrite <- !app_assoc; reflexivity|].
  unfold pageFilename. split.
  - intro H. destruct (episode ep); [contradiction|reflexivity].
  - intros -> H. cbn [or_else app]. intro Heq.
    apply H. apply (f_equal (@length N)) in Heq.
    rewrite length_app in Heq. apply length_zero_iff_nil. lia.
Qed.

Lemma link_and_filename_witness :
  episode (episodeOf "7" 7) <> []
  /\ pageFilename (episodeOf "7" 7) = str "7.html".
Proof.
  assert (H : episode (episodeOf "7" 7) <> []) by discriminate.
  split; [exact H|].
  exact (proj1 (proj2 (proj2 (proj2 (link_and_filename (episodeOf "7" 7)))))
           H).
Defined.

(** ** Descriptions *)

Lemma dropWhile_skips (p : N -> bool) (s : jsstring) :
  exists w, s = w ++ dropWhile p s /\ Forall (fun x => p x = true) w.
Proof.
  exists (takeWhile p s). split.
  - symmetry. apply takeWhile_dropWhile.
  - apply takeWhile_Forall.
Qed.

(** X19: [cleanDescription] removes the fan-mail prefix when the text
    starts with it (in any case of its letters) together with the white
    space that follows, and only there: the result is the text after the
    prefix and that white space, a text that does not start with the
    prefix is returned as it is, and a prefix that follows the first one
    is kept. *)
Theorem cleanDescription_prefix (p rest text : jsstring) :
  (same_ci fan_mail p -> cleanDescription (p ++ rest) = dropWhile is_space rest)
  /\ (same_ci fan_mail p ->
      (forall c t, rest = c :: t -> is_space c = false) ->
      cleanDescription (p ++ rest) = rest)
  /\ (strip_prefix eq_ci fan_mail text = None -> cleanDescription text = text)
  /\ (exists removed, text = removed ++ cleanDescription text)
  /\ cleanDescription (fan_mail ++ str " " ++ fan_mail ++ str " Hi")
     = fan_mail ++ str " Hi".
Proof.
  assert (H1 : same_ci fan_mail p ->
               cleanDescription (p ++ rest) = dropWhile is_space rest).
  { intro Hp. unfold cleanDescription.
    rewrite (strip_prefix_match eq_ci fan_mail p rest Hp). reflexivity. }
  split; [exact H1|]. split.
  { intros Hp Hr. rewrite (H1 Hp). destruct rest as [|c t]; [reflexivity|].
    cbn [dropWhile]. rewrite (Hr c t eq_refl). reflexivity. }
  split.
  { intro H. unfold cleanDescription. rewrite H. reflexivity. }
  split; [|vm_compute; reflexivity].
  unfold cleanDescription.
  destruct (strip_prefix eq_ci fan_mail text) as [r|] eqn:E.
  - destruct (strip_prefix_split _ _ _ _ E) as [o [-> _]].
    destruct (dropWhile_skips is_space r) as [w [Hw _]].
    exists (o ++ w). rewrite <- app_assoc, <- Hw. reflexivity.
  - exists []. reflexivity.
Qed.

Lemma cleanDescription_prefix_witness :
  same_ci fan_mail (str "SEND US A TEXT")
  /\ cleanDescription (str "SEND US A TEXT" ++ str "  Welcome back!")
     = str "Welcome back!"
  /\ cleanDescription (str "Welcome") = str "Welcome".
Proof.
  assert (H : same_ci fan_mail (str "SEND US A TEXT"))
    by (unfold same_ci; repeat constructor).
  destruct (cleanDescription_prefix (str "SEND US A TEXT")
              (str "  Welcome back!") (str "Welcome")) as [H1 [_ [H3 _]]].
  split; [exact H|]. split; [rewrite (H1 H); reflexivity|].
  apply H3. reflexivity.
Defined.

(** ** Attributes and plain text *)

Lemma attr_scan_through (attr mid r v : jsstring) :
  ~ In c_gt mid -> attr_scan attr r = Some v ->
  attr_scan attr (mid ++ r) = Some v.
Proof.
  intros Hm Hr. induction mid as [|c mid IH]; [exact Hr|].
  cbn [app attr_scan]. destruct (c =? c_gt)%N eqn:E.
  - apply N.eqb_eq in E. exfalso. apply Hm. left. exact E.
  - rewrite IH; [reflexivity|]. intro Hin. apply Hm. right. exact Hin.
Qed.

Lemma getAttr_first
  (tag attr pre o mid written v post : jsstring) (w q1 q2 : N) :
  none_in eq_ci (c_lt :: tag) pre
    (o ++ mid ++ w :: written ++ q1 :: v ++ q2 :: post) ->
  same_ci (c_lt :: tag) o ->
  ~ In c_gt mid ->
  is_space w = true ->
  same_ci (attr ++ str "=") written ->
  is_quote q1 = true -> is_quote q2 = true ->
  forallb not_quote v = true ->
  attr_scan attr (written ++ q1 :: v ++ q2 :: post) = None ->
  getAttr (pre ++ o ++ mid ++ w :: written ++ q1 :: v ++ q2 :: post) tag attr
  = v.
Proof.
  intros Hpre Ho Hmid Hw Hwr Hq1 Hq2 Hv Hlater. unfold getAttr.
  rewrite search_skip.
  2:{ intros i Hi. unfold attr_at. rewrite (Hpre i Hi). reflexivity. }
  rewrite (search_here _ _ _ v); [reflexivity|].
  unfold attr_at. rewrite (strip_prefix_match eq_ci _ o _ Ho).
  apply attr_scan_through; [exact Hmid|].
  cbn [attr_scan]. rewrite Hlater, Hw.
  assert (Hgt : (w =? c_gt)%N = false).
  { destruct (w =? c_gt)%N eqn:E; [|reflexivity].
    apply N.eqb_eq in E. subst w. discriminate. }
  rewrite Hgt. unfold attr_value.
  rewrite (strip_prefix_match eq_ci _ written _ Hwr), Hq1.
  assert (Hq2' : not_quote q2 = false)
    by (unfold not_quote; rewrite Hq2; reflexivity).
  destruct (takeWhile_stop not_quote v post q2 Hv Hq2') as [-> ->].
  reflexivity.
Qed.

(** X20: for a tag written with an attribute - white space, the name of
    the attribute (in either case), [=], a quote, a value without quotes
    and a quote again, of either kind each - [getAttr] gives the value,
    provided the text of the opening tag up to its name - the name
    itself or a longer name that begins with it - starts nowhere before
    the tag, no [>] stands between the tag name and the attribute, and
    the attribute does not match again later in the tag (the last match
    in a tag is the one that is taken).  The first proviso is needed: a
    tag with a longer name that stands before and has the attribute
    gives its value in place of that of the tag. *)
Theorem getAttr_value :
  (forall (tag attr pre o mid written v post : jsstring) (w q1 q2 : N),
      none_in eq_ci (c_lt :: tag) pre
        (o ++ mid ++ w :: written ++ q1 :: v ++ q2 :: post) ->
      same_ci (c_lt :: tag) o ->
      ~ In c_gt mid ->
      is_space w = true ->
      same_ci (attr ++ str "=") written ->
      is_quote q1 = true -> is_quote q2 = true ->
      forallb not_quote v = true ->
      attr_scan attr (written ++ q1 :: v ++ q2 :: post) = None ->
      getAttr (pre ++ o ++ mid ++ w :: written ++ q1 :: v ++ q2 :: post)
        tag attr
      = v)
  /\ getAttr (str "<enclosureX url='a'/><enclosure url='b'/>")
       (str "enclosure") (str "url")
     = str "a"
  /\ getAttr (str "<enclosure url='b'/><enclosureX url='a'/>")
       (str "enclosure") (str "url")
     = str "b".
Proof.
  split; [exact getAttr_first|].
  split; vm_compute; reflexivity.
Qed.

Lemma getAttr_value_witness :
  getAttr ([] ++ str "<enclosure" ++ str " type='audio/mpeg'"
           ++ 32%N :: str "URL=" ++ 34%N :: str "https://x/episodes/12.mp3"
           ++ 39%N :: str " />")
    (str "enclosure") (str "url")
  = str "https://x/episodes/12.mp3".
Proof.
  apply (proj1 getAttr_value).
  - intros i Hi. cbn [length] in Hi. lia.
  - unfold same_ci. repeat constructor.
  - intro H. vm_compute in H. intuition discriminate.
  - reflexivity.
  - unfold same_ci. repeat constructor.
  - reflexivity.
  - reflexivity.
  - vm_compute. reflexivity.
  - vm_compute. reflexivity.
Defined.

Lemma escaped_length (s : jsstring) :
  length s <= length (flat_map escapeChar s).
Proof.
  induction s as [|c s IH]; [apply Nat.le_refl|].
  cbn [flat_map length]. rewrite length_app.
  assert (1 <= length (escapeChar c)).
  { unfold escapeChar.
    destruct (c =? c_amp)%N; [cbn; lia|].
    destruct (c =? c_lt)%N; [cbn; lia|].
    destruct (c =? c_gt)%N; [cbn; lia|].
    destruct (c =? c_dq)%N; cbn; lia. }
  lia.
Qed.

(** X21: [escapeHtml] returns a text unchanged exactly when the text
    holds none of the four characters that it escapes; the escaped text
    is never shorter than the text. *)
Theorem escapeHtml_plain (text : jsstring) :
  (escapeHtml text = text
   <-> ~ In c_amp text /\ ~ In c_lt text /\ ~ In c_gt text /\ ~ In c_dq text)
  /\ length text <= length (escapeHtml text).
Proof.
  rewrite escapeHtml_chars. split; [|apply escaped_length].
  induction text as [|c t IH]; [cbn; tauto|].
  cbn [flat_map]. split.
  - intro H. unfold escapeChar in H.
    destruct (c =? c_amp)%N eqn:Ea.
    { exfalso. apply N.eqb_eq in Ea. subst c.
      apply (f_equal (@length N)) in H. rewrite length_app in H.
      pose proof (escaped_length t) as L. unfold escapeChar in L.
      change (length (str "&amp;")) with 5 in H. cbn [length] in H. lia. }
    destruct (c =? c_lt)%N eqn:El.
    { apply N.eqb_eq in El. subst c. discriminate H. }
    destruct (c =? c_gt)%N eqn:Eg.
    { apply N.eqb_eq in Eg. subst c. discriminate H. }
    destruct (c =? c_dq)%N eqn:Eq.
    { apply N.eqb_eq in Eq. subst c. discriminate H. }
    cbn [app] in H. injection H as H. fold escapeChar in H.
    destruct (proj1 IH H) as [H1 [H2 [H3 H4]]].
    apply N.eqb_neq in Ea, El, Eg, Eq.
    repeat split; intros [Hc|Hin]; auto; congruence.
  - intros [H1 [H2 [H3 H4]]].
    assert (Hc : escapeChar c = [c]).
    { unfold escapeChar.
      destruct (c =? c_amp)%N eqn:Ea;
        [apply N.eqb_eq in Ea; exfalso; apply H1; left; auto|].
      destruct (c =? c_lt)%N eqn:El;
        [apply N.eqb_eq in El; exfalso; apply H2; left; auto|].
      destruct (c =? c_gt)%N eqn:Eg;
        [apply N.eqb_eq in Eg; exfalso; apply H3; left; auto|].
      destruct (c =? c_dq)%N eqn:Eq;
        [apply N.eqb_eq in Eq; exfalso; apply H4; left; auto|].
      reflexivity. }
    rewrite Hc. cbn [app]. f_equal. apply IH.
    repeat split; intro Hin; [apply H1|apply H2|apply H3|apply H4];
      right; exact Hin.
Qed.
